(** * A shallow embedding of the cc front end: lexer.c and parser.c

    The lexer turns a character source (a file stream or a string in memory)
    into tokens; the recursive descent parser turns the token array into an
    abstract syntax tree.  Both are embedded as state-passing functions in a
    small outcome monad, and the properties stated in the specification are
    proved about these functions.

    Conventions of the embedding:
    - an [int] holding a character is a [Z]; [EOF] is [-1];
    - [char] is the signed 8 bit type of GCC on x86, conversions to it wrap;
    - a [FILE*] opened for reading is the list of the bytes not read yet;
    - a [char*] is the array it points into together with nothing else: a
      read outside that array is reported as [Fault OutOfBounds];
    - [while] loops and the recursion of the grammar take a [fuel] bound;
      running out of it is the separate outcome [OutOfFuel], and the
      sufficiency of a concrete bound is proved below. *)

From Stdlib Require Import ZArith List String Ascii Bool Lia.
From Stdlib Require Import DecimalString DecimalPos DecimalN.
Import ListNotations.

(** ** Outcomes and the state monad *)

Inductive token_type : Type :=
| TOK_SPACE | TOK_EOF | TOK_NUMBER | TOK_IDENT
| TOK_PLUS | TOK_MINUS | TOK_DIV | TOK_MULTIPLY | TOK_MOD
| TOK_QMARK | TOK_COLON
| TOK_NEQUALITY | TOK_EQUALITY
| TOK_BWAND | TOK_LAND | TOK_BWOR | TOK_LOR
| TOK_LSHIFT | TOK_LT | TOK_LTE | TOK_RSHIFT | TOK_GT | TOK_GTE
| TOK_BWXOR | TOK_BWNEG
| TOK_LPAREN | TOK_RPAREN | TOK_SEMICOLON.

Definition token_type_eq_dec (a b : token_type) : {a = b} + {a <> b}.
Proof. decide equality. Defined.

Definition token_type_eqb (a b : token_type) : bool :=
  if token_type_eq_dec a b then true else false.

(** Modelled from the spec: [xerror] of compiler.h, which is not part of the
    sources at hand.  The specification says that a failed check aborts the
    whole parse attempt with [UnexpectedToken]; the error value records the
    kind the check required and the kind it found, next to the message the
    call site passes. *)
Inductive parse_error : Type :=
| UnexpectedToken (expected found : token_type) (msg : string).

Inductive fault : Type :=
| OutOfBounds      (* a read outside the array a pointer points into *)
| Uninitialised.   (* a read of a field no constructor function has set *)

Inductive outcome (A : Type) : Type :=
| Done (a : A)
| Failed (e : parse_error)
| Fault (f : fault)
| OutOfFuel.

Arguments Done {A} a.
Arguments Failed {A} e.
Arguments Fault {A} f.
Arguments OutOfFuel {A}.

Definition M (S A : Type) : Type := S -> outcome A * S.

Definition ret {S A : Type} (a : A) : M S A := fun s => (Done a, s).

Definition bind {S A B : Type} (m : M S A) (k : A -> M S B) : M S B :=
  fun s =>
    match m s with
    | (Done a, s') => k a s'
    | (Failed e, s') => (Failed e, s')
    | (Fault f, s') => (Fault f, s')
    | (OutOfFuel, s') => (OutOfFuel, s')
    end.

Definition out_of_fuel {S A : Type} : M S A := fun s => (OutOfFuel, s).
Definition fault_with {S A : Type} (f : fault) : M S A :=
  fun s => (Fault f, s).

Notation "x <- c1 ;; c2" := (bind c1 (fun x => c2))
  (at level 61, c1 at next level, right associativity).
Notation "c1 ;;; c2" := (bind c1 (fun _ => c2))
  (at level 61, right associativity).

(** ** Characters and the C library *)

Definition EOF : Z := (-1)%Z.

(** The code of a character constant, as an [int]. *)
Definition ch (a : ascii) : Z := Z.of_N (N_of_ascii a).

(** Conversion of an [int] to [char] (signed, 8 bits, wrapping). *)
Definition to_char (c : Z) : Z := ((c + 128) mod 256 - 128)%Z.

(** The byte stored for a [char]. *)
Definition byte_of (c : Z) : ascii := ascii_of_N (Z.to_N (c mod 256)).

Definition in_range (lo hi c : Z) : bool := ((lo <=? c) && (c <=? hi))%Z.

(** ctype.h in the C locale. *)
Definition isdigit (c : Z) : bool := in_range (ch "0") (ch "9") c.
Definition isalpha (c : Z) : bool :=
  in_range (ch "a") (ch "z") c || in_range (ch "A") (ch "Z") c.
Definition isspace (c : Z) : bool :=
  (c =? 32)%Z || in_range 9 13 c.

(** stdio.h on a stream opened for reading: the state of the stream is the
    list of bytes still to be read.  [ungetc] refuses [EOF]. *)
Definition fgetc (fd : list ascii) : Z * list ascii :=
  match fd with
  | [] => (EOF, [])
  | a :: fd' => (ch a, fd')
  end.

Definition ungetc (c : Z) (fd : list ascii) : list ascii :=
  if (c =? EOF)%Z then fd else byte_of c :: fd.

(** [strtol (s, NULL, 10)] on a machine whose [long] has 64 bits. *)
Definition LONG_MAX : Z := (2 ^ 63 - 1)%Z.
Definition LONG_MIN : Z := (- 2 ^ 63)%Z.

Fixpoint strtol_skip (s : list ascii) : list ascii :=
  match s with
  | a :: s' => if isspace (ch a) then strtol_skip s' else s
  | [] => []
  end.

Fixpoint strtol_digits (s : list ascii) (acc : Z) : Z :=
  match s with
  | a :: s' =>
      if isdigit (ch a)
      then strtol_digits s' (10 * acc + (ch a - ch "0"))%Z
      else acc
  | [] => acc
  end.

Definition strtol (s : string) : Z :=
  let l := strtol_skip (list_ascii_of_string s) in
  match l with
  | "-"%char :: l' => Z.max LONG_MIN (- strtol_digits l' 0)
  | "+"%char :: l' => Z.min LONG_MAX (strtol_digits l' 0)
  | _ => Z.min LONG_MAX (strtol_digits l 0)
  end.

(** ** Tokens (token.h) *)

Record token_t : Type := mk_token {
  type : token_type;
  is_literal : bool;
  literal : option string   (* [None]: the field was never assigned *)
}.

(** ** lexer.c *)

Inductive lex_t : Type :=
| FILE_BACKED (fd : list ascii)
| STRING_BACKED (str : list ascii) (position : Z).

(** [lex_init] for a string; the argument is the whole array [data] points
    into, terminator and what follows it included. *)
Definition lex_init_string (data : list ascii) : lex_t :=
  STRING_BACKED data 0.

(** [lex_init] for a file whose content is [bytes]. *)
Definition lex_init_file (bytes : list ascii) : lex_t :=
  FILE_BACKED bytes.

Definition lex_getc : M lex_t Z := fun ctx =>
  match ctx with
  | FILE_BACKED fd =>
      let (c, fd') := fgetc fd in (Done c, FILE_BACKED fd')
  | STRING_BACKED str position =>
      match (if (position <? 0)%Z then None
             else nth_error str (Z.to_nat position)) with
      | None => (Fault OutOfBounds, ctx)
      | Some a =>
          let c := to_char (ch a) in
          (Done (if (c =? 0)%Z then EOF else c),
           STRING_BACKED str (position + 1)%Z)
      end
  end.

Definition lex_ungetc (c : Z) : M lex_t unit := fun ctx =>
  match ctx with
  | FILE_BACKED fd => (Done tt, FILE_BACKED (ungetc (to_char c) fd))
  | STRING_BACKED str position =>
      (Done tt, STRING_BACKED str (position - 1)%Z)
  end.

Definition lex_mkspecial (ty : token_type) : token_t := mk_token ty false None.
Definition lex_mkkw (ty : token_type) : token_t := mk_token ty false None.
Definition lex_mknumber (ty : token_type) (number : string) : token_t :=
  mk_token ty true (Some number).
Definition lex_mkident (ty : token_type) (identifier : string) : token_t :=
  mk_token ty true (Some identifier).

(** vec_char_t: a growing array of [char]. *)
Definition vec_char_init : list ascii := [].
Definition vec_char_push (v : list ascii) (c : Z) : list ascii :=
  v ++ [byte_of (to_char c)].
Definition vec_char_data (v : list ascii) : string := string_of_list_ascii v.

Fixpoint lex_chnumber_loop (fuel : nat) (number : list ascii)
  : M lex_t (list ascii) :=
  match fuel with
  | O => out_of_fuel
  | S fuel' =>
      c <- lex_getc ;;
      if (c =? EOF)%Z then ret number
      else if negb (isdigit c) then lex_ungetc c ;;; ret number
      else lex_chnumber_loop fuel' (vec_char_push number c)
  end.

Definition lex_chnumber (fuel : nat) (value : Z) : M lex_t (option token_t) :=
  number <- lex_chnumber_loop fuel (vec_char_push vec_char_init value) ;;
  ret (Some (lex_mknumber TOK_NUMBER (vec_char_data number))).

Fixpoint lex_chident_loop (fuel : nat) (identifier : list ascii)
  : M lex_t (list ascii) :=
  match fuel with
  | O => out_of_fuel
  | S fuel' =>
      c <- lex_getc ;;
      if (c =? EOF)%Z then ret identifier
      else if negb (isalpha c) || (c =? ch "_")%Z
           then lex_ungetc c ;;; ret identifier
      else lex_chident_loop fuel' (vec_char_push identifier c)
  end.

Definition lex_chident (fuel : nat) (value : Z) : M lex_t (option token_t) :=
  identifier <- lex_chident_loop fuel (vec_char_push vec_char_init value) ;;
  ret (Some (lex_mkident TOK_IDENT (vec_char_data identifier))).

(** The result of the [lex_ch*] functions and of [lex_token] is a pointer
    to a token; [None] is the null pointer. *)
Definition lex_chnot : M lex_t (option token_t) :=
  c <- lex_getc ;;
  if (c =? ch "=")%Z then ret (Some (lex_mkkw TOK_NEQUALITY))
  else ret None.

Definition lex_cheq : M lex_t (option token_t) :=
  c <- lex_getc ;;
  if (c =? ch "=")%Z then ret (Some (lex_mkkw TOK_EQUALITY))
  else lex_ungetc c ;;; ret (Some (lex_mkkw TOK_BWOR)).

Definition lex_chor : M lex_t (option token_t) :=
  c <- lex_getc ;;
  if (c =? ch "|")%Z then ret (Some (lex_mkkw TOK_LOR))
  else lex_ungetc c ;;; ret (Some (lex_mkkw TOK_BWOR)).

Definition lex_chand : M lex_t (option token_t) :=
  c <- lex_getc ;;
  if (c =? ch "&")%Z then ret (Some (lex_mkkw TOK_LAND))
  else lex_ungetc c ;;; ret (Some (lex_mkkw TOK_BWAND)).

Definition lex_chlbr : M lex_t (option token_t) :=
  c <- lex_getc ;;
  if (c =? ch "<")%Z then ret (Some (lex_mkkw TOK_LSHIFT))
  else if (c =? ch "=")%Z then ret (Some (lex_mkkw TOK_LTE))
  else lex_ungetc c ;;; ret (Some (lex_mkkw TOK_LT)).

Definition lex_chrbr : M lex_t (option token_t) :=
  c <- lex_getc ;;
  if (c =? ch ">")%Z then ret (Some (lex_mkkw TOK_RSHIFT))
  else if (c =? ch "=")%Z then ret (Some (lex_mkkw TOK_GTE))
  else lex_ungetc c ;;; ret (Some (lex_mkkw TOK_GT)).

Definition lex_skip_space : M lex_t bool :=
  c <- lex_getc ;;
  if (c =? EOF)%Z then ret false
  else if isspace c then ret true
  else lex_ungetc c ;;; ret false.

Definition lex_token (fuel : nat) : M lex_t (option token_t) :=
  sp <- lex_skip_space ;;
  if sp then ret (Some (lex_mkspecial TOK_SPACE))
  else
    c <- lex_getc ;;
    if (c =? ch "+")%Z then ret (Some (lex_mkkw TOK_PLUS))
    else if (c =? ch "-")%Z then ret (Some (lex_mkkw TOK_MINUS))
    else if (c =? ch "/")%Z then ret (Some (lex_mkkw TOK_DIV))
    else if (c =? ch "*")%Z then ret (Some (lex_mkkw TOK_MULTIPLY))
    else if (c =? ch "%")%Z then ret (Some (lex_mkkw TOK_MOD))
    else if (c =? ch "?")%Z then ret (Some (lex_mkkw TOK_QMARK))
    else if (c =? ch ":")%Z then ret (Some (lex_mkkw TOK_COLON))
    else if (c =? ch "!")%Z then lex_chnot
    else if (c =? ch "=")%Z then lex_cheq
    else if (c =? ch "&")%Z then lex_chand
    else if (c =? ch "|")%Z then lex_chor
    else if (c =? ch "<")%Z then lex_chlbr
    else if (c =? ch ">")%Z then lex_chrbr
    else if (c =? ch "^")%Z then ret (Some (lex_mkkw TOK_BWXOR))
    else if (c =? ch "~")%Z then ret (Some (lex_mkkw TOK_BWNEG))
    else if (c =? ch "(")%Z then ret (Some (lex_mkkw TOK_LPAREN))
    else if (c =? ch ")")%Z then ret (Some (lex_mkkw TOK_RPAREN))
    else if (c =? ch ";")%Z then ret (Some (lex_mkkw TOK_SEMICOLON))
    else if in_range (ch "0") (ch "9") c then lex_chnumber fuel c
    else if in_range (ch "a") (ch "z") c
            || in_range (ch "A") (ch "Z") c
            || (c =? ch "_")%Z then lex_chident fuel c
    else if (c =? EOF)%Z then ret (Some (lex_mkspecial TOK_EOF))
    else ret (Some (lex_mkspecial TOK_EOF)).

(** ** parser.h, parser.c *)

(** [node_t]: the fields parser.c assigns are [id], [is_term] and one member
    of the union; the constructor names the member that is set. *)
Inductive node_t : Type :=
| node_value (id : token_type) (is_term : bool) (value : Z)
| node_binary (id : token_type) (is_term : bool) (left right : node_t)
| node_unary (id : token_type) (is_term : bool) (operand : node_t).

Record rdp_t : Type := mk_rdp {
  tokens : list token_t;
  position : nat;
  length : nat
}.

Definition rdp_init (tokens : list token_t) (length : nat) : rdp_t :=
  mk_rdp tokens 0 length.

Definition rdp_peek : M rdp_t token_t := fun ctx =>
  match nth_error (tokens ctx) (position ctx) with
  | Some t => (Done t, ctx)
  | None => (Fault OutOfBounds, ctx)
  end.

Definition rdp_consume : M rdp_t unit := fun ctx =>
  (Done tt, mk_rdp (tokens ctx) (S (position ctx)) (length ctx)).

Definition rdp_pop : M rdp_t token_t :=
  t <- rdp_peek ;;
  rdp_consume ;;;
  ret t.

Fixpoint rdp_consume_blanks (fuel : nat) : M rdp_t unit :=
  match fuel with
  | O => out_of_fuel
  | S fuel' =>
      t <- rdp_peek ;;
      if token_type_eqb (type t) TOK_SPACE
      then rdp_consume ;;; rdp_consume_blanks fuel'
      else ret tt
  end.

Definition ast_binary_operator (id : token_type) (left right : node_t)
  : node_t := node_binary id false left right.

Definition ast_unary_operator (id : token_type) (operand : node_t)
  : node_t := node_unary id false operand.

Definition ast_number (value : Z) : node_t :=
  node_value TOK_NUMBER true value.

Definition xerror {A : Type} (expected found : token_type) (msg : string)
  : M rdp_t A := fun ctx => (Failed (UnexpectedToken expected found msg), ctx).

Section Grammar.

(** The bound handed to every loop of the grammar functions. *)
Variable fuel : nat.

(** The forward declaration [static node_t* rdp_expression(rdp_t *ctx)]. *)
Variable expression : M rdp_t node_t.

Definition rdp_const : M rdp_t node_t :=
  rdp_consume_blanks fuel ;;;
  t <- rdp_pop ;;
  if negb (token_type_eqb (type t) TOK_NUMBER)
  then xerror TOK_NUMBER (type t) "Invalid symbol encountered"
  else
    match literal t with
    | Some s => ret (ast_number (strtol s))
    | None => fault_with Uninitialised
    end.

Definition rdp_primary_exp : M rdp_t node_t :=
  rdp_consume_blanks fuel ;;;
  left <- rdp_peek ;;
  if token_type_eqb (type left) TOK_LPAREN
  then
    rdp_consume ;;;
    expr <- expression ;;
    rdp_consume_blanks fuel ;;;
    right <- rdp_pop ;;
    if token_type_eqb (type right) TOK_RPAREN
    then ret expr
    else xerror TOK_RPAREN (type right) "Invalid symbol encountered"
  else rdp_const.

Definition rdp_unary_exp : M rdp_t node_t := rdp_primary_exp.

Fixpoint rdp_mult_exp_loop (n : nat) (left : node_t) : M rdp_t node_t :=
  match n with
  | O => out_of_fuel
  | S n' =>
      rdp_consume_blanks fuel ;;;
      op <- rdp_peek ;;
      match type op with
      | TOK_MULTIPLY | TOK_DIV | TOK_MOD =>
          rdp_consume ;;;
          right <- rdp_unary_exp ;;
          rdp_mult_exp_loop n' (ast_binary_operator (type op) left right)
      | _ => ret left
      end
  end.

Definition rdp_mult_exp : M rdp_t node_t :=
  left <- rdp_unary_exp ;;
  rdp_mult_exp_loop fuel left.

Fixpoint rdp_additive_exp_loop (n : nat) (left : node_t)
  : M rdp_t node_t :=
  match n with
  | O => out_of_fuel
  | S n' =>
      rdp_consume_blanks fuel ;;;
      op <- rdp_peek ;;
      match type op with
      | TOK_PLUS | TOK_MINUS =>
          rdp_consume ;;;
          right <- rdp_mult_exp ;;
          rdp_additive_exp_loop n'
            (ast_binary_operator (type op) left right)
      | _ => ret left
      end
  end.

Definition rdp_additive_exp : M rdp_t node_t :=
  left <- rdp_mult_exp ;;
  rdp_additive_exp_loop fuel left.

Fixpoint rdp_and_exp_loop (n : nat) (left : node_t) : M rdp_t node_t :=
  match n with
  | O => out_of_fuel
  | S n' =>
      rdp_consume_blanks fuel ;;;
      op <- rdp_peek ;;
      match type op with
      | TOK_BWAND =>
          rdp_consume ;;;
          right <- rdp_additive_exp ;;
          rdp_and_exp_loop n' (ast_binary_operator (type op) left right)
      | _ => ret left
      end
  end.

Definition rdp_and_exp : M rdp_t node_t :=
  left <- rdp_additive_exp ;;
  rdp_and_exp_loop fuel left.

Fixpoint rdp_xor_exp_loop (n : nat) (left : node_t) : M rdp_t node_t :=
  match n with
  | O => out_of_fuel
  | S n' =>
      rdp_consume_blanks fuel ;;;
      op <- rdp_peek ;;
      match type op with
      | TOK_BWXOR =>
          rdp_consume ;;;
          right <- rdp_and_exp ;;
          rdp_xor_exp_loop n' (ast_binary_operator (type op) left right)
      | _ => ret left
      end
  end.

Definition rdp_xor_exp : M rdp_t node_t :=
  left <- rdp_and_exp ;;
  rdp_xor_exp_loop fuel left.

Fixpoint rdp_ior_exp_loop (n : nat) (left : node_t) : M rdp_t node_t :=
  match n with
  | O => out_of_fuel
  | S n' =>
      rdp_consume_blanks fuel ;;;
      op <- rdp_peek ;;
      match type op with
      | TOK_BWOR =>
          rdp_consume ;;;
          right <- rdp_xor_exp ;;
          rdp_ior_exp_loop n' (ast_binary_operator (type op) left right)
      | _ => ret left
      end
  end.

Definition rdp_ior_exp : M rdp_t node_t :=
  left <- rdp_xor_exp ;;
  rdp_ior_exp_loop fuel left.

End Grammar.

(** [rdp_expression] calls [rdp_ior_exp], which reaches [rdp_expression]
    again below an opening parenthesis: the recursion takes one unit of
    fuel for each level of nesting. *)
Fixpoint rdp_expression (fuel : nat) : M rdp_t node_t :=
  match fuel with
  | O => out_of_fuel
  | S fuel' => rdp_ior_exp fuel' (rdp_expression fuel')
  end.

Definition rdp_generate_ast (fuel : nat) : M rdp_t node_t :=
  rdp_expression fuel.

(** ** The driver of interpreter.c: lex a line, then parse it *)

Definition vec_token_push (v : list token_t) (t : token_t) : list token_t :=
  v ++ [t].

(** The [do ... while (tok->type != TOK_EOF)] loop; [None] is the early exit
    on a null token ("Invalid Syntax"). *)
Fixpoint lex_line (fuel : nat) (toks : list token_t)
  : M lex_t (option (list token_t)) :=
  match fuel with
  | O => out_of_fuel
  | S fuel' =>
      tok <- lex_token fuel' ;;
      match tok with
      | None => ret None
      | Some t =>
          let toks' := vec_token_push toks t in
          if negb (token_type_eqb (type t) TOK_EOF)
          then lex_line fuel' toks'
          else ret (Some toks')
      end
  end.

(** What a source holds that is still to be read: the bound used for the
    fuel of a line. *)
Definition lex_remaining (ctx : lex_t) : nat :=
  match ctx with
  | FILE_BACKED fd => List.length fd
  | STRING_BACKED str position => List.length str - Z.to_nat position
  end.

Definition line_fuel (ctx : lex_t) : nat := lex_remaining ctx + 2.
Definition parse_fuel (toks : list token_t) : nat := List.length toks + 2.

Definition lex_all (ctx : lex_t) : outcome (option (list token_t)) :=
  fst (lex_line (line_fuel ctx) [] ctx).

Definition parse_tokens (toks : list token_t) : outcome node_t * rdp_t :=
  rdp_generate_ast (parse_fuel toks) (rdp_init toks (List.length toks)).

(** One round of the loop of [main]: the root of the tree, or [None] when
    the lexer returned a null token. *)
Definition interpret (ctx : lex_t) : outcome (option node_t) :=
  match lex_all ctx with
  | Done (Some toks) =>
      match fst (parse_tokens toks) with
      | Done root => Done (Some root)
      | Failed e => Failed e
      | Fault f => Fault f
      | OutOfFuel => OutOfFuel
      end
  | Done None => Done None
  | Failed e => Failed e
  | Fault f => Fault f
  | OutOfFuel => OutOfFuel
  end.

(** A file holding the text, and a string in an array in which the
    terminator is followed by [pad] further zero bytes. *)
Definition file_of (text : string) : lex_t :=
  lex_init_file (list_ascii_of_string text).

Definition string_in_buffer (text : string) (pad : nat) : lex_t :=
  lex_init_string (list_ascii_of_string text ++ repeat zero (S pad)).

(** The trees of the specification, [Leaf(v)] and [Binary(op, l, r)],
    written with the constructors of [node_t] and not with the functions of
    parser.c that build nodes: a leaf is a terminal node of kind
    [TOK_NUMBER], a binary node is not terminal and holds its left operand
    first. *)
Definition Leaf (v : Z) : node_t := node_value TOK_NUMBER true v.
Definition Binary (op : token_type) (l r : node_t) : node_t :=
  node_binary op false l r.

(** ** The left fold of the specification

    "Parse one higher-precedence subexpression, then while the next
    significant token's kind matches this level's operator set, consume it
    and fold [left = Binary(op, left, parse_higher())]."  This definition
    follows these words; the five levels of parser.c are compared with it
    below. *)
Section LeftFold.

Variable fuel : nat.
Variable operators : list token_type.
Variable parse_higher : M rdp_t node_t.

Definition is_operator (t : token_type) : bool :=
  existsb (token_type_eqb t) operators.

Fixpoint fold_level_loop (n : nat) (left : node_t) : M rdp_t node_t :=
  match n with
  | O => out_of_fuel
  | S n' =>
      rdp_consume_blanks fuel ;;;
      op <- rdp_peek ;;
      if is_operator (type op)
      then
        rdp_consume ;;;
        right <- parse_higher ;;
        fold_level_loop n' (Binary (type op) left right)
      else ret left
  end.

Definition fold_level : M rdp_t node_t :=
  left <- parse_higher ;;
  fold_level_loop fuel left.

End LeftFold.

Definition mult_operators : list token_type :=
  [TOK_MULTIPLY; TOK_DIV; TOK_MOD].
Definition additive_operators : list token_type := [TOK_PLUS; TOK_MINUS].
Definition and_operators : list token_type := [TOK_BWAND].
Definition xor_operators : list token_type := [TOK_BWXOR].
Definition ior_operators : list token_type := [TOK_BWOR].

(** ** The vocabulary of the statements

    Predicates on contexts, on token sequences and on texts, and the
    derived functions the properties below are stated with. *)

Definition remaining (ctx : rdp_t) : nat :=
  List.length (tokens ctx) - position ctx.

(** A token sequence is well formed when its final element, and only that
    element, has kind end of input. *)
Definition well_formed_sequence (toks : list token_t) : bool :=
  match rev toks with
  | eof :: body =>
      token_type_eqb (type eof) TOK_EOF
      && forallb (fun t => negb (token_type_eqb (type t) TOK_EOF)) body
  | [] => false
  end.

Definition terminated (toks : list token_t) : Prop :=
  exists body eof, toks = body ++ [eof] /\ type eof = TOK_EOF.

Definition in_bounds (ctx : rdp_t) : Prop :=
  terminated (tokens ctx) /\ position ctx < List.length (tokens ctx).

Definition binary_operators : list token_type :=
  [TOK_BWOR; TOK_BWXOR; TOK_BWAND; TOK_PLUS; TOK_MINUS;
   TOK_MULTIPLY; TOK_DIV; TOK_MOD].

(** The shape of the trees the grammar builds: a terminal carrying a number,
    or a binary node over one of the eight operators. *)
Fixpoint ast_shape (n : node_t) : bool :=
  match n with
  | node_value id is_term _ => token_type_eqb id TOK_NUMBER && is_term
  | node_binary id is_term l r =>
      existsb (token_type_eqb id) binary_operators && negb is_term
      && ast_shape l && ast_shape r
  | node_unary _ _ _ => false
  end.

(** The cursor rests on a token that is neither a blank nor in [ops]. *)
Definition stops_at (ops : list token_type) (ctx : rdp_t) : Prop :=
  exists t, nth_error (tokens ctx) (position ctx) = Some t /\
            type t <> TOK_SPACE /\ is_operator ops (type t) = false.

(** A failed check: the token just consumed is of a kind other than the one
    the grammar requires there (a number, or a closing parenthesis). *)
Definition failure_at (c : rdp_t) (e : parse_error) : Prop :=
  exists p t expected msg,
    e = UnexpectedToken expected (type t) msg /\
    position c = S p /\
    nth_error (tokens c) p = Some t /\
    type t <> expected /\
    (expected = TOK_NUMBER \/ expected = TOK_RPAREN).

(** What one call does to the context [ctx] when it returns [r]:
    the array is untouched, the cursor only advances and does not pass the
    end, [b] units of fuel are enough when at most [b - 1] tokens remain,
    no read is out of bounds when the array ends in an end of input token,
    a returned value satisfies [W], and a failure is a failed check on the
    token before the cursor. *)
Record post {A : Type} (b : nat) (W : A -> rdp_t -> Prop)
  (ctx : rdp_t) (r : outcome A * rdp_t) : Prop := mk_post {
  post_tokens : tokens (snd r) = tokens ctx;
  post_length : length (snd r) = length ctx;
  post_mono : position ctx <= position (snd r);
  post_end : position ctx <= List.length (tokens ctx) ->
             position (snd r) <= List.length (tokens ctx);
  post_fuel : remaining ctx + 1 <= b -> fst r <> OutOfFuel;
  post_safe : in_bounds ctx -> fst r <> Fault OutOfBounds;
  post_in : in_bounds ctx -> forall a, fst r = Done a -> in_bounds (snd r);
  post_value : forall a, fst r = Done a -> W a (snd r);
  post_failed : forall e, fst r = Failed e -> failure_at (snd r) e
}.

Definition consumed (ctx : rdp_t) : rdp_t :=
  mk_rdp (tokens ctx) (S (position ctx)) (length ctx).

(** Where [rdp_consume_blanks] stops: on a token that is not a blank; and
    it has moved only if it started on a blank. *)
Definition after_blanks (ctx : rdp_t) (c : rdp_t) : Prop :=
  (exists t, nth_error (tokens c) (position c) = Some t /\
             type t <> TOK_SPACE) /\
  (c = ctx \/
   exists t, nth_error (tokens ctx) (position ctx) = Some t /\
             type t = TOK_SPACE).

Definition shaped (n : node_t) (c : rdp_t) : Prop := ast_shape n = true.

Definition blank_stable (Q : rdp_t -> Prop) : Prop :=
  forall c c', Q c -> after_blanks c c' -> Q c'.

(** The cursor rests on a token that ends an expression: it is not a blank
    and none of the eight operators. *)
Definition expression_end (c : rdp_t) : Prop := stops_at binary_operators c.

Definition parsed (n : node_t) (c : rdp_t) : Prop :=
  ast_shape n = true /\ expression_end c.

Definition stop0 (c : rdp_t) : Prop := True.

Definition stop1 (c : rdp_t) : Prop := stop0 c /\ stops_at mult_operators c.

Definition stop2 (c : rdp_t) : Prop :=
  stop1 c /\ stops_at additive_operators c.

Definition stop3 (c : rdp_t) : Prop := stop2 c /\ stops_at and_operators c.

Definition stop4 (c : rdp_t) : Prop := stop3 c /\ stops_at xor_operators c.

Definition stop5 (c : rdp_t) : Prop := stop4 c /\ stops_at ior_operators c.

Definition refines {A : Type} (f g : M rdp_t A) : Prop :=
  forall ctx, fst (f ctx) <> OutOfFuel -> g ctx = f ctx.

(** What a loop of the grammar can tell about the token it looks at without
    consuming it: whether it is a blank, and which of the eight operators
    it is, if any. *)
Definition peek_kind (t : token_type) : token_type :=
  if token_type_eqb t TOK_SPACE || is_operator binary_operators t
  then t else TOK_EOF.

Definition advanced (c : rdp_t) (k : nat) : rdp_t :=
  mk_rdp (tokens c) (position c + k) (length c).

(** The [k] tokens from the cursor on are the same in both contexts, and
    the tokens after them are of the same [peek_kind]. *)
Definition window (c1 c2 : rdp_t) (k : nat) : Prop :=
  (forall j, j < k ->
     exists t, nth_error (tokens c1) (position c1 + j) = Some t /\
               nth_error (tokens c2) (position c2 + j) = Some t) /\
  (exists t1 t2,
     nth_error (tokens c1) (position c1 + k) = Some t1 /\
     nth_error (tokens c2) (position c2 + k) = Some t2 /\
     peek_kind (type t1) = peek_kind (type t2)).

Definition local {A : Type} (f : M rdp_t A) : Prop :=
  forall c1 a c1',
    f c1 = (Done a, c1') ->
    tokens c1' = tokens c1 /\
    position c1 <= position c1' /\
    forall c2, window c1 c2 (position c1' - position c1) ->
               f c2 = (Done a, advanced c2 (position c1' - position c1)).

(** The [switch] of [lex_token], after the blanks have been looked at. *)
Definition lex_dispatch (fuel : nat) (c : Z) : M lex_t (option token_t) :=
  if (c =? ch "+")%Z then ret (Some (lex_mkkw TOK_PLUS))
  else if (c =? ch "-")%Z then ret (Some (lex_mkkw TOK_MINUS))
  else if (c =? ch "/")%Z then ret (Some (lex_mkkw TOK_DIV))
  else if (c =? ch "*")%Z then ret (Some (lex_mkkw TOK_MULTIPLY))
  else if (c =? ch "%")%Z then ret (Some (lex_mkkw TOK_MOD))
  else if (c =? ch "?")%Z then ret (Some (lex_mkkw TOK_QMARK))
  else if (c =? ch ":")%Z then ret (Some (lex_mkkw TOK_COLON))
  else if (c =? ch "!")%Z then lex_chnot
  else if (c =? ch "=")%Z then lex_cheq
  else if (c =? ch "&")%Z then lex_chand
  else if (c =? ch "|")%Z then lex_chor
  else if (c =? ch "<")%Z then lex_chlbr
  else if (c =? ch ">")%Z then lex_chrbr
  else if (c =? ch "^")%Z then ret (Some (lex_mkkw TOK_BWXOR))
  else if (c =? ch "~")%Z then ret (Some (lex_mkkw TOK_BWNEG))
  else if (c =? ch "(")%Z then ret (Some (lex_mkkw TOK_LPAREN))
  else if (c =? ch ")")%Z then ret (Some (lex_mkkw TOK_RPAREN))
  else if (c =? ch ";")%Z then ret (Some (lex_mkkw TOK_SEMICOLON))
  else if in_range (ch "0") (ch "9") c then lex_chnumber fuel c
  else if in_range (ch "a") (ch "z") c
          || in_range (ch "A") (ch "Z") c
          || (c =? ch "_")%Z then lex_chident fuel c
  else if (c =? EOF)%Z then ret (Some (lex_mkspecial TOK_EOF))
  else ret (Some (lex_mkspecial TOK_EOF)).

Definition lex_switch (fuel : nat) : M lex_t (option token_t) :=
  c <- lex_getc ;; lex_dispatch fuel c.

(** A call on the file [fd] returns a value that satisfies [P], and what
    remains is [fd] without its first bytes, at least [k] of them. *)
Definition file_step {A : Type} (P : A -> Prop) (fd : list ascii) (k : nat)
  (r : outcome A * lex_t) : Prop :=
  exists a fd',
    r = (Done a, FILE_BACKED fd') /\
    (exists pre, fd = pre ++ fd' /\ k <= List.length pre) /\
    P a.

Definition anything {A : Type} (a : A) : Prop := True.

Definition is_token (tok : option token_t) : Prop := tok <> None.

(** The null token comes from [lex_chnot] only. *)
Definition null_after (fd : list ascii) (tok : option token_t) : Prop :=
  tok = None -> exists fd', fd = "!"%char :: fd'.

Definition null_in (fd : list ascii) (tok : option token_t) : Prop :=
  tok = None -> In "!"%char fd.

Definition not_eof (t : token_t) : Prop := type t <> TOK_EOF.

(** What the loop of the driver returns: the tokens collected so far,
    followed by further tokens and then by the end of input token; or
    nothing, after an exclamation mark. *)
Definition line_result (bytes : list ascii) (acc : list token_t)
  (r : option (list token_t)) : Prop :=
  match r with
  | None => In "!"%char bytes
  | Some toks =>
      exists body eof,
        toks = acc ++ body ++ [eof] /\ type eof = TOK_EOF /\
        Forall not_eof body /\ List.length body <= List.length bytes
  end.

Definition operator_prefixes : list ascii :=
  ["!"; "="; "&"; "|"; "<"; ">"]%char.

(** The known combinations of two characters. *)
Definition two_char_operator (p c : Z) : option token_type :=
  if (p =? ch "!")%Z && (c =? ch "=")%Z then Some TOK_NEQUALITY
  else if (p =? ch "=")%Z && (c =? ch "=")%Z then Some TOK_EQUALITY
  else if (p =? ch "&")%Z && (c =? ch "&")%Z then Some TOK_LAND
  else if (p =? ch "|")%Z && (c =? ch "|")%Z then Some TOK_LOR
  else if (p =? ch "<")%Z && (c =? ch "<")%Z then Some TOK_LSHIFT
  else if (p =? ch "<")%Z && (c =? ch "=")%Z then Some TOK_LTE
  else if (p =? ch ">")%Z && (c =? ch ">")%Z then Some TOK_RSHIFT
  else if (p =? ch ">")%Z && (c =? ch "=")%Z then Some TOK_GTE
  else None.

(** The token of a prefix that stands alone; there is none for [!]. *)
Definition one_char_operator (p : Z) : option token_type :=
  if (p =? ch "=")%Z then Some TOK_BWOR
  else if (p =? ch "&")%Z then Some TOK_BWAND
  else if (p =? ch "|")%Z then Some TOK_BWOR
  else if (p =? ch "<")%Z then Some TOK_LT
  else if (p =? ch ">")%Z then Some TOK_GT
  else None.

(** The value [lex_getc] returns for the byte [a] of a string. *)
Definition string_char (a : ascii) : Z :=
  if (to_char (ch a) =? 0)%Z then EOF else to_char (ch a).

(** The characters for which [lex_token] has a case of its own. *)
Definition lexer_alphabet (a : ascii) : bool :=
  let c := ch a in
  isspace c
  || (c =? ch "+")%Z || (c =? ch "-")%Z || (c =? ch "/")%Z
  || (c =? ch "*")%Z || (c =? ch "%")%Z || (c =? ch "?")%Z
  || (c =? ch ":")%Z || (c =? ch "!")%Z || (c =? ch "=")%Z
  || (c =? ch "&")%Z || (c =? ch "|")%Z || (c =? ch "<")%Z
  || (c =? ch ">")%Z || (c =? ch "^")%Z || (c =? ch "~")%Z
  || (c =? ch "(")%Z || (c =? ch ")")%Z || (c =? ch ";")%Z
  || in_range (ch "0") (ch "9") c
  || in_range (ch "a") (ch "z") c || in_range (ch "A") (ch "Z") c
  || (c =? ch "_")%Z.

Definition in_alphabet (s : list ascii) : Prop :=
  Forall (fun a => lexer_alphabet a = true) s.

(** What follows the text between the parentheses: a closing one. *)
Definition closing (t' : list ascii) : list ascii := ")"%char :: t'.

(** The string backing with its cursor behind the bytes [pre], before the
    rest [fd] of the text and [k] zero bytes. *)
Definition in_buffer (pre fd : list ascii) (k : nat) : lex_t :=
  STRING_BACKED (pre ++ fd ++ repeat zero k) (Z.of_nat (List.length pre)).

(** Of the [k] zero bytes a call leaves [k'] unread: all of them, or all
    but one when the call has read the end of the text. *)
Definition spent (k k' : nat) (r : list ascii) : Prop :=
  k' = k \/ (r = [] /\ S k' = k).

(** A valid expression text: it is written in the characters the lexer
    knows, the lexer turns it into tokens, and the expression rule accepts
    these tokens and consumes all of them, up to the end of input token. *)
Definition valid_expression (E : string) (root : node_t) : Prop :=
  in_alphabet (list_ascii_of_string E) /\
  exists toks ctx',
    lex_all (file_of E) = Done (Some toks) /\
    parse_tokens toks = (Done root, ctx') /\
    S (position ctx') = List.length toks.

(** The tokens from the cursor on. *)
Definition view (c : rdp_t) : list token_t := skipn (position c) (tokens c).

(** The token of a number with the digits [s], field by field. *)
Definition number_token (s : string) : token_t :=
  mk_token TOK_NUMBER true (Some s).

(** The rule [higher] turns a number that is followed by a token which is
    neither a blank nor an operator of [above] into a leaf. *)
Definition parses_numbers (above : list token_type)
  (higher : M rdp_t node_t) : Prop :=
  forall c s t l,
    view c = number_token s :: t :: l ->
    type t <> TOK_SPACE -> is_operator above (type t) = false ->
    higher c = (Done (Leaf (strtol s)), consumed c).

(** A chain: a number, then pairs of an operator and a number, then the
    end of input; and the tree that groups it to the left: the tree built
    so far is the left operand of the next operator.  Tokens and nodes are
    written field by field. *)
Definition chain_rest (rest : list (token_type * string)) : list token_t :=
  flat_map (fun p => [mk_token (fst p) false None;
                      mk_token TOK_NUMBER true (Some (snd p))]) rest
  ++ [mk_token TOK_EOF false None].

Definition chain_tokens (s0 : string) (rest : list (token_type * string))
  : list token_t := mk_token TOK_NUMBER true (Some s0) :: chain_rest rest.

Definition chain_fold (left : node_t) (rest : list (token_type * string))
  : node_t :=
  fold_left
    (fun l p =>
       node_binary (fst p) false l
         (node_value TOK_NUMBER true (strtol (snd p))))
    rest left.

Definition chain_tree (s0 : string) (rest : list (token_type * string))
  : node_t := chain_fold (node_value TOK_NUMBER true (strtol s0)) rest.

Definition chain_of (ops : list token_type)
  (rest : list (token_type * string)) : Prop :=
  Forall (fun p => In (fst p) ops) rest.

Definition levels : list (list token_type) :=
  [mult_operators; additive_operators; and_operators; xor_operators;
   ior_operators].

(** The numbers and the operators of a tree, from left to right, and of a
    token sequence; blanks and parentheses count for nothing. *)
Inductive symbol : Type :=
| sym_number (value : Z)
| sym_operator (op : token_type).

Fixpoint inorder (n : node_t) : list symbol :=
  match n with
  | node_value _ _ value => [sym_number value]
  | node_binary id _ l r => inorder l ++ sym_operator id :: inorder r
  | node_unary id _ operand => sym_operator id :: inorder operand
  end.

Definition significant (t : token_t) : list symbol :=
  match type t with
  | TOK_SPACE | TOK_LPAREN | TOK_RPAREN => []
  | TOK_NUMBER =>
      match literal t with
      | Some s => [sym_number (strtol s)]
      | None => []
      end
  | op => [sym_operator op]
  end.

Definition symbols (toks : list token_t) : list symbol :=
  flat_map significant toks.

(** A run of [f] that returns the tree [a] has passed over tokens whose
    symbols are those of [a]. *)
Definition yields (f : M rdp_t node_t) : Prop :=
  forall c a c',
    f c = (Done a, c') ->
    exists used, view c = used ++ view c' /\ symbols used = inorder a.

(** A token sequence without its blanks. *)
Definition without_blanks (toks : list token_t) : list token_t :=
  filter (fun t => negb (token_type_eqb (type t) TOK_SPACE)) toks.

(** The second context shows the tokens of the first one, the blanks left
    out. *)
Definition unblanked (c1 c2 : rdp_t) : Prop :=
  view c2 = without_blanks (view c1).

Definition is_done {A : Type} (o : outcome A) : Prop :=
  match o with
  | Done _ => True
  | _ => False
  end.

(** [f] does not see the blanks: a run that stays inside the array and has
    the fuel it needs ends in the same way on the sequence without blanks. *)
Definition blind {A : Type} (f : M rdp_t A) : Prop :=
  forall c1 c2 o c1',
    unblanked c1 c2 -> f c1 = (o, c1') ->
    o <> OutOfFuel -> o <> Fault OutOfBounds ->
    exists c2', f c2 = (o, c2') /\ (is_done o -> unblanked c1' c2').

(** What ends a run of characters that satisfy [p]: the end of the file, or
    a character that does not satisfy [p] and that [lex_ungetc] can push
    back. *)
Definition stops (p : Z -> bool) (rest : list ascii) : Prop :=
  match rest with
  | [] => True
  | c :: _ => p (ch c) = false /\ ch c <> 255%Z
  end.

(** The characters an identifier begins with. *)
Definition ident_start (c : Z) : bool := isalpha c || (c =? ch "_")%Z.

(** A nonempty string of decimal digits. *)
Definition digits (s : string) : Prop :=
  s <> EmptyString /\
  Forall (fun a => isdigit (ch a) = true) (list_ascii_of_string s).

(** A number token carries its digits. *)
Definition token_ok (t : token_t) : Prop :=
  type t = TOK_NUMBER -> exists s, literal t = Some s /\ digits s.

(** The values of the leaves are values [strtol] returns for digits. *)
Fixpoint bounded (n : node_t) : Prop :=
  match n with
  | node_value _ _ value => (0 <= value <= LONG_MAX)%Z
  | node_binary _ _ l r => bounded l /\ bounded r
  | node_unary _ _ operand => bounded operand
  end.

(** On tokens that carry their digits [f] reads no field that was never
    assigned, and what it returns satisfies [W]. *)
Definition initialised {A : Type} (W : A -> Prop) (f : M rdp_t A) : Prop :=
  forall c,
    Forall token_ok (tokens c) ->
    fst (f c) <> Fault Uninitialised /\
    Forall token_ok (tokens (snd (f c))) /\
    (forall a, fst (f c) = Done a -> W a).

(** The loop of [main] in main.c,
    [while ((tok = lex_token(lctx)) != NULL) vec_token_push(tokens, tok);]
    [calls] bounds the number of rounds of this loop, [fuel] the loops
    inside each call of [lex_token]. *)
Fixpoint main_tokens (calls fuel : nat) (tokens : list token_t)
  : M lex_t (list token_t) :=
  match calls with
  | O => out_of_fuel
  | S calls' =>
      tok <- lex_token fuel ;;
      match tok with
      | None => ret tokens
      | Some t => main_tokens calls' fuel (vec_token_push tokens t)
      end
  end.

(** A character [lex_token] has no case for, and that [lex_ungetc] can push
    back. *)
Definition foreign (c : ascii) : Prop :=
  lexer_alphabet c = false /\ ch c <> 255%Z.

(** The string backing with its cursor behind the bytes [pre], before the
    rest [fd] of the text; [tail] is what the array holds behind the text,
    from the terminator on. *)
Definition in_tail (pre fd tail : list ascii) : lex_t :=
  STRING_BACKED (pre ++ fd ++ tail) (Z.of_nat (List.length pre)).

(** A text that ends in a blank, as a line read by [fgets] ends in its
    newline. *)
Fixpoint blank_ended (s : list ascii) : Prop :=
  match s with
  | [] => False
  | [sp] => isspace (ch sp) = true
  | _ :: s' => blank_ended s'
  end.

(** The decimal digits of a value, and the tokens of a tree written with
    parentheses around every operand. *)
Definition decimal (value : Z) : string :=
  NilEmpty.string_of_uint (N.to_uint (Z.to_N value)).

Fixpoint unparse (n : node_t) : list token_t :=
  match n with
  | node_value _ _ value => [number_token (decimal value)]
  | node_binary id _ l r =>
      lex_mkkw TOK_LPAREN :: unparse l ++
      lex_mkkw TOK_RPAREN :: lex_mkkw id :: lex_mkkw TOK_LPAREN ::
      unparse r ++ [lex_mkkw TOK_RPAREN]
  | node_unary id _ operand => lex_mkkw id :: unparse operand
  end.

Fixpoint height (n : node_t) : nat :=
  match n with
  | node_value _ _ _ => 0
  | node_binary _ _ l r => S (Nat.max (height l) (height r))
  | node_unary _ _ operand => S (height operand)
  end.

(** The rules of the grammar by their level: [rdp_primary_exp] is level
    [0], [rdp_ior_exp] level [5]. *)
Definition level_rule (fuel : nat) (e : M rdp_t node_t) (k : nat)
  : M rdp_t node_t :=
  match k with
  | 0 => rdp_primary_exp fuel e
  | 1 => rdp_mult_exp fuel e
  | 2 => rdp_additive_exp fuel e
  | 3 => rdp_and_exp fuel e
  | 4 => rdp_xor_exp fuel e
  | _ => rdp_ior_exp fuel e
  end.

(** The character of each of the eight operators, and the text of a tree:
    its tokens written out, with parentheses around every operand. *)
Definition operator_char (op : token_type) : ascii :=
  match op with
  | TOK_MULTIPLY => "*"
  | TOK_DIV => "/"
  | TOK_MOD => "%"
  | TOK_PLUS => "+"
  | TOK_MINUS => "-"
  | TOK_BWAND => "&"
  | TOK_BWXOR => "^"
  | _ => "|"
  end%char.

Fixpoint text_of (n : node_t) : list ascii :=
  match n with
  | node_value _ _ value => list_ascii_of_string (decimal value)
  | node_binary id _ l r =>
      "("%char :: text_of l ++
      ")"%char :: operator_char id :: "("%char :: text_of r ++ [")"%char]
  | node_unary id _ operand => operator_char id :: text_of operand
  end.

(** What a stream holds after its first character has been read and then
    handed to [lex_ungetc]: the character is in front again, except the
    byte 255, which the stream does not take back. *)
Definition pushed_back (fd : list ascii) : list ascii :=
  match fd with
  | c :: fd' => if (ch c =? 255)%Z then fd' else fd
  | [] => []
  end.







(** What ends a run of characters that satisfy [p]: the end of the file, or
    a character that does not satisfy [p]. *)
Definition ends (p : Z -> bool) (rest : list ascii) : Prop :=
  match rest with
  | [] => True
  | c :: _ => p (ch c) = false
  end.

(** * Properties *)

Lemma token_type_eqb_eq (a b : token_type) :
  token_type_eqb a b = true <-> a = b.
Proof.
  unfold token_type_eqb; destruct (token_type_eq_dec a b); split;
    congruence.
Qed.

(** ** The levels of parser.c are left folds *)

Ltac loop_is_fold :=
  let n := fresh "n" in
  let IH := fresh "IH" in
  intros n; induction n as [|n IH]; intros left ctx; simpl;
  [ reflexivity
  | unfold bind; destruct (rdp_consume_blanks _ ctx) as [[[]| | |] ctx1];
    try reflexivity;
    destruct (rdp_peek ctx1) as [[op| | |] ctx2]; try reflexivity;
    destruct (type op); simpl; try reflexivity;
    match goal with
    | |- (let (_, _) := ?x in _) = _ =>
        destruct x as [[right| | |] ctx3]; try reflexivity
    end;
    apply IH ].

Lemma rdp_mult_exp_loop_fold (fuel : nat) (e : M rdp_t node_t) :
  forall n left ctx,
    rdp_mult_exp_loop fuel e n left ctx =
    fold_level_loop fuel mult_operators (rdp_unary_exp fuel e) n left ctx.
Proof. loop_is_fold. Qed.

Lemma rdp_additive_exp_loop_fold (fuel : nat) (e : M rdp_t node_t) :
  forall n left ctx,
    rdp_additive_exp_loop fuel e n left ctx =
    fold_level_loop fuel additive_operators (rdp_mult_exp fuel e) n left ctx.
Proof. loop_is_fold. Qed.

Lemma rdp_and_exp_loop_fold (fuel : nat) (e : M rdp_t node_t) :
  forall n left ctx,
    rdp_and_exp_loop fuel e n left ctx =
    fold_level_loop fuel and_operators (rdp_additive_exp fuel e) n left ctx.
Proof. loop_is_fold. Qed.

Lemma rdp_xor_exp_loop_fold (fuel : nat) (e : M rdp_t node_t) :
  forall n left ctx,
    rdp_xor_exp_loop fuel e n left ctx =
    fold_level_loop fuel xor_operators (rdp_and_exp fuel e) n left ctx.
Proof. loop_is_fold. Qed.

Lemma rdp_ior_exp_loop_fold (fuel : nat) (e : M rdp_t node_t) :
  forall n left ctx,
    rdp_ior_exp_loop fuel e n left ctx =
    fold_level_loop fuel ior_operators (rdp_xor_exp fuel e) n left ctx.
Proof. loop_is_fold. Qed.

Ltac level_is_fold loop_lemma :=
  intros ctx; unfold fold_level, bind;
  match goal with
  | |- ?f _ _ ctx = _ => unfold f, bind
  end;
  match goal with
  | |- (let (_, _) := ?x in _) = _ =>
      destruct x as [[left| | |] ctx1]; try reflexivity
  end;
  apply loop_lemma.

Lemma rdp_mult_exp_fold (fuel : nat) (e : M rdp_t node_t) :
  forall ctx,
    rdp_mult_exp fuel e ctx =
    fold_level fuel mult_operators (rdp_unary_exp fuel e) ctx.
Proof. level_is_fold rdp_mult_exp_loop_fold. Qed.

Lemma rdp_additive_exp_fold (fuel : nat) (e : M rdp_t node_t) :
  forall ctx,
    rdp_additive_exp fuel e ctx =
    fold_level fuel additive_operators (rdp_mult_exp fuel e) ctx.
Proof. level_is_fold rdp_additive_exp_loop_fold. Qed.

Lemma rdp_and_exp_fold (fuel : nat) (e : M rdp_t node_t) :
  forall ctx,
    rdp_and_exp fuel e ctx =
    fold_level fuel and_operators (rdp_additive_exp fuel e) ctx.
Proof. level_is_fold rdp_and_exp_loop_fold. Qed.

Lemma rdp_xor_exp_fold (fuel : nat) (e : M rdp_t node_t) :
  forall ctx,
    rdp_xor_exp fuel e ctx =
    fold_level fuel xor_operators (rdp_and_exp fuel e) ctx.
Proof. level_is_fold rdp_xor_exp_loop_fold. Qed.

Lemma rdp_ior_exp_fold (fuel : nat) (e : M rdp_t node_t) :
  forall ctx,
    rdp_ior_exp fuel e ctx =
    fold_level fuel ior_operators (rdp_xor_exp fuel e) ctx.
Proof. level_is_fold rdp_ior_exp_loop_fold. Qed.

(** ** Invariants of a run of the parser *)

Lemma in_bounds_same (ctx ctx' : rdp_t) :
  tokens ctx' = tokens ctx -> position ctx' = position ctx ->
  in_bounds ctx -> in_bounds ctx'.
Proof. unfold in_bounds; intros -> ->; auto. Qed.

Lemma post_stop (A : Type) (b : nat) (W : A -> rdp_t -> Prop)
  (ctx : rdp_t) (o : outcome A) :
  (forall a, o <> Done a) ->
  (remaining ctx + 1 <= b -> o <> OutOfFuel) ->
  (in_bounds ctx -> o <> Fault OutOfBounds) ->
  (forall e, o = Failed e -> failure_at ctx e) ->
  post b W ctx (o, ctx).
Proof.
  intros Hd Hf Hs Hx; constructor; simpl; auto.
  intros a E; destruct (Hd a E).
Qed.

Lemma post_ret (A : Type) (b : nat) (W : A -> rdp_t -> Prop)
  (ctx : rdp_t) (a : A) :
  W a ctx -> post b W ctx (ret a ctx).
Proof.
  intros Hw; constructor; simpl; auto; intros; congruence.
Qed.

Lemma post_bind_shift (A B : Type) (b : nat)
  (WA : A -> rdp_t -> Prop) (WB : B -> rdp_t -> Prop)
  (m : M rdp_t A) (k : A -> M rdp_t B) (ctx : rdp_t) :
  post b WA ctx (m ctx) ->
  (forall a ctx1, m ctx = (Done a, ctx1) -> WA a ctx1 ->
     tokens ctx1 = tokens ctx -> position ctx <= position ctx1 ->
     exists b1, (remaining ctx + 1 <= b -> remaining ctx1 + 1 <= b1) /\
                post b1 WB ctx1 (k a ctx1)) ->
  post b WB ctx (bind m k ctx).
Proof.
  intros Hm Hk. unfold bind.
  destruct (m ctx) as [o ctx1] eqn:E.
  destruct Hm as [Ht Hl Hp He Hf Hs Hi Hw Hx]; simpl in *.
  destruct o as [a| | |].
  - destruct (Hk a ctx1 eq_refl (Hw a eq_refl) Ht Hp) as (b1 & Hb & Hq).
    destruct Hq as [Ht' Hl' Hp' He' Hf' Hs' Hi' Hw' Hx'].
    constructor; try congruence; try lia.
    + intros H. rewrite Ht in He'. apply He'. apply He. exact H.
    + intros H. apply Hf'. apply Hb. exact H.
    + intros H. apply Hs'. apply (Hi H a eq_refl).
    + intros H. apply Hi'. apply (Hi H a eq_refl).
    + exact Hw'.
    + exact Hx'.
  - constructor; simpl; try assumption; intros; try apply Hx; congruence.
  - constructor; simpl; try assumption; intros;
      try specialize (Hs ltac:(assumption)); congruence.
  - constructor; simpl; try assumption; intros;
      try specialize (Hf ltac:(assumption)); congruence.
Qed.

Lemma post_bind (A B : Type) (b : nat)
  (WA : A -> rdp_t -> Prop) (WB : B -> rdp_t -> Prop)
  (m : M rdp_t A) (k : A -> M rdp_t B) (ctx : rdp_t) :
  post b WA ctx (m ctx) ->
  (forall a ctx1, m ctx = (Done a, ctx1) -> WA a ctx1 ->
     tokens ctx1 = tokens ctx -> position ctx <= position ctx1 ->
     post b WB ctx1 (k a ctx1)) ->
  post b WB ctx (bind m k ctx).
Proof.
  intros Hm Hk. apply post_bind_shift with (WA := WA); [exact Hm|].
  intros a ctx1 E Ha Ht Hp. exists b. split.
  - unfold remaining. rewrite Ht. lia.
  - apply Hk; auto.
Qed.

Lemma post_weaken (A : Type) (b : nat) (W W' : A -> rdp_t -> Prop)
  (ctx : rdp_t) (r : outcome A * rdp_t) :
  post b W ctx r ->
  (forall a, fst r = Done a -> W a (snd r) -> W' a (snd r)) ->
  post b W' ctx r.
Proof.
  intros [Ht Hl Hp He Hf Hs Hi Hw Hx] HW; constructor; auto.
Qed.

Arguments consumed : simpl never.

Lemma consumed_position (ctx : rdp_t) :
  position (consumed ctx) = S (position ctx).
Proof. reflexivity. Qed.

Lemma consumed_tokens (ctx : rdp_t) : tokens (consumed ctx) = tokens ctx.
Proof. reflexivity. Qed.

Lemma consumed_length (ctx : rdp_t) : length (consumed ctx) = length ctx.
Proof. reflexivity. Qed.

Lemma consumed_remaining (ctx : rdp_t) :
  position ctx < List.length (tokens ctx) ->
  remaining (consumed ctx) + 1 = remaining ctx.
Proof. unfold remaining; rewrite consumed_position, consumed_tokens; lia. Qed.

Lemma post_le (A : Type) (b b' : nat) (W : A -> rdp_t -> Prop)
  (ctx : rdp_t) (r : outcome A * rdp_t) :
  b' <= b -> post b W ctx r -> post b' W ctx r.
Proof.
  intros Hb [Ht Hl Hp He Hf Hs Hi Hw Hx]; constructor; auto.
  intros H; apply Hf; lia.
Qed.

Lemma nth_error_in_bounds (ctx : rdp_t) :
  in_bounds ctx ->
  exists t, nth_error (tokens ctx) (position ctx) = Some t.
Proof.
  intros [_ H]. destruct (nth_error (tokens ctx) (position ctx)) eqn:E.
  - eauto.
  - apply nth_error_None in E. lia.
Qed.

Lemma in_bounds_consumed (ctx : rdp_t) (t : token_t) :
  in_bounds ctx ->
  nth_error (tokens ctx) (position ctx) = Some t ->
  type t <> TOK_EOF ->
  in_bounds (consumed ctx).
Proof.
  intros [(body & eof & Hb & He) Hlt] Hn Ht.
  split; rewrite ?consumed_position, ?consumed_tokens;
    [exists body, eof; auto|].
  rewrite Hb in *. rewrite length_app in *; simpl in *.
  assert (position ctx <> List.length body).
  { intros Hp. rewrite Hp, nth_error_app2, Nat.sub_diag in Hn by lia.
    simpl in Hn. congruence. }
  lia.
Qed.

Lemma rdp_peek_post (b : nat) (ctx : rdp_t) :
  post b (fun t c => c = ctx /\
                     nth_error (tokens ctx) (position ctx) = Some t)
    ctx (rdp_peek ctx).
Proof.
  unfold rdp_peek.
  destruct (nth_error (tokens ctx) (position ctx)) as [t|] eqn:E.
  - apply post_ret; auto.
  - apply post_stop; try congruence.
    intros H. destruct (nth_error_in_bounds ctx H) as (t & Ht). congruence.
Qed.

Lemma post_consume_bind (B : Type) (b : nat) (WB : B -> rdp_t -> Prop)
  (k : unit -> M rdp_t B) (ctx : rdp_t) (t : token_t) :
  nth_error (tokens ctx) (position ctx) = Some t ->
  type t <> TOK_EOF ->
  post (b - 1) WB (consumed ctx) (k tt (consumed ctx)) ->
  post b WB ctx (bind rdp_consume k ctx).
Proof.
  intros Hn Ht [Ht' Hl' Hp' He' Hf' Hs' Hi' Hw' Hx'].
  assert (Hlt : position ctx < List.length (tokens ctx)).
  { apply nth_error_Some. congruence. }
  unfold bind, rdp_consume. fold (consumed ctx).
  pose proof (consumed_remaining ctx Hlt) as Hr.
  rewrite ?consumed_position, ?consumed_tokens, ?consumed_length in *.
  change (post b WB ctx (k tt (consumed ctx))).
  constructor.
  - exact Ht'.
  - exact Hl'.
  - lia.
  - intros; apply He'; lia.
  - intros H. apply Hf'. lia.
  - intros H. apply Hs'. eapply in_bounds_consumed; eauto.
  - intros H a Ha.
    eapply Hi'; [eapply in_bounds_consumed; eauto | exact Ha].
  - exact Hw'.
  - exact Hx'.
Qed.

Lemma post_pop_bind (B : Type) (b : nat) (WB : B -> rdp_t -> Prop)
  (k : token_t -> M rdp_t B) (ctx : rdp_t) :
  (forall t, nth_error (tokens ctx) (position ctx) = Some t ->
     post b WB (consumed ctx) (k t (consumed ctx))) ->
  (forall t, nth_error (tokens ctx) (position ctx) = Some t ->
     type t = TOK_EOF -> exists e, fst (k t (consumed ctx)) = Failed e) ->
  post b WB ctx (bind rdp_pop k ctx).
Proof.
  intros Hk Heof. unfold rdp_pop, bind, rdp_peek, rdp_consume, ret.
  fold (consumed ctx).
  destruct (nth_error (tokens ctx) (position ctx)) as [t|] eqn:E.
  - assert (Hlt : position ctx < List.length (tokens ctx)).
    { apply nth_error_Some. congruence. }
    destruct (Hk t eq_refl) as [Ht' Hl' Hp' He' Hf' Hs' Hi' Hw' Hx'].
    pose proof (consumed_remaining ctx Hlt) as Hr.
    rewrite ?consumed_position, ?consumed_tokens, ?consumed_length in *.
    change (post b WB ctx (k t (consumed ctx))).
    constructor.
    + exact Ht'.
    + exact Hl'.
    + lia.
    + intros; apply He'; lia.
    + intros H. apply Hf'. lia.
    + intros H. destruct (token_type_eq_dec (type t) TOK_EOF) as [e|n].
      * destruct (Heof t eq_refl e) as (err & Herr). congruence.
      * apply Hs'. eapply in_bounds_consumed; eauto.
    + intros H a Ha. destruct (token_type_eq_dec (type t) TOK_EOF) as [e|n].
      * destruct (Heof t eq_refl e) as (err & Herr). congruence.
      * eapply Hi'; [eapply in_bounds_consumed; eauto | exact Ha].
    + exact Hw'.
    + exact Hx'.
  - apply post_stop; try congruence.
    intros H. destruct (nth_error_in_bounds ctx H) as (t & Ht). congruence.
Qed.

Lemma rdp_consume_blanks_post (fuel : nat) :
  forall b ctx, b <= fuel ->
    post b (fun _ c => after_blanks ctx c) ctx (rdp_consume_blanks fuel ctx).
Proof.
  induction fuel as [|fuel IH]; intros b ctx Hb; simpl.
  - apply post_stop; try congruence. unfold remaining; lia.
  - eapply post_bind; [apply rdp_peek_post|].
    intros t ctx1 _ [-> Hn] _ _.
    destruct (token_type_eqb (type t) TOK_SPACE) eqn:E.
    + apply token_type_eqb_eq in E.
      eapply post_consume_bind; eauto; [congruence|].
      eapply post_weaken; [apply IH; lia|].
      intros [] _ [Hstop _]. split; [exact Hstop|]. right; eauto.
    + apply post_ret. split; [|left; reflexivity].
      exists t; split; auto. intros H. apply token_type_eqb_eq in H.
      congruence.
Qed.

Lemma failed_check (ctx : rdp_t) (t : token_t) (expected : token_type)
  (msg : string) :
  nth_error (tokens ctx) (position ctx) = Some t ->
  token_type_eqb (type t) expected = false ->
  expected = TOK_NUMBER \/ expected = TOK_RPAREN ->
  failure_at (consumed ctx) (UnexpectedToken expected (type t) msg).
Proof.
  intros Hn He Hx. exists (position ctx), t, expected, msg.
  repeat split; auto.
  intros H. apply token_type_eqb_eq in H. congruence.
Qed.

Lemma rdp_const_post (fuel b : nat) (ctx : rdp_t) :
  b <= fuel -> post b shaped ctx (rdp_const fuel ctx).
Proof.
  intros Hb. unfold rdp_const.
  eapply post_bind; [apply rdp_consume_blanks_post; exact Hb|].
  intros [] ctx1 _ _ _ _.
  apply post_pop_bind.
  - intros t Hn.
    destruct (token_type_eqb (type t) TOK_NUMBER) eqn:E; simpl.
    + destruct (literal t).
      * apply post_ret. reflexivity.
      * apply post_stop; congruence.
    + apply post_stop; try congruence.
      intros e Ee. injection Ee as <-.
      eapply failed_check; eauto.
  - intros t Hn Ht. unfold token_type_eqb.
    destruct (token_type_eq_dec (type t) TOK_NUMBER); [congruence|].
    simpl. eauto.
Qed.

Lemma rdp_primary_exp_post (fuel b : nat) (expression : M rdp_t node_t) :
  b <= fuel ->
  (forall ctx, post (b - 1) shaped ctx (expression ctx)) ->
  forall ctx, post b shaped ctx (rdp_primary_exp fuel expression ctx).
Proof.
  intros Hb He ctx. unfold rdp_primary_exp.
  eapply post_bind; [apply rdp_consume_blanks_post; exact Hb|].
  intros [] ctx1 _ _ _ _.
  eapply post_bind; [apply rdp_peek_post|].
  intros left ctx2 _ [-> Hn] _ _.
  destruct (token_type_eqb (type left) TOK_LPAREN) eqn:E.
  - apply token_type_eqb_eq in E.
    eapply post_consume_bind; eauto; [congruence|].
    eapply post_bind; [apply He|].
    intros expr ctx3 _ Hexpr _ _.
    eapply post_bind; [apply rdp_consume_blanks_post; lia|].
    intros [] ctx4 _ _ _ _.
    apply post_pop_bind.
    + intros t Ht.
      destruct (token_type_eqb (type t) TOK_RPAREN) eqn:Et.
      * apply post_ret. exact Hexpr.
      * apply post_stop; try congruence.
        intros e Ee. injection Ee as <-.
        eapply failed_check; eauto.
    + intros t Hnt Ht. unfold token_type_eqb.
      destruct (token_type_eq_dec (type t) TOK_RPAREN); [congruence|].
      simpl. eauto.
  - apply rdp_const_post. exact Hb.
Qed.

Lemma blank_stable_True : blank_stable (fun _ => True).
Proof. intros c c' _ _; exact I. Qed.

Lemma blank_stable_stops (Q : rdp_t -> Prop) (ops : list token_type) :
  blank_stable Q -> blank_stable (fun c => Q c /\ stops_at ops c).
Proof.
  intros HQ c c' [Hq Hs] Hb. split; [eapply HQ; eauto|].
  destruct Hb as [_ [->|(t & Hn & Ht)]]; [exact Hs|].
  destruct Hs as (t' & Hn' & Ht' & _). congruence.
Qed.

Lemma is_operator_incl (ops ops' : list token_type) (t : token_type) :
  incl ops ops' -> is_operator ops t = true -> is_operator ops' t = true.
Proof.
  unfold is_operator. intros Hi H.
  apply existsb_exists in H. destruct H as (x & Hx & E).
  apply existsb_exists. exists x. split; auto.
Qed.

Lemma ast_shape_Binary (op : token_type) (l r : node_t) :
  is_operator binary_operators op = true ->
  ast_shape l = true -> ast_shape r = true ->
  ast_shape (Binary op l r) = true.
Proof.
  intros H Hl Hr. unfold Binary, ast_binary_operator. cbn [ast_shape].
  unfold is_operator in H. rewrite H, Hl, Hr. reflexivity.
Qed.

Section LevelPost.

Variables (fuel b : nat) (ops : list token_type).
Variable higher : M rdp_t node_t.
Variable Q : rdp_t -> Prop.

Hypothesis Hb : b <= fuel.
Hypothesis Hops : incl ops binary_operators.
Hypothesis HQ : blank_stable Q.
Hypothesis Hh :
  forall ctx, post b (fun n c => shaped n c /\ Q c) ctx (higher ctx).

Lemma fold_level_loop_post :
  forall n b' left ctx,
    b' <= n -> b' <= b -> ast_shape left = true -> Q ctx ->
    post b' (fun n c => shaped n c /\ Q c /\ stops_at ops c) ctx
      (fold_level_loop fuel ops higher n left ctx).
Proof.
  induction n as [|n IH]; intros b' left ctx Hn Hb' Hl Hq; simpl.
  - apply post_stop; try congruence. unfold remaining; lia.
  - eapply post_bind; [apply rdp_consume_blanks_post; lia|].
    intros [] ctx1 _ Hab _ _.
    assert (Hq1 : Q ctx1) by (eapply HQ; eauto).
    eapply post_bind; [apply rdp_peek_post|].
    intros op ctx2 _ [-> Hop] _ _.
    destruct (is_operator ops (type op)) eqn:E.
    + pose proof (is_operator_incl _ _ _ Hops E) as Hbin.
      eapply post_consume_bind; eauto.
      { intros Heof. rewrite Heof in Hbin. discriminate. }
      eapply post_bind;
        [eapply post_le; [|apply Hh]; lia|].
      intros right ctx3 _ [Hr Hq3] _ _.
      apply IH; auto; try lia.
      apply ast_shape_Binary; auto.
    + apply post_ret. split; [exact Hl|]. split; [exact Hq1|].
      destruct Hab as [(t & Ht & Hsp) _].
      exists op. split; [exact Hop|]. split; [congruence|exact E].
Qed.

Lemma fold_level_post :
  forall ctx,
    post b (fun n c => shaped n c /\ Q c /\ stops_at ops c) ctx
      (fold_level fuel ops higher ctx).
Proof.
  intros ctx. unfold fold_level.
  eapply post_bind; [apply Hh|].
  intros left ctx1 _ [Hl Hq] _ _.
  apply fold_level_loop_post; auto.
Qed.

End LevelPost.

Lemma post_ext (A : Type) (b : nat) (W : A -> rdp_t -> Prop)
  (f g : M rdp_t A) :
  (forall ctx, f ctx = g ctx) ->
  (forall ctx, post b W ctx (g ctx)) ->
  forall ctx, post b W ctx (f ctx).
Proof. intros E H ctx. rewrite E. apply H. Qed.

Lemma stop5_expression_end (c : rdp_t) : stop5 c -> expression_end c.
Proof.
  intros [[[[[_ Hm] Ha] Hb'] Hx] Hi].
  destruct Hm as (t & Ht & Hsp & Hm).
  destruct Ha as (t1 & Ht1 & _ & Ha).
  destruct Hb' as (t2 & Ht2 & _ & Hb').
  destruct Hx as (t3 & Ht3 & _ & Hx).
  destruct Hi as (t4 & Ht4 & _ & Hi).
  assert (t1 = t) by congruence. assert (t2 = t) by congruence.
  assert (t3 = t) by congruence. assert (t4 = t) by congruence.
  subst. exists t. split; [exact Ht|]. split; [exact Hsp|].
  unfold is_operator in *. destruct (type t); simpl in *; congruence.
Qed.

Lemma rdp_ior_exp_post (fuel b : nat) (expression : M rdp_t node_t) :
  b <= fuel ->
  (forall ctx, post (b - 1) shaped ctx (expression ctx)) ->
  forall ctx, post b parsed ctx (rdp_ior_exp fuel expression ctx).
Proof.
  intros Hb He.
  pose proof (rdp_primary_exp_post fuel b expression Hb He) as H0.
  assert (H1 : forall ctx,
             post b (fun n c => shaped n c /\ stop0 c) ctx
               (rdp_unary_exp fuel expression ctx)).
  { intros ctx. eapply post_weaken; [apply H0|].
    intros; split; [assumption|exact I]. }
  assert (S0 : blank_stable stop0) by exact blank_stable_True.
  assert (S1 : blank_stable stop1) by (apply blank_stable_stops; exact S0).
  assert (S2 : blank_stable stop2) by (apply blank_stable_stops; exact S1).
  assert (S3 : blank_stable stop3) by (apply blank_stable_stops; exact S2).
  assert (S4 : blank_stable stop4) by (apply blank_stable_stops; exact S3).
  pose proof (post_ext _ _ _ _ _ (rdp_mult_exp_fold fuel expression)
    (fold_level_post fuel b mult_operators _ stop0 Hb
       ltac:(unfold incl; simpl; tauto) S0 H1)) as H2.
  pose proof (post_ext _ _ _ _ _ (rdp_additive_exp_fold fuel expression)
    (fold_level_post fuel b additive_operators _ stop1 Hb
       ltac:(unfold incl; simpl; tauto) S1 H2)) as H3.
  pose proof (post_ext _ _ _ _ _ (rdp_and_exp_fold fuel expression)
    (fold_level_post fuel b and_operators _ stop2 Hb
       ltac:(unfold incl; simpl; tauto) S2 H3)) as H4.
  pose proof (post_ext _ _ _ _ _ (rdp_xor_exp_fold fuel expression)
    (fold_level_post fuel b xor_operators _ stop3 Hb
       ltac:(unfold incl; simpl; tauto) S3 H4)) as H5.
  pose proof (post_ext _ _ _ _ _ (rdp_ior_exp_fold fuel expression)
    (fold_level_post fuel b ior_operators _ stop4 Hb
       ltac:(unfold incl; simpl; tauto) S4 H5)) as H6.
  intros ctx. eapply post_weaken; [apply H6|].
  intros n _ [Hn Hs]. split; [exact Hn|].
  apply stop5_expression_end. exact Hs.
Qed.

Lemma rdp_expression_post :
  forall fuel ctx, post (fuel - 1) parsed ctx (rdp_expression fuel ctx).
Proof.
  induction fuel as [|fuel IH]; intros ctx; simpl.
  - apply post_stop; try congruence. unfold remaining; lia.
  - rewrite Nat.sub_0_r. apply rdp_ior_exp_post; [lia|].
    intros c. eapply post_weaken; [apply IH|]. intros n _ [Hn _]. exact Hn.
Qed.

(** ** More fuel does not change a result *)

Lemma refines_refl (A : Type) (f : M rdp_t A) : refines f f.
Proof. intros ctx _; reflexivity. Qed.

Lemma refines_bind (A B : Type) (m1 m2 : M rdp_t A)
  (k1 k2 : A -> M rdp_t B) :
  refines m1 m2 -> (forall a, refines (k1 a) (k2 a)) ->
  refines (bind m1 k1) (bind m2 k2).
Proof.
  intros Hm Hk ctx H. unfold bind in *.
  destruct (m1 ctx) as [o c1] eqn:E.
  assert (Ho : o <> OutOfFuel).
  { intros ->. apply H. reflexivity. }
  rewrite (Hm ctx) by (rewrite E; exact Ho).
  rewrite E. destruct o; try reflexivity.
  apply Hk. exact H.
Qed.

Lemma refines_ext (A : Type) (f f' g g' : M rdp_t A) :
  (forall ctx, f ctx = f' ctx) -> (forall ctx, g ctx = g' ctx) ->
  refines f' g' -> refines f g.
Proof. intros Ef Eg H ctx Hc. rewrite Ef, Eg in *. apply H. exact Hc. Qed.

Lemma rdp_consume_blanks_refines :
  forall fuel1 fuel2, fuel1 <= fuel2 ->
    refines (rdp_consume_blanks fuel1) (rdp_consume_blanks fuel2).
Proof.
  induction fuel1 as [|fuel1 IH]; intros fuel2 Hle.
  - intros ctx H. simpl in H. congruence.
  - destruct fuel2 as [|fuel2]; [lia|]. simpl.
    apply refines_bind; [apply refines_refl|].
    intros t. destruct (token_type_eqb (type t) TOK_SPACE).
    + apply refines_bind; [apply refines_refl|].
      intros _. apply IH. lia.
    + apply refines_refl.
Qed.

Lemma rdp_const_refines (fuel1 fuel2 : nat) :
  fuel1 <= fuel2 -> refines (rdp_const fuel1) (rdp_const fuel2).
Proof.
  intros Hle. unfold rdp_const.
  apply refines_bind; [apply rdp_consume_blanks_refines; exact Hle|].
  intros _. apply refines_refl.
Qed.

Lemma rdp_primary_exp_refines (fuel1 fuel2 : nat) (e1 e2 : M rdp_t node_t) :
  fuel1 <= fuel2 -> refines e1 e2 ->
  refines (rdp_primary_exp fuel1 e1) (rdp_primary_exp fuel2 e2).
Proof.
  intros Hle He. unfold rdp_primary_exp.
  apply refines_bind; [apply rdp_consume_blanks_refines; exact Hle|].
  intros _. apply refines_bind; [apply refines_refl|].
  intros left. destruct (token_type_eqb (type left) TOK_LPAREN).
  - apply refines_bind; [apply refines_refl|]. intros _.
    apply refines_bind; [exact He|]. intros expr.
    apply refines_bind; [apply rdp_consume_blanks_refines; exact Hle|].
    intros _. apply refines_refl.
  - apply rdp_const_refines. exact Hle.
Qed.

Lemma fold_level_loop_refines (fuel1 fuel2 : nat) (ops : list token_type)
  (h1 h2 : M rdp_t node_t) :
  fuel1 <= fuel2 -> refines h1 h2 ->
  forall n1 n2 left, n1 <= n2 ->
    refines (fold_level_loop fuel1 ops h1 n1 left)
            (fold_level_loop fuel2 ops h2 n2 left).
Proof.
  intros Hle Hh. induction n1 as [|n1 IH]; intros n2 left Hn.
  - intros ctx H. simpl in H. congruence.
  - destruct n2 as [|n2]; [lia|]. simpl.
    apply refines_bind; [apply rdp_consume_blanks_refines; exact Hle|].
    intros _. apply refines_bind; [apply refines_refl|].
    intros op. destruct (is_operator ops (type op)).
    + apply refines_bind; [apply refines_refl|]. intros _.
      apply refines_bind; [exact Hh|]. intros right.
      apply IH. lia.
    + apply refines_refl.
Qed.

Lemma fold_level_refines (fuel1 fuel2 : nat) (ops : list token_type)
  (h1 h2 : M rdp_t node_t) :
  fuel1 <= fuel2 -> refines h1 h2 ->
  refines (fold_level fuel1 ops h1) (fold_level fuel2 ops h2).
Proof.
  intros Hle Hh. unfold fold_level.
  apply refines_bind; [exact Hh|].
  intros left. apply fold_level_loop_refines; auto.
Qed.

Lemma rdp_ior_exp_refines (fuel1 fuel2 : nat) (e1 e2 : M rdp_t node_t) :
  fuel1 <= fuel2 -> refines e1 e2 ->
  refines (rdp_ior_exp fuel1 e1) (rdp_ior_exp fuel2 e2).
Proof.
  intros Hle He.
  eapply refines_ext; [apply rdp_ior_exp_fold|apply rdp_ior_exp_fold|].
  apply fold_level_refines; [exact Hle|].
  eapply refines_ext; [apply rdp_xor_exp_fold|apply rdp_xor_exp_fold|].
  apply fold_level_refines; [exact Hle|].
  eapply refines_ext; [apply rdp_and_exp_fold|apply rdp_and_exp_fold|].
  apply fold_level_refines; [exact Hle|].
  eapply refines_ext;
    [apply rdp_additive_exp_fold|apply rdp_additive_exp_fold|].
  apply fold_level_refines; [exact Hle|].
  eapply refines_ext; [apply rdp_mult_exp_fold|apply rdp_mult_exp_fold|].
  apply fold_level_refines; [exact Hle|].
  apply rdp_primary_exp_refines; auto.
Qed.

Lemma rdp_expression_refines :
  forall fuel1 fuel2, fuel1 <= fuel2 ->
    refines (rdp_expression fuel1) (rdp_expression fuel2).
Proof.
  induction fuel1 as [|fuel1 IH]; intros fuel2 Hle.
  - intros ctx H. simpl in H. congruence.
  - destruct fuel2 as [|fuel2]; [lia|]. simpl.
    apply rdp_ior_exp_refines; [lia|]. apply IH. lia.
Qed.

(** Any two amounts of fuel of which one is large enough for the tokens
    that remain give the same result. *)
Lemma rdp_expression_fuel (fuel1 fuel2 : nat) (ctx : rdp_t) :
  fst (rdp_expression fuel1 ctx) <> OutOfFuel ->
  remaining ctx + 2 <= fuel2 ->
  rdp_expression fuel2 ctx = rdp_expression fuel1 ctx.
Proof.
  intros H1 H2.
  destruct (Nat.le_gt_cases fuel1 fuel2) as [Hle|Hgt].
  - apply rdp_expression_refines; auto.
  - symmetry. apply rdp_expression_refines; [lia|].
    apply (post_fuel _ _ _ _ (rdp_expression_post fuel2 ctx)). lia.
Qed.

(** ** A run reads only the tokens it passes and the one it stops on *)

Lemma advanced_0 (c : rdp_t) : advanced c 0 = c.
Proof. destruct c; unfold advanced; simpl. rewrite Nat.add_0_r. auto. Qed.

Lemma advanced_advanced (c : rdp_t) (j k : nat) :
  advanced (advanced c j) k = advanced c (j + k).
Proof. unfold advanced; simpl. rewrite Nat.add_assoc. reflexivity. Qed.

Lemma advanced_1 (c : rdp_t) : advanced c 1 = consumed c.
Proof. unfold advanced, consumed. rewrite Nat.add_1_r. reflexivity. Qed.

Lemma window_sub (c1 c2 : rdp_t) (k k' : nat) :
  k' <= k -> window c1 c2 k -> window c1 c2 k'.
Proof.
  intros Hle [Hex Hst]. split.
  - intros j Hj. apply Hex. lia.
  - destruct (Nat.eq_dec k' k) as [->|Hne]; [exact Hst|].
    destruct (Hex k') as (t & H1 & H2); [lia|].
    exists t, t. auto.
Qed.

Lemma window_shift (c1 c2 c1' : rdp_t) (k j : nat) :
  window c1 c2 k -> j <= k ->
  tokens c1' = tokens c1 -> position c1' = position c1 + j ->
  window c1' (advanced c2 j) (k - j).
Proof.
  intros [Hex Hst] Hj Ht Hp. unfold window, advanced; simpl.
  rewrite Ht, Hp. split.
  - intros i Hi. destruct (Hex (j + i)) as (t & H1 & H2); [lia|].
    exists t. rewrite <- !Nat.add_assoc. auto.
  - destruct Hst as (t1 & t2 & H1 & H2 & H3). exists t1, t2.
    rewrite <- !Nat.add_assoc. replace (j + (k - j)) with k by lia. auto.
Qed.

Lemma local_ret (A : Type) (a : A) : local (ret a).
Proof.
  intros c1 a' c1' E. unfold ret in *. injection E as <- <-.
  split; [reflexivity|]. split; [lia|].
  intros c2 _. rewrite Nat.sub_diag, advanced_0. reflexivity.
Qed.

Lemma local_stop (A : Type) (f : M rdp_t A) :
  (forall c a c', f c <> (Done a, c')) -> local f.
Proof. intros H c1 a c1' E. destruct (H _ _ _ E). Qed.

Lemma local_bind (A B : Type) (m : M rdp_t A) (k : A -> M rdp_t B) :
  local m -> (forall a, local (k a)) -> local (bind m k).
Proof.
  intros Hm Hk c1 b c1'' E. unfold bind in E.
  destruct (m c1) as [[a| | |] c1'] eqn:Em; try discriminate.
  destruct (Hm _ _ _ Em) as (Ht1 & Hp1 & Hw1).
  destruct (Hk a _ _ _ E) as (Ht2 & Hp2 & Hw2).
  split; [congruence|]. split; [lia|].
  intros c2 Hw. unfold bind.
  rewrite (Hw1 c2) by (eapply window_sub; [|exact Hw]; lia).
  rewrite (Hw2 (advanced c2 (position c1' - position c1))).
  - rewrite advanced_advanced. do 2 f_equal. lia.
  - replace (position c1'' - position c1')
      with ((position c1'' - position c1) - (position c1' - position c1))
      by lia.
    apply window_shift with (c1 := c1); auto; lia.
Qed.

Lemma local_ext (A : Type) (f g : M rdp_t A) :
  (forall ctx, f ctx = g ctx) -> local g -> local f.
Proof.
  intros E H c1 a c1' Hf. rewrite E in Hf.
  destruct (H _ _ _ Hf) as (Ht & Hp & Hw).
  split; [exact Ht|]. split; [exact Hp|].
  intros c2 Hc. rewrite E. apply Hw. exact Hc.
Qed.

Lemma local_consume : local rdp_consume.
Proof.
  intros c1 a c1' E. unfold rdp_consume in *. injection E as <- <-.
  cbn [position tokens]. split; [reflexivity|]. split; [lia|].
  intros c2 _. replace (S (position c1) - position c1) with 1 by lia.
  rewrite advanced_1. reflexivity.
Qed.

Lemma local_pop : local rdp_pop.
Proof.
  intros c1 a c1' E. unfold rdp_pop, bind, rdp_peek, rdp_consume, ret in *.
  destruct (nth_error (tokens c1) (position c1)) as [t|] eqn:En;
    try discriminate.
  injection E as <- <-. cbn [position tokens].
  split; [reflexivity|]. split; [lia|].
  intros c2 [Hex _]. replace (S (position c1) - position c1) with 1 in * by lia.
  destruct (Hex 0) as (t' & H1 & H2); [lia|].
  rewrite Nat.add_0_r in H1, H2. rewrite H2.
  rewrite advanced_1. unfold consumed. congruence.
Qed.

(** Looking at a token and branching on it: when the branch taken does not
    move the cursor, it may depend on the [peek_kind] of the token only. *)
Lemma local_peek_bind (B : Type) (k : token_t -> M rdp_t B) :
  (forall t, local (k t)) ->
  (forall t1 t2 c1 c1' b,
     k t1 c1 = (Done b, c1') -> position c1' = position c1 ->
     peek_kind (type t1) = peek_kind (type t2) ->
     forall c2, k t2 c2 = (Done b, c2)) ->
  local (bind rdp_peek k).
Proof.
  intros Hk Hstay c1 b c1' E. unfold bind, rdp_peek in E.
  destruct (nth_error (tokens c1) (position c1)) as [t1|] eqn:En;
    try discriminate.
  destruct (Hk t1 _ _ _ E) as (Ht & Hp & Hw).
  split; [exact Ht|]. split; [exact Hp|].
  intros c2 Hwin. unfold bind, rdp_peek.
  destruct (Nat.eq_dec (position c1') (position c1)) as [Heq|Hne].
  - rewrite Heq, Nat.sub_diag in *.
    destruct Hwin as [_ (t1' & t2 & H1 & H2 & H3)].
    rewrite Nat.add_0_r in H1, H2. rewrite H2.
    rewrite advanced_0. eapply Hstay; eauto. congruence.
  - destruct Hwin as [Hex Hst].
    destruct (Hex 0) as (t & H1 & H2); [lia|].
    rewrite Nat.add_0_r in H1, H2. rewrite H2.
    assert (t = t1) by congruence. subst t.
    apply Hw. split; auto.
Qed.

Lemma peek_kind_cases (a b : token_type) :
  peek_kind a = peek_kind b ->
  a = b \/
  (a <> TOK_SPACE /\ b <> TOK_SPACE /\
   is_operator binary_operators a = false /\
   is_operator binary_operators b = false).
Proof.
  destruct a, b; vm_compute; intros H;
    first [ left; reflexivity
          | discriminate H
          | right; repeat split; congruence ].
Qed.

Lemma peek_kind_space (a b : token_type) :
  peek_kind a = peek_kind b ->
  token_type_eqb a TOK_SPACE = token_type_eqb b TOK_SPACE.
Proof.
  intros H. destruct (peek_kind_cases a b H) as [->|(Ha & Hb & _)];
    [reflexivity|].
  unfold token_type_eqb.
  destruct (token_type_eq_dec a TOK_SPACE),
           (token_type_eq_dec b TOK_SPACE); congruence.
Qed.

Lemma peek_kind_operator (ops : list token_type) (a b : token_type) :
  incl ops binary_operators ->
  peek_kind a = peek_kind b ->
  is_operator ops a = is_operator ops b.
Proof.
  intros Hi H. destruct (peek_kind_cases a b H) as [->|(_ & _ & Ha & Hb)];
    [reflexivity|].
  destruct (is_operator ops a) eqn:Ea.
  - rewrite (is_operator_incl _ _ _ Hi Ea) in Ha. discriminate.
  - destruct (is_operator ops b) eqn:Eb; [|reflexivity].
    rewrite (is_operator_incl _ _ _ Hi Eb) in Hb. discriminate.
Qed.

Lemma local_consume_then (B : Type) (k : M rdp_t B) (c c' : rdp_t) (b : B) :
  local k -> bind rdp_consume (fun _ => k) c = (Done b, c') ->
  position c < position c'.
Proof.
  intros Hk E. unfold bind, rdp_consume in E.
  destruct (Hk _ _ _ E) as (_ & Hp & _). simpl in Hp. lia.
Qed.

Lemma rdp_consume_blanks_local :
  forall fuel, local (rdp_consume_blanks fuel).
Proof.
  induction fuel as [|fuel IH]; simpl.
  - apply local_stop. unfold out_of_fuel. congruence.
  - apply local_peek_bind.
    + intros t. destruct (token_type_eqb (type t) TOK_SPACE).
      * apply local_bind; [apply local_consume|]. intros _. exact IH.
      * apply local_ret.
    + intros t1 t2 c1 c1' b E Hp Hk c2.
      rewrite <- (peek_kind_space _ _ Hk).
      destruct (token_type_eqb (type t1) TOK_SPACE).
      * apply local_consume_then in E; [lia|exact IH].
      * unfold ret in *. congruence.
Qed.

Lemma rdp_const_local (fuel : nat) : local (rdp_const fuel).
Proof.
  unfold rdp_const.
  apply local_bind; [apply rdp_consume_blanks_local|]. intros _.
  apply local_bind; [apply local_pop|]. intros t.
  destruct (negb (token_type_eqb (type t) TOK_NUMBER)).
  - apply local_stop. unfold xerror. congruence.
  - destruct (literal t).
    + apply local_ret.
    + apply local_stop. unfold fault_with. congruence.
Qed.

Lemma rdp_const_progress (fuel : nat) (c c' : rdp_t) (n : node_t) :
  rdp_const fuel c = (Done n, c') -> position c < position c'.
Proof.
  unfold rdp_const, bind. intros E.
  pose proof (post_mono _ _ _ _ (rdp_consume_blanks_post fuel 0 c
                                   (Nat.le_0_l _))) as Hm.
  destruct (rdp_consume_blanks fuel c) as [[[]| | |] c1]; try discriminate.
  simpl in Hm. unfold rdp_pop, bind, rdp_peek, rdp_consume, ret in E.
  destruct (nth_error (tokens c1) (position c1)) as [t|]; try discriminate.
  destruct (negb (token_type_eqb (type t) TOK_NUMBER)); try discriminate.
  destruct (literal t); try discriminate.
  injection E as _ <-. simpl. lia.
Qed.

Lemma rdp_primary_exp_local (fuel : nat) (expression : M rdp_t node_t) :
  local expression -> local (rdp_primary_exp fuel expression).
Proof.
  intros He. unfold rdp_primary_exp.
  apply local_bind; [apply rdp_consume_blanks_local|]. intros _.
  assert (Hparen : local (expr <- expression ;;
                          rdp_consume_blanks fuel ;;;
                          right <- rdp_pop ;;
                          if token_type_eqb (type right) TOK_RPAREN
                          then ret expr
                          else xerror TOK_RPAREN (type right)
                                 "Invalid symbol encountered")).
  { apply local_bind; [exact He|]. intros expr.
    apply local_bind; [apply rdp_consume_blanks_local|]. intros _.
    apply local_bind; [apply local_pop|]. intros right.
    destruct (token_type_eqb (type right) TOK_RPAREN).
    - apply local_ret.
    - apply local_stop. unfold xerror. congruence. }
  apply local_peek_bind.
  - intros left. destruct (token_type_eqb (type left) TOK_LPAREN).
    + apply local_bind; [apply local_consume|]. intros _. exact Hparen.
    + apply rdp_const_local.
  - intros t1 t2 c1 c1' b E Hp _ c2. exfalso.
    destruct (token_type_eqb (type t1) TOK_LPAREN).
    + apply local_consume_then in E; [lia|exact Hparen].
    + apply rdp_const_progress in E. lia.
Qed.

Lemma fold_level_loop_local (fuel : nat) (ops : list token_type)
  (higher : M rdp_t node_t) :
  incl ops binary_operators -> local higher ->
  forall n left, local (fold_level_loop fuel ops higher n left).
Proof.
  intros Hops Hh. induction n as [|n IH]; intros left; simpl.
  - apply local_stop. unfold out_of_fuel. congruence.
  - apply local_bind; [apply rdp_consume_blanks_local|]. intros _.
    assert (Hstep : forall op : token_t,
               local (right <- higher ;;
                      fold_level_loop fuel ops higher n
                        (Binary (type op) left right))).
    { intros op. apply local_bind; [exact Hh|]. intros right. apply IH. }
    apply local_peek_bind.
    + intros op. destruct (is_operator ops (type op)).
      * apply local_bind; [apply local_consume|]. intros _. apply Hstep.
      * apply local_ret.
    + intros t1 t2 c1 c1' b E Hp Hk c2.
      rewrite <- (peek_kind_operator ops _ _ Hops Hk).
      destruct (is_operator ops (type t1)).
      * apply local_consume_then in E; [lia|apply Hstep].
      * unfold ret in *. congruence.
Qed.

Lemma fold_level_local (fuel : nat) (ops : list token_type)
  (higher : M rdp_t node_t) :
  incl ops binary_operators -> local higher ->
  local (fold_level fuel ops higher).
Proof.
  intros Hops Hh. unfold fold_level.
  apply local_bind; [exact Hh|]. intros left.
  apply fold_level_loop_local; auto.
Qed.

Lemma rdp_ior_exp_local (fuel : nat) (expression : M rdp_t node_t) :
  local expression -> local (rdp_ior_exp fuel expression).
Proof.
  intros He.
  eapply local_ext; [apply rdp_ior_exp_fold|].
  apply fold_level_local; [unfold incl; simpl; tauto|].
  eapply local_ext; [apply rdp_xor_exp_fold|].
  apply fold_level_local; [unfold incl; simpl; tauto|].
  eapply local_ext; [apply rdp_and_exp_fold|].
  apply fold_level_local; [unfold incl; simpl; tauto|].
  eapply local_ext; [apply rdp_additive_exp_fold|].
  apply fold_level_local; [unfold incl; simpl; tauto|].
  eapply local_ext; [apply rdp_mult_exp_fold|].
  apply fold_level_local; [unfold incl; simpl; tauto|].
  apply rdp_primary_exp_local. exact He.
Qed.

Lemma rdp_expression_local : forall fuel, local (rdp_expression fuel).
Proof.
  induction fuel as [|fuel IH]; simpl.
  - apply local_stop. unfold out_of_fuel. congruence.
  - apply rdp_ior_exp_local. exact IH.
Qed.

(** ** Consequences for a whole parse *)

Lemma rdp_generate_ast_post (fuel : nat) (ctx : rdp_t) :
  post (fuel - 1) parsed ctx (rdp_generate_ast fuel ctx).
Proof. apply rdp_expression_post. Qed.

Lemma well_formed_terminated (toks : list token_t) :
  well_formed_sequence toks = true -> terminated toks.
Proof.
  unfold well_formed_sequence. intros H.
  destruct (rev toks) as [|eof body] eqn:E; [discriminate|].
  apply andb_prop in H. destruct H as [H _].
  apply token_type_eqb_eq in H.
  exists (rev body), eof. split; [|exact H].
  rewrite <- (rev_involutive toks), E. reflexivity.
Qed.

Lemma terminated_in_bounds (toks : list token_t) (n : nat) :
  terminated toks -> in_bounds (rdp_init toks n).
Proof.
  intros H. split; [exact H|].
  destruct H as (body & eof & -> & _). simpl.
  rewrite length_app. simpl. lia.
Qed.

(** The tree and the stopping place of a parse do not depend on the fuel,
    once there is enough of it. *)
Lemma rdp_generate_ast_fuel (fuel1 fuel2 : nat) (ctx : rdp_t) :
  fst (rdp_generate_ast fuel1 ctx) <> OutOfFuel ->
  remaining ctx + 2 <= fuel2 ->
  rdp_generate_ast fuel2 ctx = rdp_generate_ast fuel1 ctx.
Proof. apply rdp_expression_fuel. Qed.

Lemma parse_tokens_fuel (toks : list token_t) (fuel : nat) :
  fst (rdp_generate_ast fuel (rdp_init toks (List.length toks)))
    <> OutOfFuel ->
  parse_tokens toks =
  rdp_generate_ast fuel (rdp_init toks (List.length toks)).
Proof.
  intros H. unfold parse_tokens. apply rdp_generate_ast_fuel; [exact H|].
  unfold remaining, parse_fuel. simpl. lia.
Qed.

(** The parse of [toks] carries over to any array that has the same tokens
    up to the cursor's final place and a token of the same [peek_kind]
    there. *)
Lemma parse_tokens_window (toks toks' : list token_t) (root : node_t)
  (ctx' : rdp_t) :
  parse_tokens toks = (Done root, ctx') ->
  window (rdp_init toks (List.length toks))
         (rdp_init toks' (List.length toks')) (position ctx') ->
  parse_tokens toks' =
  (Done root, mk_rdp toks' (position ctx') (List.length toks')).
Proof.
  intros E Hw. unfold parse_tokens, rdp_generate_ast in E.
  destruct (rdp_expression_local _ _ _ _ E) as (_ & _ & Hloc).
  simpl in Hloc. rewrite Nat.sub_0_r in Hloc.
  specialize (Hloc _ Hw).
  rewrite (parse_tokens_fuel toks' (parse_fuel toks)).
  - exact Hloc.
  - unfold rdp_generate_ast. rewrite Hloc. simpl. congruence.
Qed.

Lemma parse_tokens_stop (toks : list token_t) (root : node_t)
  (ctx' : rdp_t) :
  parse_tokens toks = (Done root, ctx') ->
  tokens ctx' = toks /\
  exists t, nth_error toks (position ctx') = Some t /\
            peek_kind (type t) = TOK_EOF.
Proof.
  intros E. unfold parse_tokens in E.
  pose proof (rdp_generate_ast_post (parse_fuel toks)
                (rdp_init toks (List.length toks))) as H.
  rewrite E in H. destruct H as [Ht _ _ _ _ _ _ Hw _]. simpl in *.
  split; [exact Ht|].
  destruct (Hw root eq_refl) as (_ & t & Hn & Hsp & Hop).
  rewrite Ht in Hn. exists t. split; [exact Hn|].
  unfold peek_kind. rewrite Hop.
  destruct (token_type_eqb (type t) TOK_SPACE) eqn:Es; [|reflexivity].
  apply token_type_eqb_eq in Es. congruence.
Qed.

(** C10.  Every tree a successful parse returns is made of numeric leaves
    (terminal nodes with identifier [TOK_NUMBER] that carry a value) and of
    binary nodes whose operator is one of the eight kinds bitwise or, xor,
    and, plus, minus, multiply, divide and modulo; no unary node is built. *)
Theorem parsed_tree_is_leaf_or_binary :
  forall fuel ctx root ctx',
    rdp_generate_ast fuel ctx = (Done root, ctx') ->
    ast_shape root = true.
Proof.
  intros fuel ctx root ctx' E.
  pose proof (rdp_generate_ast_post fuel ctx) as H. rewrite E in H.
  apply (post_value _ _ _ _ H root eq_refl).
Qed.

Lemma parsed_tree_is_leaf_or_binary_witness :
  ast_shape
    (Binary TOK_BWOR (Leaf 1)
       (Binary TOK_MOD (Leaf 2) (Leaf 3))) = true.
Proof.
  apply (parsed_tree_is_leaf_or_binary 9
           (rdp_init [lex_mknumber TOK_NUMBER "1"; lex_mkkw TOK_BWOR;
                      lex_mknumber TOK_NUMBER "2"; lex_mkkw TOK_MOD;
                      lex_mknumber TOK_NUMBER "3"; lex_mkspecial TOK_EOF] 6)
           _
           (mk_rdp [lex_mknumber TOK_NUMBER "1"; lex_mkkw TOK_BWOR;
                    lex_mknumber TOK_NUMBER "2"; lex_mkkw TOK_MOD;
                    lex_mknumber TOK_NUMBER "3"; lex_mkspecial TOK_EOF]
              5 6)).
  reflexivity.
Defined.

(** C9, as amended.  On a well formed token sequence no access to the token
    array is out of bounds: with enough fuel a parse ends with a tree or
    with a failed check, never with a read outside the array.  After a
    successful parse the cursor is a valid index.  After a failed parse the
    cursor is at most the length of the sequence: the failing check has
    consumed the token before it. *)
Theorem parse_reads_in_bounds :
  forall toks fuel,
    well_formed_sequence toks = true ->
    List.length toks + 2 <= fuel ->
    let r := rdp_generate_ast fuel (rdp_init toks (List.length toks)) in
    fst r <> Fault OutOfBounds /\
    fst r <> OutOfFuel /\
    tokens (snd r) = toks /\
    position (snd r) <= List.length toks /\
    (forall root, fst r = Done root ->
       position (snd r) < List.length toks) /\
    (forall e, fst r = Failed e -> failure_at (snd r) e).
Proof.
  intros toks fuel Hwf Hfuel r.
  pose proof (rdp_generate_ast_post fuel (rdp_init toks (List.length toks)))
    as H.
  fold r in H. destruct H as [Ht _ _ He Hf Hs Hi _ Hx].
  pose proof (terminated_in_bounds toks (List.length toks)
                (well_formed_terminated toks Hwf)) as Hin.
  simpl in *. repeat split.
  - apply Hs. exact Hin.
  - apply Hf. unfold remaining. simpl. lia.
  - exact Ht.
  - apply He. lia.
  - intros root Hr. destruct (Hi Hin root Hr) as [_ Hlt].
    rewrite Ht in Hlt. exact Hlt.
  - exact Hx.
Qed.

Lemma parse_reads_in_bounds_witness :
  let toks := [lex_mkkw TOK_LPAREN; lex_mknumber TOK_NUMBER "1";
               lex_mkspecial TOK_SPACE; lex_mkspecial TOK_EOF] in
  let r := rdp_generate_ast 6 (rdp_init toks 4) in
  fst r <> Fault OutOfBounds /\
  fst r <> OutOfFuel /\
  tokens (snd r) = toks /\
  position (snd r) <= 4 /\
  (forall root, fst r = Done root -> position (snd r) < 4) /\
  (forall e, fst r = Failed e -> failure_at (snd r) e).
Proof.
  apply (parse_reads_in_bounds
           [lex_mkkw TOK_LPAREN; lex_mknumber TOK_NUMBER "1";
            lex_mkspecial TOK_SPACE; lex_mkspecial TOK_EOF] 6).
  - reflexivity.
  - simpl. lia.
Defined.

(** C9, as stated, fails: on the well formed sequence that holds the end of
    input token alone the check of [rdp_const] pops that token, and the
    cursor is left at the length of the sequence, which is not an index. *)
Lemma cursor_leaves_the_sequence :
  let toks := [lex_mkspecial TOK_EOF] in
  well_formed_sequence toks = true /\
  snd (parse_tokens toks) = mk_rdp toks 1 1 /\
  ~ position (snd (parse_tokens toks)) < List.length toks.
Proof.
  split; [reflexivity|]. split; [reflexivity|]. simpl. lia.
Qed.

(** ** The lexer on a file *)

Lemma ch_range (a : ascii) : (0 <= ch a < 256)%Z.
Proof.
  unfold ch. pose proof (N_ascii_bounded a) as H. lia.
Qed.

Lemma byte_of_ch (a : ascii) : byte_of (ch a) = a.
Proof.
  unfold byte_of. rewrite Z.mod_small by apply ch_range.
  unfold ch. rewrite N2Z.id. apply ascii_N_embedding.
Qed.

(** Pushing back the character just read restores it, except for the byte
    255, which as a [char] is [EOF] and is refused by [ungetc]. *)
Lemma ungetc_ch (a : ascii) (fd : list ascii) :
  ungetc (to_char (ch a)) fd = if (ch a =? 255)%Z then fd else a :: fd.
Proof.
  pose proof (ch_range a) as Hr. unfold ungetc, to_char, EOF.
  destruct (Z.eqb_spec (ch a) 255) as [E|E].
  - rewrite E. reflexivity.
  - destruct (Z.eqb_spec ((ch a + 128) mod 256 - 128) (-1)) as [E'|E'].
    + exfalso. destruct (Z_lt_le_dec (ch a) 128).
      * rewrite Z.mod_small in E' by lia. lia.
      * replace (ch a + 128)%Z with ((ch a - 128) + 1 * 256)%Z in E' by lia.
        rewrite Z.mod_add, Z.mod_small in E' by lia. lia.
    + f_equal. rewrite <- (byte_of_ch a) at 2. unfold byte_of. f_equal. f_equal.
      rewrite Zminus_mod, Zmod_mod, <- Zminus_mod.
      replace (ch a + 128 - 128)%Z with (ch a) by lia. reflexivity.
Qed.

Lemma lex_getc_file_cons (a : ascii) (fd : list ascii) :
  lex_getc (FILE_BACKED (a :: fd)) = (Done (ch a), FILE_BACKED fd).
Proof. reflexivity. Qed.

Lemma lex_getc_file_nil :
  lex_getc (FILE_BACKED []) = (Done EOF, FILE_BACKED []).
Proof. reflexivity. Qed.

Lemma lex_ungetc_file_ch (a : ascii) (fd : list ascii) :
  lex_ungetc (ch a) (FILE_BACKED fd) =
  (Done tt, FILE_BACKED (if (ch a =? 255)%Z then fd else a :: fd)).
Proof. unfold lex_ungetc. rewrite ungetc_ch. reflexivity. Qed.

Lemma lex_ungetc_file_EOF (fd : list ascii) :
  lex_ungetc EOF (FILE_BACKED fd) = (Done tt, FILE_BACKED fd).
Proof. reflexivity. Qed.

Lemma lex_switch_file_cons (fuel : nat) (a : ascii) (fd : list ascii) :
  lex_switch fuel (FILE_BACKED (a :: fd)) =
  lex_dispatch fuel (ch a) (FILE_BACKED fd).
Proof. reflexivity. Qed.

Lemma lex_token_switch (fuel : nat) (ctx : lex_t) :
  lex_token fuel ctx =
  (sp <- lex_skip_space ;;
   if sp then ret (Some (lex_mkspecial TOK_SPACE)) else lex_switch fuel) ctx.
Proof. reflexivity. Qed.

Lemma file_step_weaken (A : Type) (P Q : A -> Prop) (fd : list ascii)
  (k : nat) (r : outcome A * lex_t) :
  (forall a, P a -> Q a) -> file_step P fd k r -> file_step Q fd 0 r.
Proof.
  intros HP (a & fd' & E & (pre & Hp & Hk) & Ha). exists a, fd'.
  split; [exact E|]. split; [exists pre; split; [exact Hp|lia]|auto].
Qed.

Lemma file_step_cons (A : Type) (P Q : A -> Prop) (x : ascii)
  (fd : list ascii) (k : nat) (r : outcome A * lex_t) :
  (forall a, P a -> Q a) -> file_step P fd k r -> file_step Q (x :: fd) 1 r.
Proof.
  intros HP (a & fd' & E & (pre & Hp & Hk) & Ha). exists a, fd'.
  split; [exact E|]. split; [|auto].
  exists (x :: pre). split; [rewrite Hp; reflexivity|simpl; lia].
Qed.

Lemma file_step_ret (A : Type) (P : A -> Prop) (a : A) (fd : list ascii) :
  P a -> file_step P fd 0 (ret a (FILE_BACKED fd)).
Proof.
  intros Ha. exists a, fd. split; [reflexivity|].
  split; [exists []; split; [reflexivity|simpl; lia]|auto].
Qed.

Lemma file_step_unget (A : Type) (P : A -> Prop) (a : A) (x : ascii)
  (fd : list ascii) :
  P a ->
  file_step P (x :: fd) 0
    (Done a, FILE_BACKED (if (ch x =? 255)%Z then fd else x :: fd)).
Proof.
  intros Ha. eexists _, _. split; [reflexivity|]. split; [|exact Ha].
  destruct (ch x =? 255)%Z.
  - exists [x]. split; [reflexivity|simpl; lia].
  - exists []. split; [reflexivity|simpl; lia].
Qed.

Lemma lex_chnumber_loop_file :
  forall fd fuel number,
    List.length fd < fuel ->
    file_step anything fd 0 (lex_chnumber_loop fuel number (FILE_BACKED fd)).
Proof.
  induction fd as [|a fd IH]; intros fuel number Hf;
    (destruct fuel as [|fuel]; [simpl in Hf; lia|]).
  - apply file_step_ret. exact I.
  - simpl lex_chnumber_loop. unfold bind at 1.
    rewrite lex_getc_file_cons.
    pose proof (ch_range a) as Hr.
    destruct (Z.eqb_spec (ch a) EOF) as [E|_]; [unfold EOF in E; lia|].
    destruct (isdigit (ch a)); cbn [negb].
    + eapply file_step_weaken; [intros ? H; exact H|].
      eapply file_step_cons; [intros ? H; exact H|].
      apply IH. simpl in Hf; lia.
    + unfold bind. rewrite lex_ungetc_file_ch.
      apply file_step_unget. exact I.
Qed.

Lemma lex_chident_loop_file :
  forall fd fuel identifier,
    List.length fd < fuel ->
    file_step anything fd 0
      (lex_chident_loop fuel identifier (FILE_BACKED fd)).
Proof.
  induction fd as [|a fd IH]; intros fuel identifier Hf;
    (destruct fuel as [|fuel]; [simpl in Hf; lia|]).
  - apply file_step_ret. exact I.
  - simpl lex_chident_loop. unfold bind at 1.
    rewrite lex_getc_file_cons.
    pose proof (ch_range a) as Hr.
    destruct (Z.eqb_spec (ch a) EOF) as [E|_]; [unfold EOF in E; lia|].
    destruct (negb (isalpha (ch a)) || (ch a =? ch "_")%Z).
    + unfold bind. rewrite lex_ungetc_file_ch.
      apply file_step_unget. exact I.
    + eapply file_step_weaken; [intros ? H; exact H|].
      eapply file_step_cons; [intros ? H; exact H|].
      apply IH. simpl in Hf; lia.
Qed.

Ltac second_char fd :=
  let a := fresh "a" in
  destruct fd as [|a fd]; unfold bind;
  [rewrite lex_getc_file_nil | rewrite lex_getc_file_cons];
  repeat (match goal with
          | |- context [if ?c then _ else _] => destruct c
          end);
  unfold bind; rewrite ?lex_ungetc_file_EOF, ?lex_ungetc_file_ch;
  first [ apply file_step_unget
        | apply file_step_ret
        | eapply file_step_weaken;
          [|eapply file_step_cons; [|apply file_step_ret]];
          [intros ? H; exact H | intros ? H; exact H |] ];
  first [exact I | unfold is_token; congruence].

Lemma lex_chnot_file (fd : list ascii) :
  file_step anything fd 0 (lex_chnot (FILE_BACKED fd)).
Proof. unfold lex_chnot. second_char fd. Qed.

Lemma lex_cheq_file (fd : list ascii) :
  file_step is_token fd 0 (lex_cheq (FILE_BACKED fd)).
Proof. unfold lex_cheq. second_char fd. Qed.

Lemma lex_chor_file (fd : list ascii) :
  file_step is_token fd 0 (lex_chor (FILE_BACKED fd)).
Proof. unfold lex_chor. second_char fd. Qed.

Lemma lex_chand_file (fd : list ascii) :
  file_step is_token fd 0 (lex_chand (FILE_BACKED fd)).
Proof. unfold lex_chand. second_char fd. Qed.

Lemma lex_chlbr_file (fd : list ascii) :
  file_step is_token fd 0 (lex_chlbr (FILE_BACKED fd)).
Proof. unfold lex_chlbr. second_char fd. Qed.

Lemma lex_chrbr_file (fd : list ascii) :
  file_step is_token fd 0 (lex_chrbr (FILE_BACKED fd)).
Proof. unfold lex_chrbr. second_char fd. Qed.

Lemma lex_chnumber_file (fd : list ascii) (fuel : nat) (c : Z) :
  List.length fd < fuel ->
  file_step is_token fd 0 (lex_chnumber fuel c (FILE_BACKED fd)).
Proof.
  intros Hf. unfold lex_chnumber, bind.
  destruct (lex_chnumber_loop_file fd fuel
              (vec_char_push vec_char_init c) Hf) as (n & fd' & -> & Hl & _).
  eexists _, _. split; [reflexivity|]. split; [exact Hl|].
  unfold is_token; congruence.
Qed.

Lemma lex_chident_file (fd : list ascii) (fuel : nat) (c : Z) :
  List.length fd < fuel ->
  file_step is_token fd 0 (lex_chident fuel c (FILE_BACKED fd)).
Proof.
  intros Hf. unfold lex_chident, bind.
  destruct (lex_chident_loop_file fd fuel
              (vec_char_push vec_char_init c) Hf) as (n & fd' & -> & Hl & _).
  eexists _, _. split; [reflexivity|]. split; [exact Hl|].
  unfold is_token; congruence.
Qed.

Lemma lex_switch_file_nil (fuel : nat) :
  lex_switch fuel (FILE_BACKED []) =
  (Done (Some (lex_mkspecial TOK_EOF)), FILE_BACKED []).
Proof. reflexivity. Qed.

Lemma ch_inj (a b : ascii) : ch a = ch b -> a = b.
Proof.
  intros H. rewrite <- (byte_of_ch a), <- (byte_of_ch b), H. reflexivity.
Qed.

Lemma lex_switch_file (a : ascii) (fd : list ascii) (fuel : nat) :
  List.length fd < fuel ->
  file_step (null_after (a :: fd)) (a :: fd) 1
    (lex_switch fuel (FILE_BACKED (a :: fd))).
Proof.
  intros Hf.
  unfold lex_switch, lex_dispatch, bind at 1. rewrite lex_getc_file_cons.
  destruct (Z.eqb_spec (ch a) (ch "!")) as [E|E].
  - apply ch_inj in E. subst a. cbn -[lex_chnot].
    eapply file_step_cons; [|apply lex_chnot_file].
    intros tok _ _. eauto.
  - assert (Hn : forall tok : option token_t,
               is_token tok -> null_after (a :: fd) tok).
    { intros tok Ht Hnone. destruct (Ht Hnone). }
    apply file_step_cons with (P := is_token) (k := 0); [exact Hn|].
    repeat (match goal with
            | |- file_step _ _ _ ((if ?c then _ else _) _) => destruct c
            end;
            [ first [ apply file_step_ret; unfold is_token; congruence
                    | apply lex_cheq_file
                    | apply lex_chand_file | apply lex_chor_file
                    | apply lex_chlbr_file | apply lex_chrbr_file
                    | apply lex_chnumber_file; lia
                    | apply lex_chident_file; lia ] | ]).
    apply file_step_ret; unfold is_token; congruence.
Qed.

Lemma lex_token_file_nil (fuel : nat) :
  lex_token fuel (FILE_BACKED []) =
  (Done (Some (lex_mkspecial TOK_EOF)), FILE_BACKED []).
Proof. reflexivity. Qed.

Lemma lex_token_file (a : ascii) (fd : list ascii) (fuel : nat) :
  List.length fd < fuel ->
  file_step (null_in (a :: fd)) (a :: fd) 1
    (lex_token fuel (FILE_BACKED (a :: fd))).
Proof.
  intros Hf.
  rewrite lex_token_switch. unfold lex_skip_space, bind.
  rewrite lex_getc_file_cons.
  pose proof (ch_range a) as Hr.
  destruct (Z.eqb_spec (ch a) EOF) as [E|_]; [unfold EOF in E; lia|].
  destruct (isspace (ch a)).
  - eapply file_step_cons; [|apply file_step_ret with (P := is_token)].
    + intros tok Ht Hn. destruct (Ht Hn).
    + unfold is_token; congruence.
  - rewrite lex_ungetc_file_ch. unfold ret.
    destruct (ch a =? 255)%Z.
    + destruct fd as [|b fd].
      * rewrite lex_switch_file_nil. eexists _, _. split; [reflexivity|].
        split; [exists [a]; split; [reflexivity|simpl; lia]|].
        intros H; discriminate.
      * eapply file_step_cons; [|apply lex_switch_file; simpl in Hf; lia].
        intros tok Hn Ht. destruct (Hn Ht) as (fd' & E). rewrite E.
        simpl. auto.
    + destruct (lex_switch_file a fd fuel Hf)
        as (tok & fd' & E & Hp & Hn).
      exists tok, fd'. split; [exact E|]. split; [exact Hp|].
      intros Ht. destruct (Hn Ht) as (fd'' & E'). rewrite E'. simpl. auto.
Qed.

Lemma lex_line_file :
  forall n fd acc,
    List.length fd + 1 <= n ->
    file_step (line_result fd acc) fd 0 (lex_line n acc (FILE_BACKED fd)).
Proof.
  induction n as [|n IH]; intros fd acc Hn; [lia|].
  simpl lex_line. unfold bind.
  destruct fd as [|a fd].
  - rewrite lex_token_file_nil. cbn.
    eexists _, _. split; [reflexivity|].
    split; [exists []; split; [reflexivity|simpl; lia]|].
    exists [], (lex_mkspecial TOK_EOF). repeat split; auto.
  - destruct (lex_token_file a fd n)
      as (tok & fd' & E & (pre & Hp & Hk) & Hnull); [simpl in Hn; lia|].
    rewrite E.
    assert (Hlen : List.length fd' < List.length (a :: fd)).
    { rewrite Hp, length_app. lia. }
    destruct tok as [t|].
    + destruct (token_type_eqb (type t) TOK_EOF) eqn:Et; cbn [negb].
      * apply token_type_eqb_eq in Et.
        exists (Some (vec_token_push acc t)), fd'.
        split; [reflexivity|].
        split; [exists pre; split; [exact Hp|lia]|].
        exists [], t. repeat split; auto. simpl. lia.
      * assert (Hne : type t <> TOK_EOF).
        { intros H. apply token_type_eqb_eq in H. congruence. }
        destruct (IH fd' (vec_token_push acc t))
          as (r & fd'' & E' & (pre' & Hp' & _) & Hr); [lia|].
        exists r, fd''. split; [exact E'|]. split.
        { exists (pre ++ pre'). rewrite Hp, Hp', app_assoc.
          split; [reflexivity|lia]. }
        destruct r as [toks|]; cbn [line_result] in *.
        -- destruct Hr as (body & eof & -> & He & Hb & Hbl).
           exists (t :: body), eof. unfold vec_token_push.
           rewrite <- app_assoc. repeat split; auto.
           simpl in Hlen |- *. lia.
        -- rewrite Hp. apply in_or_app. right. exact Hr.
    + exists None, fd'. split; [reflexivity|].
      split; [exists pre; split; [exact Hp|lia]|].
      simpl. apply Hnull. reflexivity.
Qed.

Lemma well_formed_sequence_app (body : list token_t) (eof : token_t) :
  type eof = TOK_EOF -> Forall not_eof body ->
  well_formed_sequence (body ++ [eof]) = true.
Proof.
  intros He Hb. unfold well_formed_sequence.
  rewrite rev_app_distr. simpl.
  apply andb_true_intro. split; [apply token_type_eqb_eq; exact He|].
  apply forallb_forall. intros t Ht.
  apply in_rev in Ht. rewrite Forall_forall in Hb.
  specialize (Hb t Ht). unfold not_eof in Hb.
  destruct (token_type_eqb (type t) TOK_EOF) eqn:E; [|reflexivity].
  apply token_type_eqb_eq in E. congruence.
Qed.

(** ** Operators of one and of two characters *)

Lemma lex_getc_string (str : list ascii) (pos : Z) (a : ascii) :
  (0 <= pos)%Z -> nth_error str (Z.to_nat pos) = Some a ->
  lex_getc (STRING_BACKED str pos) =
  (Done (string_char a), STRING_BACKED str (pos + 1)).
Proof.
  intros Hp Hn. unfold lex_getc.
  destruct (Z.ltb_spec pos 0); [lia|]. rewrite Hn. reflexivity.
Qed.

Lemma lex_ungetc_string (str : list ascii) (pos c : Z) :
  lex_ungetc c (STRING_BACKED str (pos + 1)) =
  (Done tt, STRING_BACKED str pos).
Proof. unfold lex_ungetc. do 2 f_equal. lia. Qed.

Lemma lex_token_file_nonspace (fuel : nat) (p : ascii) (fd : list ascii) :
  isspace (ch p) = false -> (ch p =? 255)%Z = false ->
  lex_token fuel (FILE_BACKED (p :: fd)) =
  lex_switch fuel (FILE_BACKED (p :: fd)).
Proof.
  intros Hs Hp. rewrite lex_token_switch. unfold lex_skip_space, bind.
  rewrite lex_getc_file_cons.
  pose proof (ch_range p) as Hr.
  destruct (Z.eqb_spec (ch p) EOF) as [E|_]; [unfold EOF in E; lia|].
  rewrite Hs, lex_ungetc_file_ch, Hp. reflexivity.
Qed.

(** Decide the conditions that are closed terms. *)
Ltac closed_conditions :=
  repeat match goal with
         | |- context [if ?c then _ else _] =>
             let v := eval vm_compute in c in
             match v with
             | true => change c with true
             | false => change c with false
             end; cbv beta iota
         end.

Lemma operator_prefix_file (fuel : nat) (p c : ascii) (rest : list ascii) :
  In p operator_prefixes ->
  lex_token fuel (FILE_BACKED (p :: c :: rest)) =
  match two_char_operator (ch p) (ch c) with
  | Some k => (Done (Some (mk_token k false None)), FILE_BACKED rest)
  | None =>
      match one_char_operator (ch p) with
      | Some k =>
          (Done (Some (mk_token k false None)),
           FILE_BACKED (pushed_back (c :: rest)))
      | None => (Done None, FILE_BACKED rest)
      end
  end.
Proof.
  intros Hp.
  assert (Hu : forall fd, lex_ungetc (ch c) (FILE_BACKED fd) =
                          (Done tt, FILE_BACKED (pushed_back (c :: fd)))).
  { intros fd. rewrite lex_ungetc_file_ch. reflexivity. }
  simpl in Hp.
  destruct Hp as [<-|[<-|[<-|[<-|[<-|[<-|[]]]]]]];
    (rewrite lex_token_file_nonspace by reflexivity);
    unfold lex_switch, lex_dispatch, bind at 1; rewrite lex_getc_file_cons;
    closed_conditions;
    unfold lex_chnot, lex_cheq, lex_chand, lex_chor, lex_chlbr, lex_chrbr,
      bind, two_char_operator, one_char_operator;
    rewrite lex_getc_file_cons;
    repeat (match goal with
            | |- context [(ch c =? ?x)%Z] => destruct (ch c =? x)%Z
            end; closed_conditions);
    rewrite ?Hu; reflexivity.
Qed.

Lemma operator_prefix_file_end (fuel : nat) (p : ascii) :
  In p operator_prefixes ->
  lex_token fuel (FILE_BACKED [p]) =
  match one_char_operator (ch p) with
  | Some k => (Done (Some (mk_token k false None)), FILE_BACKED [])
  | None => (Done None, FILE_BACKED [])
  end.
Proof.
  intros Hp. simpl in Hp.
  destruct Hp as [<-|[<-|[<-|[<-|[<-|[<-|[]]]]]]]; reflexivity.
Qed.

Lemma operator_prefix_string (fuel : nat) (str : list ascii) (pos : Z)
  (p c : ascii) :
  (0 <= pos)%Z ->
  nth_error str (Z.to_nat pos) = Some p ->
  nth_error str (Z.to_nat (pos + 1)) = Some c ->
  In p operator_prefixes ->
  lex_token fuel (STRING_BACKED str pos) =
  match two_char_operator (ch p) (string_char c) with
  | Some k =>
      (Done (Some (mk_token k false None)), STRING_BACKED str (pos + 2))
  | None =>
      match one_char_operator (ch p) with
      | Some k =>
          (Done (Some (mk_token k false None)), STRING_BACKED str (pos + 1))
      | None => (Done None, STRING_BACKED str (pos + 2))
      end
  end.
Proof.
  intros H0 Hnp Hnc Hp.
  replace (pos + 2)%Z with (pos + 1 + 1)%Z by lia.
  rewrite lex_token_switch. unfold lex_skip_space, bind.
  rewrite (lex_getc_string str pos p H0 Hnp).
  simpl in Hp.
  destruct Hp as [<-|[<-|[<-|[<-|[<-|[<-|[]]]]]]];
    closed_conditions; rewrite lex_ungetc_string; unfold ret;
    unfold lex_switch, lex_dispatch, bind at 1;
    rewrite (lex_getc_string str pos _ H0 Hnp);
    closed_conditions;
    unfold lex_chnot, lex_cheq, lex_chand, lex_chor, lex_chlbr, lex_chrbr,
      bind, two_char_operator, one_char_operator;
    rewrite (lex_getc_string str (pos + 1) c ltac:(lia) Hnc);
    repeat (match goal with
            | |- context [(string_char c =? ?x)%Z] =>
                destruct (string_char c =? x)%Z
            end; closed_conditions);
    rewrite ?lex_ungetc_string; reflexivity.
Qed.

(** C3, as amended.  After one of the prefixes [= & | < >] a character that
    completes no known operator is pushed back, and the token of the prefix
    alone is returned: the bitwise or token for [=] and for [|], bitwise and
    for [&], less than and greater than.  After any of the six prefixes a
    character that completes a known operator is consumed with it and the
    token of the two characters is returned.  After [!] a character other
    than [=] yields the null pointer, and the character is consumed.  The
    tokens are written field by field: the kind that the tables
    [two_char_operator] and [one_char_operator] give, not a literal, and
    no text.  On a file the source is left as [pushed_back] says: the
    character is in front again unless it is the byte 255; in a string the
    cursor is back on the character, whatever it is, the terminator
    included. *)
Theorem operator_prefix_maximal_munch :
  forall fuel p c,
    In p operator_prefixes ->
    (forall rest,
       lex_token fuel (FILE_BACKED (p :: c :: rest)) =
       match two_char_operator (ch p) (ch c) with
       | Some k => (Done (Some (mk_token k false None)), FILE_BACKED rest)
       | None =>
           match one_char_operator (ch p) with
           | Some k =>
               (Done (Some (mk_token k false None)),
                FILE_BACKED (pushed_back (c :: rest)))
           | None => (Done None, FILE_BACKED rest)
           end
       end) /\
    (ch c <> 255%Z -> forall rest, pushed_back (c :: rest) = c :: rest) /\
    lex_token fuel (FILE_BACKED [p]) =
    match one_char_operator (ch p) with
    | Some k => (Done (Some (mk_token k false None)), FILE_BACKED [])
    | None => (Done None, FILE_BACKED [])
    end /\
    (forall str pos,
       (0 <= pos)%Z ->
       nth_error str (Z.to_nat pos) = Some p ->
       nth_error str (Z.to_nat (pos + 1)) = Some c ->
       lex_token fuel (STRING_BACKED str pos) =
       match two_char_operator (ch p) (string_char c) with
       | Some k =>
           (Done (Some (mk_token k false None)),
            STRING_BACKED str (pos + 2))
       | None =>
           match one_char_operator (ch p) with
           | Some k =>
               (Done (Some (mk_token k false None)),
                STRING_BACKED str (pos + 1))
           | None => (Done None, STRING_BACKED str (pos + 2))
           end
       end).
Proof.
  intros fuel p c Hp. split; [|split; [|split]].
  - intros rest. apply operator_prefix_file; assumption.
  - intros Hc rest. unfold pushed_back.
    destruct (Z.eqb_spec (ch c) 255); [contradiction|reflexivity].
  - apply operator_prefix_file_end; assumption.
  - intros str pos H0 Hnp Hnc. apply operator_prefix_string; assumption.
Qed.

Lemma operator_prefix_maximal_munch_witness :
  lex_token 2 (FILE_BACKED ["<"; "3"; "<"; "="]%char) =
  (Done (Some (mk_token TOK_LT false None)),
   FILE_BACKED ["3"; "<"; "="]%char) /\
  lex_token 2 (FILE_BACKED ["<"; "="; "3"]%char) =
  (Done (Some (mk_token TOK_LTE false None)), FILE_BACKED ["3"]%char).
Proof.
  split.
  - apply (proj1 (operator_prefix_maximal_munch 2 "<" "3"
                    ltac:(simpl; tauto)) ["<"; "="]%char).
  - apply (proj1 (operator_prefix_maximal_munch 2 "<" "="
                    ltac:(simpl; tauto)) ["3"]%char).
Defined.

(** C3, as stated, fails for the prefix [!]: followed by a character other
    than [=], here [a], the lexer emits no token, and the character is not
    pushed back: the source is left after it. *)
Lemma exclamation_mark_alone_is_no_token :
  lex_token 2 (file_of "!a") = (Done None, FILE_BACKED []) /\
  lex_token 2 (string_in_buffer "!a" 2) =
  (Done None, STRING_BACKED (list_ascii_of_string "!a" ++ repeat zero 3) 2) /\
  ~ (exists tok,
       lex_token 2 (file_of "!a") = (Done (Some tok), file_of "a")).
Proof.
  repeat split. intros (tok & H). discriminate H.
Qed.

(** ** Parentheses *)

Lemma rdp_consume_blanks_stay (fuel : nat) (c : rdp_t) (t : token_t) :
  1 <= fuel ->
  nth_error (tokens c) (position c) = Some t ->
  type t <> TOK_SPACE ->
  rdp_consume_blanks fuel c = (Done tt, c).
Proof.
  intros Hf Hn Ht. destruct fuel as [|fuel]; [lia|]. simpl. unfold bind, rdp_peek. rewrite Hn.
  destruct (token_type_eqb (type t) TOK_SPACE) eqn:E; [|reflexivity].
  apply token_type_eqb_eq in E. congruence.
Qed.

Lemma rdp_primary_exp_paren (fuel : nat) (e : M rdp_t node_t)
  (c c1 : rdp_t) (lp rp : token_t) (n : node_t) :
  1 <= fuel ->
  nth_error (tokens c) (position c) = Some lp ->
  type lp = TOK_LPAREN ->
  e (consumed c) = (Done n, c1) ->
  nth_error (tokens c1) (position c1) = Some rp ->
  type rp = TOK_RPAREN ->
  rdp_primary_exp fuel e c = (Done n, consumed c1).
Proof.
  intros Hf Hlp Tlp He Hrp Trp. unfold rdp_primary_exp, bind.
  rewrite (rdp_consume_blanks_stay fuel c lp Hf Hlp)
    by (rewrite Tlp; discriminate).
  unfold rdp_peek at 1. rewrite Hlp, Tlp.
  change (token_type_eqb TOK_LPAREN TOK_LPAREN) with true. cbv beta match.
  unfold rdp_consume at 1. fold (consumed c). rewrite He.
  rewrite (rdp_consume_blanks_stay fuel c1 rp Hf Hrp)
    by (rewrite Trp; discriminate).
  unfold rdp_pop, bind, rdp_peek, rdp_consume, ret. rewrite Hrp, Trp.
  reflexivity.
Qed.

Lemma fold_level_stop (fuel : nat) (ops : list token_type)
  (higher : M rdp_t node_t) (c c1 : rdp_t) (n : node_t) (t : token_t) :
  1 <= fuel ->
  higher c = (Done n, c1) ->
  nth_error (tokens c1) (position c1) = Some t ->
  type t <> TOK_SPACE ->
  is_operator ops (type t) = false ->
  fold_level fuel ops higher c = (Done n, c1).
Proof.
  intros Hf Hh Hn Hs Ho. unfold fold_level, bind. rewrite Hh.
  destruct fuel as [|fuel]; [lia|].
  cbn [fold_level_loop]. unfold bind.
  rewrite (rdp_consume_blanks_stay (S fuel) c1 t Hf Hn Hs).
  unfold rdp_peek. rewrite Hn, Ho. reflexivity.
Qed.

(** A primary expression that is followed by a token on which every loop
    stops is a whole expression. *)
Lemma rdp_ior_exp_stop (fuel : nat) (e : M rdp_t node_t) (c c1 : rdp_t)
  (n : node_t) (t : token_t) :
  1 <= fuel ->
  rdp_primary_exp fuel e c = (Done n, c1) ->
  nth_error (tokens c1) (position c1) = Some t ->
  peek_kind (type t) = TOK_EOF ->
  rdp_ior_exp fuel e c = (Done n, c1).
Proof.
  intros Hf Hp Hn Hk.
  assert (Hs : type t <> TOK_SPACE).
  { intros E. rewrite E in Hk. discriminate. }
  assert (Ho : forall ops, incl ops binary_operators ->
                           is_operator ops (type t) = false).
  { intros ops Hi. destruct (is_operator ops (type t)) eqn:E; [|reflexivity].
    apply (is_operator_incl _ _ _ Hi) in E.
    unfold peek_kind in Hk. rewrite E, orb_true_r in Hk.
    rewrite Hk in E. discriminate. }
  rewrite rdp_ior_exp_fold.
  eapply fold_level_stop;
    [exact Hf| |exact Hn|exact Hs|apply Ho; unfold incl; simpl; tauto].
  rewrite rdp_xor_exp_fold.
  eapply fold_level_stop;
    [exact Hf| |exact Hn|exact Hs|apply Ho; unfold incl; simpl; tauto].
  rewrite rdp_and_exp_fold.
  eapply fold_level_stop;
    [exact Hf| |exact Hn|exact Hs|apply Ho; unfold incl; simpl; tauto].
  rewrite rdp_additive_exp_fold.
  eapply fold_level_stop;
    [exact Hf| |exact Hn|exact Hs|apply Ho; unfold incl; simpl; tauto].
  rewrite rdp_mult_exp_fold.
  eapply fold_level_stop;
    [exact Hf| |exact Hn|exact Hs|apply Ho; unfold incl; simpl; tauto].
  exact Hp.
Qed.

(** If the tokens [ts] are a whole expression, so are they in parentheses,
    and the tree is the same. *)
Lemma parse_tokens_parenthesized (ts : list token_t) (eof lp rp eof' : token_t)
  (root : node_t) (ctx' : rdp_t) :
  parse_tokens (ts ++ [eof]) = (Done root, ctx') ->
  position ctx' = List.length ts ->
  type eof = TOK_EOF -> type lp = TOK_LPAREN -> type rp = TOK_RPAREN ->
  type eof' = TOK_EOF ->
  parse_tokens (lp :: ts ++ [rp; eof']) =
  (Done root,
   mk_rdp (lp :: ts ++ [rp; eof']) (List.length ts + 2)
     (List.length (lp :: ts ++ [rp; eof']))).
Proof.
  intros E Hpos Teof Tlp Trp Teof'.
  set (toks2 := lp :: ts ++ [rp; eof']).
  set (c0 := rdp_init toks2 (List.length toks2)).
  assert (Hlen2 : List.length toks2 = List.length ts + 3).
  { unfold toks2. simpl. rewrite length_app. simpl. lia. }
  (* the expression between the parentheses *)
  unfold parse_tokens, rdp_generate_ast in E.
  destruct (rdp_expression_local _ _ _ _ E) as (_ & _ & Hloc).
  simpl in Hloc. rewrite Nat.sub_0_r, Hpos in Hloc.
  assert (Hw : window (rdp_init (ts ++ [eof]) (List.length (ts ++ [eof])))
                 (consumed c0) (List.length ts)).
  { split; cbn [tokens position rdp_init consumed c0 Nat.add].
    - intros j Hj. destruct (nth_error ts j) as [t|] eqn:Ej.
      + exists t. rewrite nth_error_app1 by lia. split; [exact Ej|].
        unfold toks2. simpl. rewrite nth_error_app1 by lia. exact Ej.
      + apply nth_error_None in Ej. lia.
    - exists eof, rp. rewrite nth_error_app2, Nat.sub_diag by lia.
      split; [reflexivity|]. unfold toks2. simpl.
      rewrite nth_error_app2, Nat.sub_diag by lia.
      split; [reflexivity|]. rewrite Teof, Trp. reflexivity. }
  specialize (Hloc _ Hw).
  assert (Hin : rdp_expression (List.length ts + 4) (consumed c0) =
                (Done root, advanced (consumed c0) (List.length ts))).
  { rewrite <- Hloc. apply rdp_expression_fuel.
    - rewrite Hloc. simpl. congruence.
    - unfold remaining, consumed, c0. simpl tokens. simpl position.
      rewrite Hlen2. lia. }
  (* the primary expression, and the levels above it *)
  unfold parse_tokens, rdp_generate_ast, parse_fuel. fold c0.
  rewrite Hlen2.
  replace (List.length ts + 3 + 2) with (S (List.length ts + 4)) by lia.
  change (rdp_expression (S (List.length ts + 4)) c0)
    with (rdp_ior_exp (List.length ts + 4)
            (rdp_expression (List.length ts + 4)) c0).
  assert (Hp : rdp_primary_exp (List.length ts + 4)
                 (rdp_expression (List.length ts + 4)) c0 =
               (Done root,
                consumed (advanced (consumed c0) (List.length ts)))).
  { apply rdp_primary_exp_paren with (lp := lp) (rp := rp); auto; [lia|].
    unfold advanced, consumed, c0, rdp_init, toks2.
    cbn [tokens position Nat.add nth_error].
    rewrite nth_error_app2, Nat.sub_diag by lia. reflexivity. }
  rewrite (rdp_ior_exp_stop (List.length ts + 4) _ _ _ _ eof'
             ltac:(lia) Hp).
  - unfold advanced, consumed, c0, rdp_init.
    cbn [tokens position length Nat.add]. do 2 f_equal; lia.
  - unfold advanced, consumed, c0, rdp_init, toks2.
    cbn [tokens position Nat.add].
    change (nth_error (lp :: ts ++ [rp; eof']) (S (S (List.length ts))))
      with (nth_error (ts ++ [rp; eof']) (S (List.length ts))).
    rewrite nth_error_app2 by lia.
    replace (S (List.length ts) - List.length ts) with 1 by lia. reflexivity.
  - rewrite Teof'. reflexivity.
Qed.

Lemma alphabet_not_255 (a : ascii) :
  lexer_alphabet a = true -> (ch a =? 255)%Z = false.
Proof.
  intros H. destruct (Z.eqb_spec (ch a) 255) as [E|]; [|reflexivity].
  unfold lexer_alphabet in H. rewrite E in H. discriminate H.
Qed.

Lemma lex_ungetc_alphabet (a : ascii) (fd : list ascii) :
  lexer_alphabet a = true ->
  lex_ungetc (ch a) (FILE_BACKED fd) = (Done tt, FILE_BACKED (a :: fd)).
Proof.
  intros H. rewrite lex_ungetc_file_ch, (alphabet_not_255 a H). reflexivity.
Qed.

Ltac second_char_append :=
  let s1 := fresh "s1" in
  let t' := fresh "t'" in
  let tok := fresh "tok" in
  let r := fresh "r" in
  let Ha := fresh "Ha" in
  let H := fresh "H" in
  let b := fresh "b" in
  intros s1 t' tok r Ha H;
  destruct s1 as [|b s1];
  [ cbv in H;
    first [discriminate H
          | injection H as <- <-; split; [discriminate|reflexivity]]
  | inversion Ha as [|? ? Hb Hs]; subst;
    revert H; rewrite <- app_comm_cons; unfold bind;
    rewrite !lex_getc_file_cons;
    repeat (match goal with
            | |- context [(ch b =? ?x)%Z] => destruct (ch b =? x)%Z
            end);
    unfold bind; rewrite ?(lex_ungetc_alphabet b _ Hb); unfold ret;
    intros H;
    first [discriminate H
          | injection H as <- <-; split; [discriminate|reflexivity]] ].

Lemma lex_chnot_append :
  forall s1 t' tok r,
    in_alphabet s1 ->
    lex_chnot (FILE_BACKED s1) = (Done (Some tok), FILE_BACKED r) ->
    type tok <> TOK_EOF /\
    lex_chnot (FILE_BACKED (s1 ++ closing t')) =
    (Done (Some tok), FILE_BACKED (r ++ closing t')).
Proof. unfold lex_chnot. second_char_append. Qed.

Lemma lex_cheq_append :
  forall s1 t' tok r,
    in_alphabet s1 ->
    lex_cheq (FILE_BACKED s1) = (Done (Some tok), FILE_BACKED r) ->
    type tok <> TOK_EOF /\
    lex_cheq (FILE_BACKED (s1 ++ closing t')) =
    (Done (Some tok), FILE_BACKED (r ++ closing t')).
Proof. unfold lex_cheq. second_char_append. Qed.

Lemma lex_chand_append :
  forall s1 t' tok r,
    in_alphabet s1 ->
    lex_chand (FILE_BACKED s1) = (Done (Some tok), FILE_BACKED r) ->
    type tok <> TOK_EOF /\
    lex_chand (FILE_BACKED (s1 ++ closing t')) =
    (Done (Some tok), FILE_BACKED (r ++ closing t')).
Proof. unfold lex_chand. second_char_append. Qed.

Lemma lex_chor_append :
  forall s1 t' tok r,
    in_alphabet s1 ->
    lex_chor (FILE_BACKED s1) = (Done (Some tok), FILE_BACKED r) ->
    type tok <> TOK_EOF /\
    lex_chor (FILE_BACKED (s1 ++ closing t')) =
    (Done (Some tok), FILE_BACKED (r ++ closing t')).
Proof. unfold lex_chor. second_char_append. Qed.

Lemma lex_chlbr_append :
  forall s1 t' tok r,
    in_alphabet s1 ->
    lex_chlbr (FILE_BACKED s1) = (Done (Some tok), FILE_BACKED r) ->
    type tok <> TOK_EOF /\
    lex_chlbr (FILE_BACKED (s1 ++ closing t')) =
    (Done (Some tok), FILE_BACKED (r ++ closing t')).
Proof. unfold lex_chlbr. second_char_append. Qed.

Lemma lex_chrbr_append :
  forall s1 t' tok r,
    in_alphabet s1 ->
    lex_chrbr (FILE_BACKED s1) = (Done (Some tok), FILE_BACKED r) ->
    type tok <> TOK_EOF /\
    lex_chrbr (FILE_BACKED (s1 ++ closing t')) =
    (Done (Some tok), FILE_BACKED (r ++ closing t')).
Proof. unfold lex_chrbr. second_char_append. Qed.

Lemma lex_chnumber_loop_append :
  forall s1 fuel fuel' number t' num r,
    in_alphabet s1 -> List.length s1 < fuel' ->
    lex_chnumber_loop fuel number (FILE_BACKED s1) =
    (Done num, FILE_BACKED r) ->
    lex_chnumber_loop fuel' number (FILE_BACKED (s1 ++ closing t')) =
    (Done num, FILE_BACKED (r ++ closing t')).
Proof.
  induction s1 as [|b s1 IH]; intros fuel fuel' number t' num r Ha Hf H;
    (destruct fuel as [|fuel]; [discriminate H|]);
    (destruct fuel' as [|fuel']; [simpl in Hf; lia|]).
  - cbv in H. injection H as <- <-. reflexivity.
  - inversion Ha as [|? ? Hb Hs]; subst.
    revert H. rewrite <- app_comm_cons. simpl lex_chnumber_loop.
    unfold bind at 1 3. rewrite !lex_getc_file_cons.
    destruct (ch b =? EOF)%Z.
    + unfold ret. intros H. injection H as <- <-. reflexivity.
    + destruct (isdigit (ch b)); cbn [negb].
      * apply IH; [exact Hs|simpl in Hf; lia].
      * unfold bind. rewrite !(lex_ungetc_alphabet b _ Hb). unfold ret.
        intros H. injection H as <- <-. reflexivity.
Qed.

Lemma lex_chident_loop_append :
  forall s1 fuel fuel' identifier t' ident r,
    in_alphabet s1 -> List.length s1 < fuel' ->
    lex_chident_loop fuel identifier (FILE_BACKED s1) =
    (Done ident, FILE_BACKED r) ->
    lex_chident_loop fuel' identifier (FILE_BACKED (s1 ++ closing t')) =
    (Done ident, FILE_BACKED (r ++ closing t')).
Proof.
  induction s1 as [|b s1 IH]; intros fuel fuel' identifier t' ident r Ha Hf H;
    (destruct fuel as [|fuel]; [discriminate H|]);
    (destruct fuel' as [|fuel']; [simpl in Hf; lia|]).
  - cbv in H. injection H as <- <-. reflexivity.
  - inversion Ha as [|? ? Hb Hs]; subst.
    revert H. rewrite <- app_comm_cons. simpl lex_chident_loop.
    unfold bind at 1 3. rewrite !lex_getc_file_cons.
    destruct (ch b =? EOF)%Z.
    + unfold ret. intros H. injection H as <- <-. reflexivity.
    + destruct (negb (isalpha (ch b)) || (ch b =? ch "_")%Z).
      * unfold bind. rewrite !(lex_ungetc_alphabet b _ Hb). unfold ret.
        intros H. injection H as <- <-. reflexivity.
      * apply IH; [exact Hs|simpl in Hf; lia].
Qed.

Lemma lex_chnumber_append (s1 : list ascii) (fuel fuel' : nat) (c : Z)
  (t' : list ascii) (tok : token_t) (r : list ascii) :
  in_alphabet s1 -> List.length s1 < fuel' ->
  lex_chnumber fuel c (FILE_BACKED s1) = (Done (Some tok), FILE_BACKED r) ->
  type tok <> TOK_EOF /\
  lex_chnumber fuel' c (FILE_BACKED (s1 ++ closing t')) =
  (Done (Some tok), FILE_BACKED (r ++ closing t')).
Proof.
  intros Ha Hf H. unfold lex_chnumber, bind in *.
  destruct (lex_chnumber_loop fuel (vec_char_push vec_char_init c)
              (FILE_BACKED s1)) as [[num| | |] st] eqn:E; try discriminate H.
  unfold ret in H. injection H as <- ->.
  rewrite (lex_chnumber_loop_append s1 fuel fuel' _ t' num r Ha Hf E).
  split; [discriminate|reflexivity].
Qed.

Lemma lex_chident_append (s1 : list ascii) (fuel fuel' : nat) (c : Z)
  (t' : list ascii) (tok : token_t) (r : list ascii) :
  in_alphabet s1 -> List.length s1 < fuel' ->
  lex_chident fuel c (FILE_BACKED s1) = (Done (Some tok), FILE_BACKED r) ->
  type tok <> TOK_EOF /\
  lex_chident fuel' c (FILE_BACKED (s1 ++ closing t')) =
  (Done (Some tok), FILE_BACKED (r ++ closing t')).
Proof.
  intros Ha Hf H. unfold lex_chident, bind in *.
  destruct (lex_chident_loop fuel (vec_char_push vec_char_init c)
              (FILE_BACKED s1)) as [[num| | |] st] eqn:E; try discriminate H.
  unfold ret in H. injection H as <- ->.
  rewrite (lex_chident_loop_append s1 fuel fuel' _ t' num r Ha Hf E).
  split; [discriminate|reflexivity].
Qed.

Ltac chain_branch Hs Hf :=
  let H := fresh "H" in
  intros H;
  first [ injection H as <- <-; split; [discriminate|reflexivity]
        | apply lex_chnot_append; assumption
        | apply lex_cheq_append; assumption
        | apply lex_chand_append; assumption
        | apply lex_chor_append; assumption
        | apply lex_chlbr_append; assumption
        | apply lex_chrbr_append; assumption
        | eapply lex_chnumber_append; [exact Hs|exact Hf|exact H]
        | eapply lex_chident_append; [exact Hs|exact Hf|exact H] ].

Lemma lex_switch_append (a : ascii) (s1 t' : list ascii) (fuel fuel' : nat)
  (tok : token_t) (r : list ascii) :
  lexer_alphabet a = true -> isspace (ch a) = false ->
  in_alphabet s1 -> List.length s1 < fuel' ->
  lex_switch fuel (FILE_BACKED (a :: s1)) =
  (Done (Some tok), FILE_BACKED r) ->
  type tok <> TOK_EOF /\
  lex_switch fuel' (FILE_BACKED (a :: s1 ++ closing t')) =
  (Done (Some tok), FILE_BACKED (r ++ closing t')).
Proof.
  intros Ha Hsp Hs Hf H. revert H.
  unfold lexer_alphabet in Ha. cbv zeta in Ha. rewrite Hsp in Ha.
  rewrite !lex_switch_file_cons. unfold lex_dispatch.
  repeat (match goal with
          | |- (if (?x || ?y || ?z)%bool then _ else _) _ = _ -> _ =>
              destruct x eqn:?; [|destruct y eqn:?; [|destruct z eqn:?]];
              cbn [orb]
          | |- (if ?c then _ else _) _ = _ -> _ => destruct c eqn:?
          end;
          try solve [chain_branch Hs Hf | discriminate Ha]).
Qed.

Lemma lex_token_file_space (fuel : nat) (a : ascii) (fd : list ascii) :
  isspace (ch a) = true ->
  lex_token fuel (FILE_BACKED (a :: fd)) =
  (Done (Some (lex_mkspecial TOK_SPACE)), FILE_BACKED fd).
Proof.
  intros Hs. rewrite lex_token_switch. unfold lex_skip_space, bind.
  rewrite lex_getc_file_cons.
  pose proof (ch_range a) as Hr.
  destruct (Z.eqb_spec (ch a) EOF) as [E|_]; [unfold EOF in E; lia|].
  rewrite Hs. reflexivity.
Qed.

Lemma lex_token_append (a : ascii) (s1 t' : list ascii) (fuel fuel' : nat)
  (tok : token_t) (r : list ascii) :
  in_alphabet (a :: s1) -> List.length s1 < fuel' ->
  lex_token fuel (FILE_BACKED (a :: s1)) =
  (Done (Some tok), FILE_BACKED r) ->
  type tok <> TOK_EOF /\
  lex_token fuel' (FILE_BACKED ((a :: s1) ++ closing t')) =
  (Done (Some tok), FILE_BACKED (r ++ closing t')).
Proof.
  intros Ha Hf H. inversion Ha as [|? ? Hb Hs]; subst.
  rewrite <- app_comm_cons.
  destruct (isspace (ch a)) eqn:Hsp.
  - rewrite lex_token_file_space in * by exact Hsp.
    injection H as <- <-. split; [discriminate|reflexivity].
  - rewrite lex_token_file_nonspace in *
      by (exact Hsp || apply alphabet_not_255; exact Hb).
    apply lex_switch_append with (fuel := fuel); assumption.
Qed.

Lemma lex_line_append :
  forall n s acc acc' n' toks st,
    in_alphabet s ->
    List.length s + 1 <= n -> List.length s + 2 <= n' ->
    lex_line n acc (FILE_BACKED s) = (Done (Some toks), st) ->
    exists body,
      toks = acc ++ body ++ [lex_mkspecial TOK_EOF] /\
      Forall not_eof body /\
      lex_line n' acc' (FILE_BACKED (s ++ closing [])) =
      (Done (Some (acc' ++ body ++
                     [lex_mkkw TOK_RPAREN; lex_mkspecial TOK_EOF])),
       FILE_BACKED []).
Proof.
  induction n as [|n IH]; intros s acc acc' n' toks st Ha Hn Hn' H; [lia|].
  destruct n' as [|n']; [lia|].
  destruct s as [|a s1].
  - cbn in H. injection H as <- _. exists []. split; [reflexivity|].
    split; [constructor|].
    destruct n' as [|n']; [simpl in Hn'; lia|].
    cbn. unfold vec_token_push. rewrite <- app_assoc. reflexivity.
  - simpl in Hn, Hn'. revert H. simpl lex_line. unfold bind.
    destruct (lex_token_file a s1 n)
      as (tok & r & E & (pre & Hp & Hk) & _); [lia|].
    rewrite E. destruct tok as [t|]; [|discriminate].
    destruct (lex_token_append a s1 [] n n' t r Ha ltac:(lia) E) as [Ht E'].
    rewrite <- app_comm_cons in E'. rewrite E'.
    replace (token_type_eqb (type t) TOK_EOF) with false.
    2:{ symmetry. destruct (token_type_eqb (type t) TOK_EOF) eqn:Et;
          [|reflexivity]. apply token_type_eqb_eq in Et. congruence. }
    cbn [negb]. intros H.
    assert (Hr : in_alphabet r).
    { unfold in_alphabet in *. rewrite Hp in Ha.
      apply Forall_app in Ha. tauto. }
    assert (Hl : List.length r < List.length (a :: s1)).
    { rewrite Hp, length_app. lia. }
    simpl in Hl.
    destruct (IH r (vec_token_push acc t) (vec_token_push acc' t) n' toks st
                Hr ltac:(lia) ltac:(lia) H) as (body & -> & Hb & Er).
    exists (t :: body). unfold vec_token_push in *.
    rewrite <- !app_assoc in *. split; [reflexivity|].
    split; [constructor; assumption|]. exact Er.
Qed.

Lemma list_ascii_of_string_append (s1 s2 : string) :
  list_ascii_of_string (s1 ++ s2) =
  list_ascii_of_string s1 ++ list_ascii_of_string s2.
Proof.
  induction s1 as [|a s1 IH]; simpl; [reflexivity|]. rewrite IH. reflexivity.
Qed.

Lemma lex_token_file_lparen (fuel : nat) (fd : list ascii) :
  lex_token fuel (FILE_BACKED ("("%char :: fd)) =
  (Done (Some (lex_mkkw TOK_LPAREN)), FILE_BACKED fd).
Proof.
  rewrite lex_token_file_nonspace by reflexivity.
  rewrite lex_switch_file_cons. reflexivity.
Qed.

(** ** The string backing, in a buffer padded with zero bytes

    [in_buffer pre fd k] is the string backing whose cursor is behind the
    bytes [pre]; [fd] is what the file backing would still have to read,
    and [k] zero bytes follow: the terminator and the padding. *)

Lemma alphabet_char (a : ascii) :
  lexer_alphabet a = true -> to_char (ch a) = ch a /\ ch a <> 0%Z.
Proof.
  destruct a as [[] [] [] [] [] [] [] []]; intros H;
    vm_compute in H; try discriminate H;
    (split; [reflexivity|discriminate]).
Qed.

Lemma in_buffer_snoc (pre : list ascii) (a : ascii) (fd : list ascii)
  (k : nat) :
  STRING_BACKED (pre ++ (a :: fd) ++ repeat zero k)
    (Z.of_nat (List.length pre) + 1) =
  in_buffer (pre ++ [a]) fd k.
Proof.
  unfold in_buffer. rewrite <- app_assoc, length_app. simpl.
  f_equal. lia.
Qed.

Lemma lex_getc_buffer_cons (pre : list ascii) (a : ascii) (fd : list ascii)
  (k : nat) :
  lexer_alphabet a = true ->
  lex_getc (in_buffer pre (a :: fd) k) =
  (Done (ch a), in_buffer (pre ++ [a]) fd k).
Proof.
  intros H. destruct (alphabet_char a H) as [Hc Hz].
  unfold lex_getc, in_buffer at 1.
  destruct (Z.ltb_spec (Z.of_nat (List.length pre)) 0) as [L|_]; [lia|].
  rewrite Nat2Z.id, nth_error_app2, Nat.sub_diag by lia.
  cbn [app nth_error]. rewrite Hc.
  destruct (Z.eqb_spec (ch a) 0) as [E|_]; [contradiction|].
  f_equal. apply in_buffer_snoc.
Qed.

Lemma lex_getc_buffer_nil (pre : list ascii) (k : nat) :
  lex_getc (in_buffer pre [] (S k)) =
  (Done EOF, in_buffer (pre ++ [zero]) [] k).
Proof.
  unfold lex_getc, in_buffer at 1.
  destruct (Z.ltb_spec (Z.of_nat (List.length pre)) 0) as [L|_]; [lia|].
  rewrite Nat2Z.id, nth_error_app2, Nat.sub_diag by lia.
  cbn [app repeat nth_error].
  change (to_char (ch zero) =? 0)%Z with true. cbv beta iota.
  f_equal. apply (in_buffer_snoc pre zero [] k).
Qed.

Lemma lex_ungetc_buffer (c : Z) (pre : list ascii) (a : ascii)
  (fd : list ascii) (k : nat) :
  lex_ungetc c (in_buffer (pre ++ [a]) fd k) =
  (Done tt, in_buffer pre (a :: fd) k).
Proof.
  rewrite <- in_buffer_snoc. unfold lex_ungetc, in_buffer.
  f_equal. f_equal. lia.
Qed.

Lemma lex_ungetc_buffer_nil (c : Z) (pre : list ascii) (k : nat) :
  lex_ungetc c (in_buffer (pre ++ [zero]) [] k) =
  (Done tt, in_buffer pre [] (S k)).
Proof. rewrite lex_ungetc_buffer. reflexivity. Qed.

Ltac buffer_done :=
  eexists _, _; split; [reflexivity|];
  first [left; reflexivity | right; split; reflexivity].

Ltac second_char_buffer :=
  let s1 := fresh "s1" in
  let tok := fresh "tok" in
  let r := fresh "r" in
  let pre := fresh "pre" in
  let k := fresh "k" in
  let Ha := fresh "Ha" in
  let H := fresh "H" in
  let b := fresh "b" in
  let Hb := fresh "Hb" in
  let Hs := fresh "Hs" in
  intros s1 tok r pre k Ha H;
  destruct s1 as [|b s1];
  [ cbv in H; injection H as <- <-;
    unfold bind; rewrite lex_getc_buffer_nil; closed_conditions;
    unfold bind; rewrite ?lex_ungetc_buffer_nil; unfold ret; buffer_done
  | inversion Ha as [|? ? Hb Hs]; subst;
    revert H; unfold bind;
    rewrite lex_getc_file_cons, (lex_getc_buffer_cons _ _ _ _ Hb);
    repeat (match goal with
            | |- context [(ch b =? ?x)%Z] => destruct (ch b =? x)%Z
            end);
    unfold bind;
    rewrite ?(lex_ungetc_alphabet b _ Hb), ?lex_ungetc_buffer; unfold ret;
    intros H; injection H as <- <-; buffer_done ].

Lemma lex_chnot_buffer :
  forall s1 tok r pre k,
    in_alphabet s1 ->
    lex_chnot (FILE_BACKED s1) = (Done tok, FILE_BACKED r) ->
    exists pre' k',
      lex_chnot (in_buffer pre s1 (S k)) = (Done tok, in_buffer pre' r k') /\
      spent (S k) k' r.
Proof. unfold lex_chnot. second_char_buffer. Qed.

Lemma lex_cheq_buffer :
  forall s1 tok r pre k,
    in_alphabet s1 ->
    lex_cheq (FILE_BACKED s1) = (Done tok, FILE_BACKED r) ->
    exists pre' k',
      lex_cheq (in_buffer pre s1 (S k)) = (Done tok, in_buffer pre' r k') /\
      spent (S k) k' r.
Proof. unfold lex_cheq. second_char_buffer. Qed.

Lemma lex_chand_buffer :
  forall s1 tok r pre k,
    in_alphabet s1 ->
    lex_chand (FILE_BACKED s1) = (Done tok, FILE_BACKED r) ->
    exists pre' k',
      lex_chand (in_buffer pre s1 (S k)) = (Done tok, in_buffer pre' r k') /\
      spent (S k) k' r.
Proof. unfold lex_chand. second_char_buffer. Qed.

Lemma lex_chor_buffer :
  forall s1 tok r pre k,
    in_alphabet s1 ->
    lex_chor (FILE_BACKED s1) = (Done tok, FILE_BACKED r) ->
    exists pre' k',
      lex_chor (in_buffer pre s1 (S k)) = (Done tok, in_buffer pre' r k') /\
      spent (S k) k' r.
Proof. unfold lex_chor. second_char_buffer. Qed.

Lemma lex_chlbr_buffer :
  forall s1 tok r pre k,
    in_alphabet s1 ->
    lex_chlbr (FILE_BACKED s1) = (Done tok, FILE_BACKED r) ->
    exists pre' k',
      lex_chlbr (in_buffer pre s1 (S k)) = (Done tok, in_buffer pre' r k') /\
      spent (S k) k' r.
Proof. unfold lex_chlbr. second_char_buffer. Qed.

Lemma lex_chrbr_buffer :
  forall s1 tok r pre k,
    in_alphabet s1 ->
    lex_chrbr (FILE_BACKED s1) = (Done tok, FILE_BACKED r) ->
    exists pre' k',
      lex_chrbr (in_buffer pre s1 (S k)) = (Done tok, in_buffer pre' r k') /\
      spent (S k) k' r.
Proof. unfold lex_chrbr. second_char_buffer. Qed.

Lemma lex_chnumber_loop_buffer :
  forall s1 fuel fuel' number num r pre k,
    in_alphabet s1 -> List.length s1 < fuel' ->
    lex_chnumber_loop fuel number (FILE_BACKED s1) =
    (Done num, FILE_BACKED r) ->
    exists pre' k',
      lex_chnumber_loop fuel' number (in_buffer pre s1 (S k)) =
      (Done num, in_buffer pre' r k') /\
      spent (S k) k' r.
Proof.
  induction s1 as [|b s1 IH]; intros fuel fuel' number num r pre k Ha Hf H;
    (destruct fuel as [|fuel]; [discriminate H|]);
    (destruct fuel' as [|fuel']; [simpl in Hf; lia|]).
  - cbv in H. injection H as <- <-.
    simpl lex_chnumber_loop. unfold bind. rewrite lex_getc_buffer_nil.
    closed_conditions. unfold ret. buffer_done.
  - inversion Ha as [|? ? Hb Hs]; subst.
    revert H. simpl lex_chnumber_loop. unfold bind at 1 3.
    rewrite lex_getc_file_cons, (lex_getc_buffer_cons _ _ _ _ Hb).
    destruct (ch b =? EOF)%Z.
    + unfold ret. intros H. injection H as <- <-. buffer_done.
    + destruct (isdigit (ch b)); cbn [negb].
      * apply IH; [exact Hs|simpl in Hf; lia].
      * unfold bind.
        rewrite (lex_ungetc_alphabet b _ Hb), lex_ungetc_buffer. unfold ret.
        intros H. injection H as <- <-. buffer_done.
Qed.

Lemma lex_chident_loop_buffer :
  forall s1 fuel fuel' identifier ident r pre k,
    in_alphabet s1 -> List.length s1 < fuel' ->
    lex_chident_loop fuel identifier (FILE_BACKED s1) =
    (Done ident, FILE_BACKED r) ->
    exists pre' k',
      lex_chident_loop fuel' identifier (in_buffer pre s1 (S k)) =
      (Done ident, in_buffer pre' r k') /\
      spent (S k) k' r.
Proof.
  induction s1 as [|b s1 IH];
    intros fuel fuel' identifier ident r pre k Ha Hf H;
    (destruct fuel as [|fuel]; [discriminate H|]);
    (destruct fuel' as [|fuel']; [simpl in Hf; lia|]).
  - cbv in H. injection H as <- <-.
    simpl lex_chident_loop. unfold bind. rewrite lex_getc_buffer_nil.
    closed_conditions. unfold ret. buffer_done.
  - inversion Ha as [|? ? Hb Hs]; subst.
    revert H. simpl lex_chident_loop. unfold bind at 1 3.
    rewrite lex_getc_file_cons, (lex_getc_buffer_cons _ _ _ _ Hb).
    destruct (ch b =? EOF)%Z.
    + unfold ret. intros H. injection H as <- <-. buffer_done.
    + destruct (negb (isalpha (ch b)) || (ch b =? ch "_")%Z).
      * unfold bind.
        rewrite (lex_ungetc_alphabet b _ Hb), lex_ungetc_buffer. unfold ret.
        intros H. injection H as <- <-. buffer_done.
      * apply IH; [exact Hs|simpl in Hf; lia].
Qed.

Lemma lex_chnumber_buffer (s1 : list ascii) (fuel fuel' : nat) (c : Z)
  (tok : option token_t) (r pre : list ascii) (k : nat) :
  in_alphabet s1 -> List.length s1 < fuel' ->
  lex_chnumber fuel c (FILE_BACKED s1) = (Done tok, FILE_BACKED r) ->
  exists pre' k',
    lex_chnumber fuel' c (in_buffer pre s1 (S k)) =
    (Done tok, in_buffer pre' r k') /\
    spent (S k) k' r.
Proof.
  intros Ha Hf H. unfold lex_chnumber, bind in *.
  destruct (lex_chnumber_loop fuel (vec_char_push vec_char_init c)
              (FILE_BACKED s1)) as [[num| | |] st] eqn:E; try discriminate H.
  unfold ret in H. injection H as <- ->.
  destruct (lex_chnumber_loop_buffer s1 fuel fuel' _ num r pre k Ha Hf E)
    as (pre' & k' & E' & Hk).
  rewrite E'. exists pre', k'. split; [reflexivity|exact Hk].
Qed.

Lemma lex_chident_buffer (s1 : list ascii) (fuel fuel' : nat) (c : Z)
  (tok : option token_t) (r pre : list ascii) (k : nat) :
  in_alphabet s1 -> List.length s1 < fuel' ->
  lex_chident fuel c (FILE_BACKED s1) = (Done tok, FILE_BACKED r) ->
  exists pre' k',
    lex_chident fuel' c (in_buffer pre s1 (S k)) =
    (Done tok, in_buffer pre' r k') /\
    spent (S k) k' r.
Proof.
  intros Ha Hf H. unfold lex_chident, bind in *.
  destruct (lex_chident_loop fuel (vec_char_push vec_char_init c)
              (FILE_BACKED s1)) as [[num| | |] st] eqn:E; try discriminate H.
  unfold ret in H. injection H as <- ->.
  destruct (lex_chident_loop_buffer s1 fuel fuel' _ num r pre k Ha Hf E)
    as (pre' & k' & E' & Hk).
  rewrite E'. exists pre', k'. split; [reflexivity|exact Hk].
Qed.

Ltac buffer_branch Hs Hf :=
  let H := fresh "H" in
  intros H;
  first [ injection H as <- <-; buffer_done
        | apply lex_chnot_buffer; assumption
        | apply lex_cheq_buffer; assumption
        | apply lex_chand_buffer; assumption
        | apply lex_chor_buffer; assumption
        | apply lex_chlbr_buffer; assumption
        | apply lex_chrbr_buffer; assumption
        | eapply lex_chnumber_buffer; [exact Hs|exact Hf|exact H]
        | eapply lex_chident_buffer; [exact Hs|exact Hf|exact H] ].

Lemma lex_switch_buffer_cons (fuel : nat) (a : ascii) (pre fd : list ascii)
  (k : nat) :
  lexer_alphabet a = true ->
  lex_switch fuel (in_buffer pre (a :: fd) k) =
  lex_dispatch fuel (ch a) (in_buffer (pre ++ [a]) fd k).
Proof.
  intros Ha. unfold lex_switch, bind.
  rewrite (lex_getc_buffer_cons _ _ _ _ Ha). reflexivity.
Qed.

Lemma lex_switch_buffer (a : ascii) (s1 : list ascii) (fuel fuel' : nat)
  (tok : option token_t) (r pre : list ascii) (k : nat) :
  lexer_alphabet a = true -> isspace (ch a) = false ->
  in_alphabet s1 -> List.length s1 < fuel' ->
  lex_switch fuel (FILE_BACKED (a :: s1)) = (Done tok, FILE_BACKED r) ->
  exists pre' k',
    lex_switch fuel' (in_buffer pre (a :: s1) (S k)) =
    (Done tok, in_buffer pre' r k') /\
    spent (S k) k' r.
Proof.
  intros Ha Hsp Hs Hf H. revert H.
  rewrite (lex_switch_buffer_cons _ _ _ _ _ Ha).
  unfold lexer_alphabet in Ha. cbv zeta in Ha. rewrite Hsp in Ha.
  rewrite !lex_switch_file_cons. unfold lex_dispatch.
  repeat (match goal with
          | |- (if (?x || ?y || ?z)%bool then _ else _) _ = _ -> _ =>
              destruct x eqn:?; [|destruct y eqn:?; [|destruct z eqn:?]];
              cbn [orb]
          | |- (if ?c then _ else _) _ = _ -> _ => destruct c eqn:?
          end;
          try solve [buffer_branch Hs Hf | discriminate Ha]).
Qed.

Lemma lex_token_buffer_space (fuel : nat) (a : ascii) (pre fd : list ascii)
  (k : nat) :
  lexer_alphabet a = true -> isspace (ch a) = true ->
  lex_token fuel (in_buffer pre (a :: fd) k) =
  (Done (Some (lex_mkspecial TOK_SPACE)), in_buffer (pre ++ [a]) fd k).
Proof.
  intros Ha Hs. rewrite lex_token_switch. unfold lex_skip_space, bind.
  rewrite (lex_getc_buffer_cons _ _ _ _ Ha).
  pose proof (ch_range a) as Hr.
  destruct (Z.eqb_spec (ch a) EOF) as [E|_]; [unfold EOF in E; lia|].
  rewrite Hs. reflexivity.
Qed.

Lemma lex_token_buffer_nonspace (fuel : nat) (a : ascii)
  (pre fd : list ascii) (k : nat) :
  lexer_alphabet a = true -> isspace (ch a) = false ->
  lex_token fuel (in_buffer pre (a :: fd) k) =
  lex_switch fuel (in_buffer pre (a :: fd) k).
Proof.
  intros Ha Hs. rewrite lex_token_switch. unfold lex_skip_space, bind.
  rewrite (lex_getc_buffer_cons _ _ _ _ Ha).
  pose proof (ch_range a) as Hr.
  destruct (Z.eqb_spec (ch a) EOF) as [E|_]; [unfold EOF in E; lia|].
  rewrite Hs. unfold bind. rewrite lex_ungetc_buffer. reflexivity.
Qed.

(** At the end of the text a call reads two zero bytes, the second of
    them behind the terminator. *)
Lemma lex_token_buffer_nil (fuel : nat) (pre : list ascii) (k : nat) :
  lex_token fuel (in_buffer pre [] (S (S k))) =
  (Done (Some (lex_mkspecial TOK_EOF)),
   in_buffer ((pre ++ [zero]) ++ [zero]) [] k).
Proof.
  rewrite lex_token_switch. unfold lex_skip_space, bind.
  rewrite lex_getc_buffer_nil. closed_conditions. unfold ret.
  unfold lex_switch, bind. rewrite lex_getc_buffer_nil. reflexivity.
Qed.

Lemma lex_token_buffer (a : ascii) (s1 : list ascii) (fuel fuel' : nat)
  (tok : option token_t) (r pre : list ascii) (k : nat) :
  in_alphabet (a :: s1) -> List.length s1 < fuel' ->
  lex_token fuel (FILE_BACKED (a :: s1)) = (Done tok, FILE_BACKED r) ->
  exists pre' k',
    lex_token fuel' (in_buffer pre (a :: s1) (S k)) =
    (Done tok, in_buffer pre' r k') /\
    spent (S k) k' r.
Proof.
  intros Ha Hf H. inversion Ha as [|? ? Hb Hs]; subst.
  destruct (isspace (ch a)) eqn:Hsp.
  - rewrite lex_token_file_space in H by exact Hsp.
    rewrite lex_token_buffer_space by assumption.
    injection H as <- <-. buffer_done.
  - rewrite lex_token_file_nonspace in H
      by (exact Hsp || apply alphabet_not_255; exact Hb).
    rewrite lex_token_buffer_nonspace by assumption.
    apply lex_switch_buffer with (fuel := fuel); assumption.
Qed.

Lemma lex_line_buffer :
  forall n s acc n' res st pre k,
    in_alphabet s ->
    List.length s + 1 <= n -> List.length s + 2 <= n' -> 3 <= k ->
    lex_line n acc (FILE_BACKED s) = (Done res, st) ->
    fst (lex_line n' acc (in_buffer pre s k)) = Done res.
Proof.
  induction n as [|n IH]; intros s acc n' res st pre k Ha Hn Hn' Hk H;
    [lia|].
  destruct n' as [|n']; [lia|].
  destruct s as [|a s1].
  - cbn in H. injection H as <- _.
    destruct k as [|[|k]]; [lia|lia|].
    simpl lex_line. unfold bind. rewrite lex_token_buffer_nil. reflexivity.
  - simpl in Hn, Hn'. revert H. simpl lex_line. unfold bind.
    destruct (lex_token_file a s1 n)
      as (tok & r & E & (pre0 & Hp & Hl) & _); [lia|].
    rewrite E.
    destruct k as [|k]; [lia|].
    destruct (lex_token_buffer a s1 n n' tok r pre k Ha ltac:(lia) E)
      as (pre' & k' & E' & Hs).
    rewrite E'. destruct tok as [t|].
    + destruct (negb (token_type_eqb (type t) TOK_EOF)).
      * intros H.
        assert (Hr : in_alphabet r).
        { unfold in_alphabet in *. rewrite Hp in Ha.
          apply Forall_app in Ha. tauto. }
        assert (Hlen : List.length r < List.length (a :: s1)).
        { rewrite Hp, length_app. lia. }
        simpl in Hlen.
        destruct Hs as [->|[-> Hs]].
        -- eapply IH; [exact Hr|lia|lia|lia|exact H].
        -- destruct n as [|n]; [lia|]. destruct n' as [|n']; [lia|].
           destruct k' as [|[|k']]; [lia|lia|].
           revert H. simpl lex_line. unfold bind.
           rewrite lex_token_buffer_nil. cbn.
           intros H. injection H as <- _. reflexivity.
      * unfold ret. intros H. injection H as <- _. reflexivity.
    + unfold ret. intros H. injection H as <- _. reflexivity.
Qed.

(** A text written in the characters the lexer knows is turned into the
    same tokens from a string as from a file, when two zero bytes follow
    the terminator of the string. *)
Lemma lex_all_buffer (text : string) (pad : nat)
  (res : option (list token_t)) :
  in_alphabet (list_ascii_of_string text) -> 2 <= pad ->
  lex_all (file_of text) = Done res ->
  lex_all (string_in_buffer text pad) = Done res.
Proof.
  intros Ha Hp H. unfold lex_all, file_of, lex_init_file, line_fuel in H.
  cbn [lex_remaining] in H.
  destruct (lex_line (List.length (list_ascii_of_string text) + 2) []
              (FILE_BACKED (list_ascii_of_string text))) as [o st] eqn:E.
  simpl in H. subst o.
  unfold lex_all, string_in_buffer, lex_init_string.
  change (STRING_BACKED (list_ascii_of_string text ++ repeat zero (S pad)) 0)
    with (in_buffer [] (list_ascii_of_string text) (S pad)).
  eapply lex_line_buffer; [exact Ha| | | |exact E]; try lia.
  unfold line_fuel, in_buffer, lex_remaining.
  cbn [app List.length Z.of_nat Z.to_nat].
  rewrite length_app, repeat_length. lia.
Qed.

Lemma interpret_buffer (text : string) (pad : nat) (root : node_t) :
  in_alphabet (list_ascii_of_string text) -> 2 <= pad ->
  interpret (file_of text) = Done (Some root) ->
  interpret (string_in_buffer text pad) = Done (Some root).
Proof.
  intros Ha Hp H. unfold interpret in *.
  destruct (lex_all (file_of text)) as [[toks|]| | |] eqn:E;
    try discriminate H.
  rewrite (lex_all_buffer text pad (Some toks) Ha Hp E). exact H.
Qed.

(** On a file the driver's calls of the lexer end, for every content. *)
Lemma lex_all_file (bytes : list ascii) :
  exists r,
    lex_all (lex_init_file bytes) = Done r /\
    match r with
    | Some toks =>
        well_formed_sequence toks = true /\
        List.length toks <= List.length bytes + 1
    | None => In "!"%char bytes
    end.
Proof.
  unfold lex_all, lex_init_file, line_fuel.
  destruct (lex_line_file (lex_remaining (FILE_BACKED bytes) + 2) bytes [])
    as (r & fd' & E & _ & Hr); [simpl; lia|].
  exists r. rewrite E. split; [reflexivity|].
  destruct r as [toks|]; [|exact Hr].
  destruct Hr as (body & eof & -> & He & Hb & Hl). simpl.
  split; [apply well_formed_sequence_app; auto|].
  rewrite length_app. simpl. lia.
Qed.

(** The string backing reads behind the terminator: after a number at the
    end of the text the next call reads the two bytes that follow the
    terminator, and leaves the array when there is only one. *)
Lemma lexer_reads_behind_terminator :
  lex_all (string_in_buffer "1" 0) = Fault OutOfBounds /\
  lex_all (string_in_buffer "1" 1) = Fault OutOfBounds /\
  lex_all (string_in_buffer "1" 2) = lex_all (file_of "1").
Proof. repeat split. Qed.

(** C7, as amended.  On a file the calls of the lexer made by the driver
    come to an end for every content: after at most one call for each byte
    and one more, either an end of input token has been returned, and it is
    the last and only such token of the sequence, or a call has returned
    the null pointer, which happens only when the input holds an
    exclamation mark.  Every token has a kind of the enumeration
    [token_type].  A string that holds a text written in the characters
    the lexer knows, in a buffer where two zero bytes follow the
    terminator, gives the calls and the results of the file with this
    text. *)
Theorem lexing_a_file_ends :
  (forall bytes,
   exists r,
     lex_all (lex_init_file bytes) = Done r /\
     match r with
     | Some toks =>
         well_formed_sequence toks = true /\
         List.length toks <= List.length bytes + 1
     | None => In "!"%char bytes
     end) /\
  (forall text pad,
     in_alphabet (list_ascii_of_string text) -> 2 <= pad ->
     lex_all (string_in_buffer text pad) = lex_all (file_of text)).
Proof.
  split; [exact lex_all_file|].
  intros text pad Ha Hp.
  destruct (lex_all_file (list_ascii_of_string text)) as (r & E & _).
  change (lex_init_file (list_ascii_of_string text)) with (file_of text) in E.
  rewrite E. apply lex_all_buffer; assumption.
Qed.

Lemma lexing_a_file_ends_witness :
  lex_all (string_in_buffer "1+2 " 2) = lex_all (file_of "1+2 ").
Proof.
  apply (proj2 lexing_a_file_ends "1+2 "%string 2);
    [repeat constructor|lia].
Defined.

(** C7, as stated, fails: on the input [!1] the first call of the lexer
    returns the null pointer, not a token, and the driver stops without an
    end of input token. *)
Lemma lexer_returns_null :
  fst (lex_token 3 (file_of "!1")) = Done None /\
  fst (lex_token 3 (string_in_buffer "!1" 2)) = Done None /\
  lex_all (file_of "!1") = Done None /\
  ~ (exists tok, fst (lex_token 3 (file_of "!1")) = Done (Some tok)).
Proof.
  repeat split. intros (tok & H). discriminate H.
Qed.

(** C5.  For every valid expression text [E], the text ["(" ++ E ++ ")"]
    is parsed to the very tree [E] is parsed to: the primary rule consumes
    the two parentheses and returns the node of the expression between
    them, with no node added.  The text in parentheses is valid again, and
    the trees are the same when the texts are read from strings in buffers
    where two zero bytes follow the terminator. *)
Theorem parentheses_add_no_node :
  forall E root,
    valid_expression E root ->
    interpret (file_of E) = Done (Some root) /\
    interpret (file_of ("(" ++ E ++ ")")) = Done (Some root) /\
    valid_expression ("(" ++ E ++ ")") root /\
    (forall pad,
       2 <= pad ->
       interpret (string_in_buffer E pad) = Done (Some root) /\
       interpret (string_in_buffer ("(" ++ E ++ ")") pad) =
       Done (Some root)).
Proof.
  intros E root (Ha & toks & ctx' & Hl & Hp & Hc).
  assert (HE : interpret (file_of E) = Done (Some root)).
  { unfold interpret. rewrite Hl, Hp. reflexivity. }
  split; [exact HE|].
  unfold lex_all, file_of, lex_init_file, line_fuel in Hl.
  cbn [lex_remaining] in Hl.
  destruct (lex_line (List.length (list_ascii_of_string E) + 2) []
              (FILE_BACKED (list_ascii_of_string E))) as [o st] eqn:El.
  simpl in Hl. subst o.
  destruct (lex_line_append (List.length (list_ascii_of_string E) + 2)
              (list_ascii_of_string E) [] [lex_mkkw TOK_LPAREN]
              (List.length (list_ascii_of_string E) + 3) toks st Ha
              ltac:(lia) ltac:(lia) El) as (body & -> & Hb & Er).
  simpl app in Hp, Hc.
  assert (Hpos : position ctx' = List.length body).
  { rewrite length_app in Hc. simpl in Hc. lia. }
  assert (Hlex : lex_all (file_of ("(" ++ E ++ ")")) =
                 Done (Some (lex_mkkw TOK_LPAREN :: body ++
                               [lex_mkkw TOK_RPAREN; lex_mkspecial TOK_EOF]))).
  { unfold lex_all, file_of, lex_init_file, line_fuel.
    rewrite !list_ascii_of_string_append.
    change (list_ascii_of_string "(") with ["("%char].
    change (list_ascii_of_string ")") with (closing []).
    cbn [lex_remaining app List.length].
    rewrite length_app. cbn [closing List.length].
    replace (S (List.length (list_ascii_of_string E) + 1) + 2)
      with (S (List.length (list_ascii_of_string E) + 3)) by lia.
    cbn [lex_line]. unfold bind. rewrite lex_token_file_lparen.
    cbn [type lex_mkkw negb]. change (token_type_eqb TOK_LPAREN TOK_EOF) with false.
    cbn [negb]. unfold vec_token_push at 1. cbn [app].
    rewrite Er. reflexivity. }
  pose proof (parse_tokens_parenthesized body (lex_mkspecial TOK_EOF)
                (lex_mkkw TOK_LPAREN) (lex_mkkw TOK_RPAREN)
                (lex_mkspecial TOK_EOF) root ctx' Hp Hpos
                eq_refl eq_refl eq_refl eq_refl) as Hpar.
  assert (HP : interpret (file_of ("(" ++ E ++ ")")) = Done (Some root)).
  { unfold interpret. rewrite Hlex, Hpar. reflexivity. }
  assert (Ha' : in_alphabet (list_ascii_of_string ("(" ++ E ++ ")"))).
  { rewrite !list_ascii_of_string_append.
    apply Forall_app. split; [repeat constructor|].
    apply Forall_app. split; [exact Ha|repeat constructor]. }
  split; [exact HP|]. split.
  - split; [exact Ha'|].
    eexists _, _. split; [exact Hlex|]. split; [exact Hpar|].
    cbn [position List.length]. rewrite length_app. simpl. lia.
  - intros pad Hpad. split; apply interpret_buffer; assumption.
Qed.

Lemma parentheses_add_no_node_witness :
  interpret (file_of "1+2*3") =
  Done (Some (Binary TOK_PLUS (Leaf 1) (Binary TOK_MULTIPLY (Leaf 2) (Leaf 3))))
  /\
  interpret (file_of ("(" ++ "1+2*3" ++ ")")) =
  Done (Some (Binary TOK_PLUS (Leaf 1) (Binary TOK_MULTIPLY (Leaf 2) (Leaf 3))))
  /\
  valid_expression ("(" ++ "1+2*3" ++ ")")
    (Binary TOK_PLUS (Leaf 1) (Binary TOK_MULTIPLY (Leaf 2) (Leaf 3)))
  /\
  (forall pad,
     2 <= pad ->
     interpret (string_in_buffer "1+2*3" pad) =
     Done (Some (Binary TOK_PLUS (Leaf 1)
                   (Binary TOK_MULTIPLY (Leaf 2) (Leaf 3)))) /\
     interpret (string_in_buffer ("(" ++ "1+2*3" ++ ")") pad) =
     Done (Some (Binary TOK_PLUS (Leaf 1)
                   (Binary TOK_MULTIPLY (Leaf 2) (Leaf 3))))).
Proof.
  apply (parentheses_add_no_node "1+2*3"
           (Binary TOK_PLUS (Leaf 1)
              (Binary TOK_MULTIPLY (Leaf 2) (Leaf 3)))).
  split; [repeat constructor|].
  eexists _, _. split; [reflexivity|]. split; reflexivity.
Defined.

(** ** A bare [=] is read as [|] *)




























(** ** Precedence *)

(** C1.  The text [2+3*4] is parsed to
    [Binary(plus, Leaf 2, Binary(multiply, Leaf 3, Leaf 4))] and [2*3+4] to
    [Binary(plus, Binary(multiply, Leaf 2, Leaf 3), Leaf 4)], whether it is
    read from a file or from a string: the additive rule takes each of its
    operands from the multiplicative rule, so that [* / %] bind tighter
    than [+ -]: three numbers joined by an additive and a multiplicative
    operator, in either order, are grouped around the multiplicative
    one first.  The trees are written with the constructors of [node_t]:
    a leaf is [node_value TOK_NUMBER true v], a binary node
    [node_binary op false l r] with the left operand first. *)
Theorem multiplication_binds_tighter :
  interpret (file_of "2+3*4") =
  Done (Some (node_binary TOK_PLUS false
                (node_value TOK_NUMBER true 2)
                (node_binary TOK_MULTIPLY false
                   (node_value TOK_NUMBER true 3)
                   (node_value TOK_NUMBER true 4)))) /\
  interpret (file_of "2*3+4") =
  Done (Some (node_binary TOK_PLUS false
                (node_binary TOK_MULTIPLY false
                   (node_value TOK_NUMBER true 2)
                   (node_value TOK_NUMBER true 3))
                (node_value TOK_NUMBER true 4))) /\
  interpret (string_in_buffer "2+3*4" 2) =
  Done (Some (node_binary TOK_PLUS false
                (node_value TOK_NUMBER true 2)
                (node_binary TOK_MULTIPLY false
                   (node_value TOK_NUMBER true 3)
                   (node_value TOK_NUMBER true 4)))) /\
  interpret (string_in_buffer "2*3+4" 2) =
  Done (Some (node_binary TOK_PLUS false
                (node_binary TOK_MULTIPLY false
                   (node_value TOK_NUMBER true 2)
                   (node_value TOK_NUMBER true 3))
                (node_value TOK_NUMBER true 4))) /\
  (forall fuel expression ctx,
     rdp_additive_exp fuel expression ctx =
     (left <- rdp_mult_exp fuel expression ;;
      fold_level_loop fuel additive_operators
        (rdp_mult_exp fuel expression) fuel left) ctx) /\
  (forall op, In op mult_operators -> ~ In op additive_operators) /\
  (forall ao mo a b c,
     In ao additive_operators -> In mo mult_operators ->
     fst (parse_tokens
            [mk_token TOK_NUMBER true (Some a); mk_token ao false None;
             mk_token TOK_NUMBER true (Some b); mk_token mo false None;
             mk_token TOK_NUMBER true (Some c); mk_token TOK_EOF false None])
     = Done (node_binary ao false
               (node_value TOK_NUMBER true (strtol a))
               (node_binary mo false
                  (node_value TOK_NUMBER true (strtol b))
                  (node_value TOK_NUMBER true (strtol c)))) /\
     fst (parse_tokens
            [mk_token TOK_NUMBER true (Some a); mk_token mo false None;
             mk_token TOK_NUMBER true (Some b); mk_token ao false None;
             mk_token TOK_NUMBER true (Some c); mk_token TOK_EOF false None])
     = Done (node_binary ao false
               (node_binary mo false
                  (node_value TOK_NUMBER true (strtol a))
                  (node_value TOK_NUMBER true (strtol b)))
               (node_value TOK_NUMBER true (strtol c)))).
Proof.
  split; [reflexivity|]. split; [reflexivity|].
  split; [reflexivity|]. split; [reflexivity|].
  split; [|split].
  - intros fuel expression ctx. apply rdp_additive_exp_fold.
  - intros op Hm Ha. simpl in Hm, Ha.
    repeat match goal with
           | H : _ \/ _ |- _ => destruct H
           end; congruence.
  - intros ao mo a b c Ha Hm. simpl in Ha, Hm.
    repeat match goal with
           | H : _ \/ _ |- _ => destruct H
           | H : False |- _ => destruct H
           end; subst; split; reflexivity.
Qed.

Lemma multiplication_binds_tighter_witness :
  fst (parse_tokens
         [mk_token TOK_NUMBER true (Some "7"%string);
          mk_token TOK_MINUS false None;
          mk_token TOK_NUMBER true (Some "8"%string);
          mk_token TOK_MOD false None;
          mk_token TOK_NUMBER true (Some "3"%string);
          mk_token TOK_EOF false None]) =
  Done (node_binary TOK_MINUS false
          (node_value TOK_NUMBER true 7)
          (node_binary TOK_MOD false
             (node_value TOK_NUMBER true 8)
             (node_value TOK_NUMBER true 3))) /\
  fst (parse_tokens
         [mk_token TOK_NUMBER true (Some "7"%string);
          mk_token TOK_MOD false None;
          mk_token TOK_NUMBER true (Some "8"%string);
          mk_token TOK_MINUS false None;
          mk_token TOK_NUMBER true (Some "3"%string);
          mk_token TOK_EOF false None]) =
  Done (node_binary TOK_MINUS false
          (node_binary TOK_MOD false
             (node_value TOK_NUMBER true 7)
             (node_value TOK_NUMBER true 8))
          (node_value TOK_NUMBER true 3)).
Proof.
  apply (proj2 (proj2 (proj2 (proj2 (proj2 (proj2
           multiplication_binds_tighter)))))
           TOK_MINUS TOK_MOD "7"%string "8"%string "3"%string);
    simpl; auto.
Defined.

(** ** Chains of operators of one level *)

Lemma view_cons (c : rdp_t) (t : token_t) (l : list token_t) :
  view c = t :: l ->
  nth_error (tokens c) (position c) = Some t /\ view (consumed c) = l.
Proof.
  unfold view. intros H. split.
  - rewrite <- (Nat.add_0_r (position c)), <- nth_error_skipn, H.
    reflexivity.
  - rewrite consumed_position, consumed_tokens.
    change (S (position c)) with (1 + position c).
    rewrite <- skipn_skipn, H. reflexivity.
Qed.

Lemma rdp_primary_exp_number (fuel : nat) (e : M rdp_t node_t) :
  1 <= fuel -> parses_numbers [] (rdp_primary_exp fuel e).
Proof.
  intros Hf c s t l Hv _ _.
  destruct (view_cons _ _ _ Hv) as [Hn _].
  unfold rdp_primary_exp, bind.
  rewrite (rdp_consume_blanks_stay fuel c _ Hf Hn) by discriminate.
  unfold rdp_peek at 1. rewrite Hn.
  change (token_type_eqb (type (number_token s)) TOK_LPAREN) with false.
  cbv beta match. unfold rdp_const, bind.
  rewrite (rdp_consume_blanks_stay fuel c _ Hf Hn) by discriminate.
  unfold rdp_pop, bind, rdp_peek, rdp_consume, ret. rewrite Hn.
  reflexivity.
Qed.

Lemma is_operator_app (ops ops' : list token_type) (t : token_type) :
  is_operator (ops ++ ops') t = is_operator ops t || is_operator ops' t.
Proof. unfold is_operator. apply existsb_app. Qed.

Lemma fold_level_number (fuel : nat) (ops above : list token_type)
  (higher : M rdp_t node_t) :
  1 <= fuel -> parses_numbers above higher ->
  parses_numbers (ops ++ above) (fold_level fuel ops higher).
Proof.
  intros Hf Hh c s t l Hv Hsp Hop.
  rewrite is_operator_app in Hop. apply orb_false_elim in Hop.
  destruct Hop as [Ho Ha].
  destruct (view_cons _ _ _ Hv) as [_ Hv'].
  destruct (view_cons _ _ _ Hv') as [Hn' _].
  eapply fold_level_stop; [exact Hf| |exact Hn'|exact Hsp|exact Ho].
  eapply Hh; eauto.
Qed.

Lemma is_operator_In (ops : list token_type) (t : token_type) :
  In t ops -> is_operator ops t = true.
Proof.
  intros H. unfold is_operator. apply existsb_exists. exists t.
  split; [exact H|]. apply token_type_eqb_eq. reflexivity.
Qed.

Lemma is_operator_not_In (ops : list token_type) (t : token_type) :
  ~ In t ops -> is_operator ops t = false.
Proof.
  intros H. destruct (is_operator ops t) eqn:E; [|reflexivity].
  unfold is_operator in E. apply existsb_exists in E.
  destruct E as (x & Hx & E). apply token_type_eqb_eq in E. subst. tauto.
Qed.

(** The head of what follows a number in a chain. *)
Lemma chain_rest_head (ops above : list token_type)
  (rest : list (token_type * string)) :
  chain_of ops rest ->
  (forall o, In o ops -> ~ In o above) ->
  ~ In TOK_EOF above -> ~ In TOK_SPACE ops ->
  exists t l, chain_rest rest = t :: l /\
              type t <> TOK_SPACE /\ is_operator above (type t) = false.
Proof.
  intros Hc Hd He Hs. destruct rest as [|[op s] rest].
  - exists (lex_mkspecial TOK_EOF), []. split; [reflexivity|].
    split; [discriminate|]. apply is_operator_not_In. exact He.
  - inversion Hc as [|? ? Hop _]; subst. simpl in Hop.
    eexists _, _. split; [reflexivity|]. simpl.
    split; [intros E; rewrite E in Hop; tauto|].
    apply is_operator_not_In. apply Hd. exact Hop.
Qed.

Lemma fold_level_loop_chain (fuel : nat) (ops above : list token_type)
  (higher : M rdp_t node_t) :
  1 <= fuel -> parses_numbers above higher ->
  (forall o, In o ops -> ~ In o above) ->
  ~ In TOK_EOF above -> ~ In TOK_EOF ops -> ~ In TOK_SPACE ops ->
  forall rest n left c,
    chain_of ops rest -> List.length rest < n ->
    view c = chain_rest rest ->
    exists c',
      fold_level_loop fuel ops higher n left c =
      (Done (chain_fold left rest), c') /\
      view c' = [lex_mkspecial TOK_EOF].
Proof.
  intros Hf Hh Hd He He' Hs.
  induction rest as [|[op s] rest IH]; intros n left c Hc Hn Hv;
    (destruct n as [|n]; [simpl in Hn; lia|]).
  - exists c. split; [|exact Hv].
    destruct (view_cons _ _ _ Hv) as [Hn0 _].
    cbn [fold_level_loop]. unfold bind.
    rewrite (rdp_consume_blanks_stay fuel c _ Hf Hn0) by discriminate.
    unfold rdp_peek. rewrite Hn0. cbn [type lex_mkspecial].
    rewrite (is_operator_not_In ops _ He'). reflexivity.
  - inversion Hc as [|? ? Hop Hc']; subst. simpl in Hop.
    change (chain_rest ((op, s) :: rest))
      with (lex_mkkw op :: number_token s :: chain_rest rest) in Hv.
    destruct (view_cons _ _ _ Hv) as [Hn0 Hv1].
    destruct (chain_rest_head ops above rest Hc' Hd He Hs)
      as (t & l & El & Hsp & Hab).
    rewrite El in Hv1.
    destruct (view_cons _ _ _ Hv1) as [_ Hv2]. rewrite <- El in Hv2.
    destruct (IH n (Binary op left (Leaf (strtol s))) (consumed (consumed c))
                Hc' ltac:(simpl in Hn; lia) Hv2) as (c' & E & Hv').
    exists c'. split; [|exact Hv'].
    cbn [fold_level_loop]. unfold bind.
    rewrite (rdp_consume_blanks_stay fuel c _ Hf Hn0)
      by (simpl; intros E'; rewrite E' in Hop; tauto).
    unfold rdp_peek. rewrite Hn0. cbn [type lex_mkkw].
    rewrite (is_operator_In ops op Hop).
    unfold rdp_consume. fold (consumed c).
    rewrite (Hh _ _ _ _ Hv1 Hsp Hab). exact E.
Qed.

Lemma fold_level_chain (fuel : nat) (ops above : list token_type)
  (higher : M rdp_t node_t) (s0 : string)
  (rest : list (token_type * string)) (c : rdp_t) :
  parses_numbers above higher ->
  (forall o, In o ops -> ~ In o above) ->
  ~ In TOK_EOF above -> ~ In TOK_EOF ops -> ~ In TOK_SPACE ops ->
  chain_of ops rest -> List.length rest < fuel ->
  view c = chain_tokens s0 rest ->
  exists c',
    fold_level fuel ops higher c = (Done (chain_tree s0 rest), c') /\
    view c' = [lex_mkspecial TOK_EOF].
Proof.
  intros Hh Hd He He' Hs Hc Hf Hv. unfold chain_tokens in Hv.
  destruct (chain_rest_head ops above rest Hc Hd He Hs)
    as (t & l & El & Hsp & Hab).
  pose proof Hv as Hv0. rewrite El in Hv0.
  destruct (view_cons _ _ _ Hv) as [_ Hv1].
  destruct (fold_level_loop_chain fuel ops above higher ltac:(lia) Hh Hd He
              He' Hs rest fuel (Leaf (strtol s0)) (consumed c) Hc Hf Hv1)
    as (c' & E & Hv').
  exists c'. split; [|exact Hv'].
  unfold fold_level, bind. rewrite (Hh _ _ _ _ Hv0 Hsp Hab). exact E.
Qed.

Lemma fold_level_end (fuel : nat) (ops : list token_type)
  (higher : M rdp_t node_t) (c c' : rdp_t) (n : node_t) :
  1 <= fuel -> ~ In TOK_EOF ops ->
  higher c = (Done n, c') /\ view c' = [lex_mkspecial TOK_EOF] ->
  fold_level fuel ops higher c = (Done n, c') /\
  view c' = [lex_mkspecial TOK_EOF].
Proof.
  intros Hf He [Hh Hv]. split; [|exact Hv].
  destruct (view_cons _ _ _ Hv) as [Hn _].
  eapply fold_level_stop; [exact Hf|exact Hh|exact Hn|discriminate|].
  apply is_operator_not_In. exact He.
Qed.

Lemma parses_numbers_ext (above : list token_type) (f g : M rdp_t node_t) :
  (forall c, f c = g c) -> parses_numbers above g -> parses_numbers above f.
Proof. intros E H c s t l Hv Hs Ho. rewrite E. eapply H; eauto. Qed.

Ltac side_condition :=
  first [ lia
        | solve [simpl; intuition congruence]
        | solve [intros ? ? ?; simpl in *; intuition congruence] ].

Lemma rdp_ior_exp_chain (fuel : nat) (e : M rdp_t node_t)
  (ops : list token_type) (s0 : string)
  (rest : list (token_type * string)) (c : rdp_t) :
  In ops levels -> chain_of ops rest -> List.length rest < fuel ->
  view c = chain_tokens s0 rest ->
  exists c',
    rdp_ior_exp fuel e c = (Done (chain_tree s0 rest), c') /\
    view c' = [lex_mkspecial TOK_EOF].
Proof.
  intros Hl Hc Hf Hv.
  assert (H1 : 1 <= fuel) by lia.
  pose proof (rdp_primary_exp_number fuel e H1) as P0.
  assert (P1 : parses_numbers (mult_operators ++ [])
                 (rdp_mult_exp fuel e)).
  { eapply parses_numbers_ext; [apply rdp_mult_exp_fold|].
    apply fold_level_number; assumption. }
  assert (P2 : parses_numbers (additive_operators ++ mult_operators ++ [])
                 (rdp_additive_exp fuel e)).
  { eapply parses_numbers_ext; [apply rdp_additive_exp_fold|].
    apply fold_level_number; assumption. }
  assert (P3 : parses_numbers
                 (and_operators ++ additive_operators ++ mult_operators ++ [])
                 (rdp_and_exp fuel e)).
  { eapply parses_numbers_ext; [apply rdp_and_exp_fold|].
    apply fold_level_number; assumption. }
  assert (P4 : parses_numbers
                 (xor_operators ++ and_operators ++ additive_operators
                  ++ mult_operators ++ [])
                 (rdp_xor_exp fuel e)).
  { eapply parses_numbers_ext; [apply rdp_xor_exp_fold|].
    apply fold_level_number; assumption. }
  assert (M : exists c',
             rdp_mult_exp fuel e c = (Done (chain_tree s0 rest), c') /\
             view c' = [lex_mkspecial TOK_EOF] \/
             ops <> mult_operators).
  { destruct (list_eq_dec token_type_eq_dec ops mult_operators) as [->|N].
    - destruct (fold_level_chain fuel mult_operators [] _ s0 rest c P0)
        as (c' & E & Hv'); try side_condition; try assumption.
      exists c'. left. rewrite rdp_mult_exp_fold. auto.
    - exists c. right. exact N. }
  assert (A : exists c',
             rdp_additive_exp fuel e c = (Done (chain_tree s0 rest), c') /\
             view c' = [lex_mkspecial TOK_EOF] \/
             (ops <> mult_operators /\ ops <> additive_operators)).
  { destruct M as (c0 & [M|N]).
    - exists c0. left. rewrite rdp_additive_exp_fold.
      apply fold_level_end; [lia | side_condition | exact M].
    - destruct (list_eq_dec token_type_eq_dec ops additive_operators)
        as [->|N'].
      + destruct (fold_level_chain fuel additive_operators _ _ s0 rest c P1)
          as (c' & E & Hv'); try side_condition; try assumption.
        exists c'. left. rewrite rdp_additive_exp_fold. auto.
      + exists c. right. auto. }
  assert (B : exists c',
             rdp_and_exp fuel e c = (Done (chain_tree s0 rest), c') /\
             view c' = [lex_mkspecial TOK_EOF] \/
             (ops <> mult_operators /\ ops <> additive_operators /\
              ops <> and_operators)).
  { destruct A as (c0 & [A|[N1 N2]]).
    - exists c0. left. rewrite rdp_and_exp_fold.
      apply fold_level_end; [lia | side_condition | exact A].
    - destruct (list_eq_dec token_type_eq_dec ops and_operators)
        as [->|N'].
      + destruct (fold_level_chain fuel and_operators _ _ s0 rest c P2)
          as (c' & E & Hv'); try side_condition; try assumption.
        exists c'. left. rewrite rdp_and_exp_fold. auto.
      + exists c. right. auto. }
  assert (X : exists c',
             rdp_xor_exp fuel e c = (Done (chain_tree s0 rest), c') /\
             view c' = [lex_mkspecial TOK_EOF] \/
             ops = ior_operators).
  { destruct B as (c0 & [B|(N1 & N2 & N3)]).
    - exists c0. left. rewrite rdp_xor_exp_fold.
      apply fold_level_end; [lia | side_condition | exact B].
    - destruct (list_eq_dec token_type_eq_dec ops xor_operators)
        as [->|N'].
      + destruct (fold_level_chain fuel xor_operators _ _ s0 rest c P3)
          as (c' & E & Hv'); try side_condition; try assumption.
        exists c'. left. rewrite rdp_xor_exp_fold. auto.
      + exists c. right. simpl in Hl. intuition congruence. }
  destruct X as (c0 & [X| ->]).
  - exists c0. rewrite rdp_ior_exp_fold.
    apply fold_level_end; [lia | side_condition | exact X].
  - destruct (fold_level_chain fuel ior_operators _ _ s0 rest c P4)
      as (c' & E & Hv'); try side_condition; try assumption.
    exists c'. rewrite rdp_ior_exp_fold. auto.
Qed.

Lemma parse_tokens_chain (ops : list token_type) (s0 : string)
  (rest : list (token_type * string)) :
  In ops levels -> chain_of ops rest ->
  fst (parse_tokens (chain_tokens s0 rest)) = Done (chain_tree s0 rest).
Proof.
  intros Hl Hc. unfold parse_tokens, rdp_generate_ast, parse_fuel.
  replace (List.length (chain_tokens s0 rest) + 2)
    with (S (List.length (chain_tokens s0 rest) + 1)) by lia.
  cbn [rdp_expression].
  destruct (rdp_ior_exp_chain (List.length (chain_tokens s0 rest) + 1)
              (rdp_expression (List.length (chain_tokens s0 rest) + 1))
              ops s0 rest
              (rdp_init (chain_tokens s0 rest)
                 (List.length (chain_tokens s0 rest))) Hl Hc)
    as (c' & E & _).
  - unfold chain_tokens, chain_rest. simpl. rewrite length_app.
    rewrite (flat_map_constant_length (c := 2)) by reflexivity.
    simpl. lia.
  - reflexivity.
  - rewrite E. reflexivity.
Qed.

(** C2.  Each of the five levels of the grammar is the left fold of the
    specification over its own operators and the next higher rule; [1-2-3]
    is parsed to [Binary(minus, Binary(minus, Leaf 1, Leaf 2), Leaf 3)];
    and a chain of numbers joined by operators of one level, of any
    length, is parsed to the tree that combines the running left operand
    with each operator and operand in turn: operators of one level group
    to the left.  The trees are written with the constructors of [node_t],
    in [chain_tree] and in [fold_level] as well, so that the left operand
    is the first child of every node. *)
Theorem levels_are_left_folds :
  interpret (file_of "1-2-3") =
  Done (Some (node_binary TOK_MINUS false
                (node_binary TOK_MINUS false
                   (node_value TOK_NUMBER true 1)
                   (node_value TOK_NUMBER true 2))
                (node_value TOK_NUMBER true 3))) /\
  interpret (string_in_buffer "1-2-3" 2) =
  Done (Some (node_binary TOK_MINUS false
                (node_binary TOK_MINUS false
                   (node_value TOK_NUMBER true 1)
                   (node_value TOK_NUMBER true 2))
                (node_value TOK_NUMBER true 3))) /\
  (forall fuel e ctx,
     rdp_mult_exp fuel e ctx =
     fold_level fuel mult_operators (rdp_unary_exp fuel e) ctx) /\
  (forall fuel e ctx,
     rdp_additive_exp fuel e ctx =
     fold_level fuel additive_operators (rdp_mult_exp fuel e) ctx) /\
  (forall fuel e ctx,
     rdp_and_exp fuel e ctx =
     fold_level fuel and_operators (rdp_additive_exp fuel e) ctx) /\
  (forall fuel e ctx,
     rdp_xor_exp fuel e ctx =
     fold_level fuel xor_operators (rdp_and_exp fuel e) ctx) /\
  (forall fuel e ctx,
     rdp_ior_exp fuel e ctx =
     fold_level fuel ior_operators (rdp_xor_exp fuel e) ctx) /\
  (forall ops s0 rest,
     In ops levels -> chain_of ops rest ->
     fst (parse_tokens (chain_tokens s0 rest)) =
     Done (chain_tree s0 rest)).
Proof.
  repeat split.
  - intros; apply rdp_mult_exp_fold.
  - intros; apply rdp_additive_exp_fold.
  - intros; apply rdp_and_exp_fold.
  - intros; apply rdp_xor_exp_fold.
  - intros; apply rdp_ior_exp_fold.
  - intros ops s0 rest Hl Hc. eapply parse_tokens_chain; eassumption.
Qed.

Lemma levels_are_left_folds_witness :
  In additive_operators levels /\
  chain_of additive_operators [(TOK_MINUS, "2"); (TOK_PLUS, "3")]%string /\
  fst (parse_tokens
         (chain_tokens "1" [(TOK_MINUS, "2"); (TOK_PLUS, "3")]%string)) =
  Done (node_binary TOK_PLUS false
          (node_binary TOK_MINUS false
             (node_value TOK_NUMBER true 1)
             (node_value TOK_NUMBER true 2))
          (node_value TOK_NUMBER true 3)).
Proof.
  assert (Hl : In additive_operators levels) by (simpl; auto).
  assert (Hc : chain_of additive_operators
                 [(TOK_MINUS, "2"); (TOK_PLUS, "3")]%string).
  { apply Forall_cons; [|apply Forall_cons; [|apply Forall_nil]];
      vm_compute; auto. }
  split; [exact Hl|]. split; [exact Hc|].
  exact (proj2 (proj2 (proj2 (proj2 (proj2 (proj2 (proj2
           levels_are_left_folds))))))
           additive_operators "1"%string
           [(TOK_MINUS, "2"); (TOK_PLUS, "3")]%string Hl Hc).
Defined.

(** ** Failed checks *)

(** C6.  A failed check ends the whole parse: the failure of a rule is the
    failure of every rule that called it, no node is returned with it, and
    at the top it is a check that found, in the token just consumed, a kind
    other than the number or the closing parenthesis it required.  The
    text [(1+2] fails in the check for the closing parenthesis, which finds
    the end of input, and [)] fails in the check for a number, which the
    primary rule reaches when it finds no opening parenthesis. *)
Theorem failure_ends_the_parse :
  interpret (file_of "(1+2") =
  Failed (UnexpectedToken TOK_RPAREN TOK_EOF "Invalid symbol encountered") /\
  interpret (string_in_buffer "(1+2" 2) =
  Failed (UnexpectedToken TOK_RPAREN TOK_EOF "Invalid symbol encountered") /\
  interpret (file_of ")") =
  Failed (UnexpectedToken TOK_NUMBER TOK_RPAREN "Invalid symbol encountered")
  /\
  interpret (string_in_buffer ")" 1) =
  Failed (UnexpectedToken TOK_NUMBER TOK_RPAREN "Invalid symbol encountered")
  /\
  (forall (A B : Type) (m : M rdp_t A) (k : A -> M rdp_t B) ctx e ctx',
     m ctx = (Failed e, ctx') -> bind m k ctx = (Failed e, ctx')) /\
  (forall fuel ctx e ctx',
     rdp_generate_ast fuel ctx = (Failed e, ctx') -> failure_at ctx' e) /\
  (forall ctx e root, interpret ctx = Failed e ->
                      interpret ctx <> Done (Some root)).
Proof.
  repeat split.
  - intros A B m k ctx e ctx' H. unfold bind. rewrite H. reflexivity.
  - intros fuel ctx e ctx' H.
    pose proof (rdp_generate_ast_post fuel ctx) as Hp. rewrite H in Hp.
    apply (post_failed _ _ _ _ Hp e eq_refl).
  - intros ctx e root H. rewrite H. discriminate.
Qed.

Lemma failure_ends_the_parse_witness :
  failure_at (mk_rdp [lex_mkkw TOK_RPAREN; lex_mkspecial TOK_EOF] 1 2)
    (UnexpectedToken TOK_NUMBER TOK_RPAREN "Invalid symbol encountered").
Proof.
  apply (proj1 (proj2 (proj2 (proj2 (proj2 (proj2
           failure_ends_the_parse))))) 4
           (rdp_init [lex_mkkw TOK_RPAREN; lex_mkspecial TOK_EOF] 2)).
  reflexivity.
Defined.

(** * Further properties of the parser and of the lexer *)

(** ** The tree keeps the order of the tokens *)

Lemma skipn_nth_error (A : Type) (l : list A) (n : nat) (x : A) :
  nth_error l n = Some x -> skipn n l = x :: skipn (S n) l.
Proof.
  revert l. induction n as [|n IH]; intros [|y l] H; try discriminate H.
  - injection H as ->. reflexivity.
  - apply (IH l H).
Qed.

Lemma view_nth (c : rdp_t) (t : token_t) :
  nth_error (tokens c) (position c) = Some t ->
  view c = t :: view (consumed c).
Proof.
  intros H. unfold view. rewrite consumed_position, consumed_tokens.
  apply skipn_nth_error. exact H.
Qed.

Lemma symbols_app (l1 l2 : list token_t) :
  symbols (l1 ++ l2) = symbols l1 ++ symbols l2.
Proof. unfold symbols. apply flat_map_app. Qed.

Lemma rdp_consume_blanks_view :
  forall fuel c c',
    rdp_consume_blanks fuel c = (Done tt, c') ->
    exists used, view c = used ++ view c' /\ symbols used = [].
Proof.
  induction fuel as [|fuel IH]; intros c c' H; [discriminate H|].
  revert H. simpl rdp_consume_blanks. unfold bind, rdp_peek.
  destruct (nth_error (tokens c) (position c)) as [t|] eqn:Hn;
    [|discriminate].
  destruct (token_type_eqb (type t) TOK_SPACE) eqn:Ht.
  - unfold rdp_consume. intros H.
    destruct (IH (consumed c) c' H) as (used & Hv & Hs).
    exists (t :: used). split.
    + rewrite (view_nth c t Hn), Hv. reflexivity.
    + apply token_type_eqb_eq in Ht. unfold symbols in *. simpl.
      rewrite Hs. unfold significant. rewrite Ht. reflexivity.
  - unfold ret. intros H. injection H as <-. exists []. split; reflexivity.
Qed.

Lemma rdp_pop_view (c c' : rdp_t) (t : token_t) :
  rdp_pop c = (Done t, c') -> view c = t :: view c'.
Proof.
  unfold rdp_pop, bind, rdp_peek.
  destruct (nth_error (tokens c) (position c)) as [t'|] eqn:Hn;
    [|discriminate].
  unfold rdp_consume, ret. intros H. injection H as <- <-.
  apply (view_nth c t' Hn).
Qed.

Lemma rdp_const_yields (fuel : nat) : yields (rdp_const fuel).
Proof.
  intros c a c'. unfold rdp_const, bind.
  destruct (rdp_consume_blanks fuel c) as [[[]| | |] c1] eqn:Eb;
    try discriminate.
  destruct (rdp_pop c1) as [[t| | |] c2] eqn:Ep; try discriminate.
  destruct (token_type_eqb (type t) TOK_NUMBER) eqn:Ht; cbn [negb];
    [|discriminate].
  destruct (literal t) as [s|] eqn:El; [|discriminate].
  unfold ret. intros H. injection H as <- <-.
  destruct (rdp_consume_blanks_view fuel c c1 Eb) as (u1 & Hv1 & Hs1).
  exists (u1 ++ [t]). split.
  - rewrite Hv1, (rdp_pop_view c1 c2 t Ep), <- app_assoc. reflexivity.
  - rewrite symbols_app, Hs1. apply token_type_eqb_eq in Ht.
    unfold symbols, significant. simpl. rewrite Ht, El. reflexivity.
Qed.

Lemma rdp_primary_exp_yields (fuel : nat) (e : M rdp_t node_t) :
  yields e -> yields (rdp_primary_exp fuel e).
Proof.
  intros He c a c'. unfold rdp_primary_exp, bind.
  destruct (rdp_consume_blanks fuel c) as [[[]| | |] c1] eqn:Eb;
    try discriminate.
  destruct (rdp_consume_blanks_view fuel c c1 Eb) as (u1 & Hv1 & Hs1).
  unfold rdp_peek at 1.
  destruct (nth_error (tokens c1) (position c1)) as [lp|] eqn:Hn;
    [|discriminate].
  destruct (token_type_eqb (type lp) TOK_LPAREN) eqn:Hl.
  - unfold rdp_consume at 1.
    change (mk_rdp (tokens c1) (S (position c1)) (length c1))
      with (consumed c1).
    destruct (e (consumed c1)) as [[n| | |] c2] eqn:Ee; try discriminate.
    destruct (rdp_consume_blanks fuel c2) as [[[]| | |] c3] eqn:Eb';
      try discriminate.
    destruct (rdp_pop c3) as [[rp| | |] c4] eqn:Ep; try discriminate.
    destruct (token_type_eqb (type rp) TOK_RPAREN) eqn:Hr; [|discriminate].
    unfold ret. intros H. injection H as <- <-.
    destruct (He _ _ _ Ee) as (u2 & Hv2 & Hs2).
    destruct (rdp_consume_blanks_view fuel c2 c3 Eb') as (u3 & Hv3 & Hs3).
    exists (u1 ++ lp :: u2 ++ u3 ++ [rp]). split.
    + rewrite Hv1, (view_nth c1 lp Hn), Hv2, Hv3, (rdp_pop_view c3 c4 rp Ep).
      rewrite <- !app_assoc. simpl. rewrite <- !app_assoc. reflexivity.
    + apply token_type_eqb_eq in Hl, Hr.
      rewrite symbols_app, Hs1. unfold symbols at 1. simpl.
      fold (symbols (u2 ++ u3 ++ [rp])).
      rewrite !symbols_app, Hs2, Hs3.
      unfold symbols, significant. simpl. rewrite Hl, Hr.
      simpl. rewrite app_nil_r. reflexivity.
  - intros H. destruct (rdp_const_yields fuel c1 a c' H) as (u2 & Hv2 & Hs2).
    exists (u1 ++ u2). split.
    + rewrite Hv1, Hv2, app_assoc. reflexivity.
    + rewrite symbols_app, Hs1. exact Hs2.
Qed.

Lemma significant_operator (t : token_t) :
  is_operator binary_operators (type t) = true ->
  significant t = [sym_operator (type t)].
Proof.
  unfold significant. destruct (type t); intros H; try reflexivity;
    discriminate H.
Qed.

Lemma fold_level_loop_yields (fuel : nat) (ops : list token_type)
  (higher : M rdp_t node_t) :
  incl ops binary_operators -> yields higher ->
  forall n left c a c',
    fold_level_loop fuel ops higher n left c = (Done a, c') ->
    exists used,
      view c = used ++ view c' /\ inorder a = inorder left ++ symbols used.
Proof.
  intros Hi Hh. induction n as [|n IH]; intros left c a c' H;
    [discriminate H|].
  revert H. simpl fold_level_loop. unfold bind.
  destruct (rdp_consume_blanks fuel c) as [[[]| | |] c1] eqn:Eb;
    try discriminate.
  destruct (rdp_consume_blanks_view fuel c c1 Eb) as (u1 & Hv1 & Hs1).
  unfold rdp_peek at 1.
  destruct (nth_error (tokens c1) (position c1)) as [op|] eqn:Hn;
    [|discriminate].
  destruct (is_operator ops (type op)) eqn:Ho.
  - unfold rdp_consume at 1.
    change (mk_rdp (tokens c1) (S (position c1)) (length c1))
      with (consumed c1).
    destruct (higher (consumed c1)) as [[r| | |] c2] eqn:Eh;
      try discriminate.
    intros H. destruct (IH _ _ _ _ H) as (u3 & Hv3 & Hs3).
    destruct (Hh _ _ _ Eh) as (u2 & Hv2 & Hs2).
    exists (u1 ++ op :: u2 ++ u3). split.
    + rewrite Hv1, (view_nth c1 op Hn), Hv2, Hv3.
      rewrite <- !app_assoc. simpl. rewrite <- !app_assoc. reflexivity.
    + rewrite Hs3. simpl inorder.
      rewrite symbols_app, Hs1. unfold symbols at 2. simpl.
      fold (symbols (u2 ++ u3)).
      rewrite (significant_operator op (is_operator_incl _ _ _ Hi Ho)).
      rewrite symbols_app, Hs2. rewrite <- !app_assoc. reflexivity.
  - unfold ret. intros H. injection H as <- <-.
    exists u1. split; [exact Hv1|]. rewrite Hs1, app_nil_r. reflexivity.
Qed.

Lemma fold_level_yields (fuel : nat) (ops : list token_type)
  (higher : M rdp_t node_t) :
  incl ops binary_operators -> yields higher ->
  yields (fold_level fuel ops higher).
Proof.
  intros Hi Hh c a c'. unfold fold_level, bind.
  destruct (higher c) as [[left| | |] c1] eqn:Eh; try discriminate.
  intros H.
  destruct (Hh _ _ _ Eh) as (u1 & Hv1 & Hs1).
  destruct (fold_level_loop_yields fuel ops higher Hi Hh _ _ _ _ _ H)
    as (u2 & Hv2 & Hs2).
  exists (u1 ++ u2). split.
  - rewrite Hv1, Hv2, app_assoc. reflexivity.
  - rewrite symbols_app, Hs1. symmetry. exact Hs2.
Qed.

Lemma yields_ext (f g : M rdp_t node_t) :
  (forall c, f c = g c) -> yields g -> yields f.
Proof. intros E H c a c' Hf. rewrite E in Hf. exact (H c a c' Hf). Qed.

Ltac operators_included :=
  intros ? ?; simpl in *; intuition (subst; auto 10).

Lemma rdp_ior_exp_yields (fuel : nat) (e : M rdp_t node_t) :
  yields e -> yields (rdp_ior_exp fuel e).
Proof.
  intros He.
  pose proof (rdp_primary_exp_yields fuel e He) as H0.
  assert (H1 : yields (rdp_mult_exp fuel e)).
  { eapply yields_ext; [apply rdp_mult_exp_fold|].
    apply fold_level_yields; [operators_included|exact H0]. }
  assert (H2 : yields (rdp_additive_exp fuel e)).
  { eapply yields_ext; [apply rdp_additive_exp_fold|].
    apply fold_level_yields; [operators_included|exact H1]. }
  assert (H3 : yields (rdp_and_exp fuel e)).
  { eapply yields_ext; [apply rdp_and_exp_fold|].
    apply fold_level_yields; [operators_included|exact H2]. }
  assert (H4 : yields (rdp_xor_exp fuel e)).
  { eapply yields_ext; [apply rdp_xor_exp_fold|].
    apply fold_level_yields; [operators_included|exact H3]. }
  eapply yields_ext; [apply rdp_ior_exp_fold|].
  apply fold_level_yields; [operators_included|exact H4].
Qed.

Lemma rdp_expression_yields : forall fuel, yields (rdp_expression fuel).
Proof.
  induction fuel as [|fuel IH]; [intros c a c' H; discriminate H|].
  simpl rdp_expression. apply rdp_ior_exp_yields. exact IH.
Qed.

Lemma firstn_prefix (A : Type) (used rest l : list A) :
  l = used ++ rest -> firstn (List.length l - List.length rest) l = used.
Proof.
  intros ->. rewrite length_app.
  replace (List.length used + List.length rest - List.length rest)
    with (List.length used) by lia.
  rewrite firstn_app, Nat.sub_diag, firstn_all. simpl. apply app_nil_r.
Qed.

(** X1.  The tree of a successful parse lists, from left to right, the
    numbers and the operators of the tokens the parse has consumed, each
    one once and in their order; blanks and parentheses leave no trace. *)
Theorem tree_keeps_the_order_of_the_tokens :
  forall toks root ctx',
    parse_tokens toks = (Done root, ctx') ->
    inorder root = symbols (firstn (position ctx') toks).
Proof.
  intros toks root ctx' H.
  destruct (parse_tokens_stop toks root ctx' H) as (Ht & t & Hn & _).
  assert (Hlt : position ctx' < List.length toks).
  { apply nth_error_Some. congruence. }
  unfold parse_tokens, rdp_generate_ast in H.
  destruct (rdp_expression_yields _ _ _ _ H) as (used & Hv & Hs).
  rewrite <- Hs. f_equal.
  unfold view in Hv. rewrite Ht in Hv. cbn [rdp_init tokens position] in Hv.
  simpl skipn in Hv.
  rewrite <- (firstn_prefix _ used (skipn (position ctx') toks) toks Hv).
  rewrite length_skipn. f_equal. lia.
Qed.

Lemma tree_keeps_the_order_of_the_tokens_witness :
  inorder (Binary TOK_MULTIPLY
             (Binary TOK_MINUS (Leaf 1) (Leaf 2)) (Leaf 3)) =
  symbols
    (firstn 8
       [lex_mkkw TOK_LPAREN; number_token "1"; lex_mkspecial TOK_SPACE;
        lex_mkkw TOK_MINUS; number_token "2"; lex_mkkw TOK_RPAREN;
        lex_mkkw TOK_MULTIPLY; number_token "3"; lex_mkspecial TOK_EOF]).
Proof.
  apply (tree_keeps_the_order_of_the_tokens
           [lex_mkkw TOK_LPAREN; number_token "1"; lex_mkspecial TOK_SPACE;
            lex_mkkw TOK_MINUS; number_token "2"; lex_mkkw TOK_RPAREN;
            lex_mkkw TOK_MULTIPLY; number_token "3"; lex_mkspecial TOK_EOF]
           _
           (mk_rdp
              [lex_mkkw TOK_LPAREN; number_token "1";
               lex_mkspecial TOK_SPACE;
               lex_mkkw TOK_MINUS; number_token "2"; lex_mkkw TOK_RPAREN;
               lex_mkkw TOK_MULTIPLY; number_token "3";
               lex_mkspecial TOK_EOF] 8 9)).
  reflexivity.
Defined.

(** ** Blanks are not seen by the parser *)

Lemma blind_ret (A : Type) (a : A) : blind (ret a).
Proof.
  intros c1 c2 o c1' R H _ _. unfold ret in *. injection H as <- <-.
  exists c2. split; [reflexivity|auto].
Qed.

Lemma blind_xerror (A : Type) (expected found : token_type) (msg : string) :
  blind (@xerror A expected found msg).
Proof.
  intros c1 c2 o c1' R H _ _. unfold xerror in *. injection H as <- <-.
  exists c2. split; [reflexivity|intros []].
Qed.

Lemma blind_fault (A : Type) (f : fault) : blind (@fault_with rdp_t A f).
Proof.
  intros c1 c2 o c1' R H _ _. unfold fault_with in *. injection H as <- <-.
  exists c2. split; [reflexivity|intros []].
Qed.

Lemma blind_ext (A : Type) (f g : M rdp_t A) :
  (forall c, f c = g c) -> blind g -> blind f.
Proof.
  intros E H c1 c2 o c1' R Hf. rewrite E in Hf. rewrite E.
  exact (H c1 c2 o c1' R Hf).
Qed.

Lemma blind_bind (A B : Type) (m : M rdp_t A) (k : A -> M rdp_t B) :
  blind m -> (forall a, blind (k a)) -> blind (bind m k).
Proof.
  intros Hm Hk c1 c2 o c1' R H Hf Hb. unfold bind in *.
  destruct (m c1) as [[a|e|f|] c1m] eqn:Em.
  - destruct (Hm c1 c2 (Done a) c1m R Em ltac:(discriminate)
                ltac:(discriminate)) as (c2m & E2 & R').
    rewrite E2. apply (Hk a c1m c2m o c1' (R' I) H Hf Hb).
  - injection H as <- <-.
    destruct (Hm c1 c2 (Failed e) c1m R Em ltac:(discriminate)
                ltac:(discriminate)) as (c2m & E2 & _).
    rewrite E2. exists c2m. split; [reflexivity|intros []].
  - injection H as <- <-.
    assert (Hf' : f <> OutOfBounds) by congruence.
    destruct (Hm c1 c2 (Fault f) c1m R Em ltac:(discriminate)
                ltac:(congruence)) as (c2m & E2 & _).
    rewrite E2. exists c2m. split; [reflexivity|intros []].
  - injection H as <- <-. congruence.
Qed.

Lemma without_blanks_cons_blank (t : token_t) (l : list token_t) :
  type t = TOK_SPACE -> without_blanks (t :: l) = without_blanks l.
Proof. intros H. unfold without_blanks. simpl. rewrite H. reflexivity. Qed.

Lemma without_blanks_cons (t : token_t) (l : list token_t) :
  type t <> TOK_SPACE -> without_blanks (t :: l) = t :: without_blanks l.
Proof.
  intros H. unfold without_blanks. simpl.
  destruct (token_type_eqb (type t) TOK_SPACE) eqn:E; [|reflexivity].
  apply token_type_eqb_eq in E. contradiction.
Qed.

(** On the sequence with blanks [rdp_consume_blanks] stops on the token
    the other sequence shows already. *)
Lemma rdp_consume_blanks_unblanked :
  forall fuel c1 c2 o c1',
    unblanked c1 c2 -> rdp_consume_blanks fuel c1 = (o, c1') ->
    o <> OutOfFuel -> o <> Fault OutOfBounds ->
    o = Done tt /\
    exists t l, view c1' = t :: l /\ type t <> TOK_SPACE /\
                view c2 = t :: without_blanks l /\
                rdp_consume_blanks fuel c2 = (Done tt, c2).
Proof.
  induction fuel as [|fuel IH]; intros c1 c2 o c1' R H Hf Hb.
  - simpl in H. unfold out_of_fuel in H. injection H as <- _. congruence.
  - revert H. simpl rdp_consume_blanks. unfold bind, rdp_peek.
    destruct (nth_error (tokens c1) (position c1)) as [t|] eqn:Hn.
    2:{ intros H. injection H as <- _. congruence. }
    pose proof (view_nth c1 t Hn) as Hv.
    destruct (token_type_eqb (type t) TOK_SPACE) eqn:Ht.
    + apply token_type_eqb_eq in Ht. unfold rdp_consume.
      change (mk_rdp (tokens c1) (S (position c1)) (length c1))
        with (consumed c1).
      intros H.
      assert (R' : unblanked (consumed c1) c2).
      { unfold unblanked in *. rewrite R, Hv.
        apply without_blanks_cons_blank. exact Ht. }
      destruct (IH _ _ _ _ R' H Hf Hb) as (-> & t' & l & Hv' & Ht' & Hv2 & _).
      split; [reflexivity|]. exists t', l.
      repeat split; try assumption.
      destruct (view_cons _ _ _ Hv2) as [Hn2 _].
      apply (rdp_consume_blanks_stay (S fuel) c2 t'); [lia|exact Hn2|exact Ht'].
    + unfold ret. intros H. injection H as <- <-.
      assert (Ht' : type t <> TOK_SPACE).
      { intros E. apply token_type_eqb_eq in E. congruence. }
      split; [reflexivity|]. exists t, (view (consumed c1)).
      assert (Hv2 : view c2 = t :: without_blanks (view (consumed c1))).
      { unfold unblanked in R. rewrite R, Hv.
        apply without_blanks_cons. exact Ht'. }
      repeat split; try assumption.
      destruct (view_cons _ _ _ Hv2) as [Hn2 _].
      apply (rdp_consume_blanks_stay (S fuel) c2 t); [lia|exact Hn2|exact Ht'].
Qed.

(** After the blanks a token is looked at, and the rule goes on either by
    consuming it or without reading it again. *)
Lemma blind_peek (A : Type) (fuel : nat) (k : token_t -> M rdp_t A) :
  (forall t, type t <> TOK_SPACE ->
     (exists k', (forall c, k t c = (rdp_consume ;;; k') c) /\ blind k') \/
     blind (k t)) ->
  blind (rdp_consume_blanks fuel ;;; (t <- rdp_peek ;; k t)).
Proof.
  intros Hk c1 c2 o c1' R H Hf Hb. unfold bind at 1 in H.
  destruct (rdp_consume_blanks fuel c1) as [ob c1b] eqn:Eb.
  assert (Hob : ob <> OutOfFuel /\ ob <> Fault OutOfBounds).
  { destruct ob as [[]|e|f|]; split; try discriminate;
      intros E; try (injection E as ->); injection H as <- _; congruence. }
  destruct Hob as [Hf1 Hb1].
  destruct (rdp_consume_blanks_unblanked fuel c1 c2 ob c1b R Eb Hf1 Hb1)
    as (-> & t & l & Hv1 & Ht & Hv2 & E2).
  cbv beta iota in H. revert H. unfold bind at 2. rewrite E2.
  destruct (view_cons _ _ _ Hv1) as [Hn1 Hl1].
  destruct (view_cons _ _ _ Hv2) as [Hn2 Hl2].
  unfold bind, rdp_peek. rewrite Hn1, Hn2.
  destruct (Hk t Ht) as [(k' & Ek & Hk')|Hk'].
  - rewrite !Ek. unfold bind, rdp_consume.
    change (mk_rdp (tokens c1b) (S (position c1b)) (length c1b))
      with (consumed c1b).
    change (mk_rdp (tokens c2) (S (position c2)) (length c2))
      with (consumed c2).
    intros H. apply (Hk' (consumed c1b) (consumed c2) o c1'); auto.
    unfold unblanked. rewrite Hl1, Hl2. reflexivity.
  - intros H. apply (Hk' c1b c2 o c1'); auto.
    unfold unblanked. rewrite Hv1, Hv2.
    symmetry. apply without_blanks_cons. exact Ht.
Qed.

Lemma blind_pop (A : Type) (fuel : nat) (k : token_t -> M rdp_t A) :
  (forall t, blind (k t)) ->
  blind (rdp_consume_blanks fuel ;;; (t <- rdp_pop ;; k t)).
Proof.
  intros Hk.
  apply blind_ext
    with (g := rdp_consume_blanks fuel ;;;
               (t <- rdp_peek ;; (rdp_consume ;;; k t))).
  - intros c. unfold bind, rdp_pop, bind, rdp_peek, rdp_consume, ret.
    destruct (rdp_consume_blanks fuel c) as [[[]| | |] c1]; try reflexivity.
    destruct (nth_error (tokens c1) (position c1)); reflexivity.
  - apply blind_peek. intros t _. left. exists (k t).
    split; [reflexivity|apply Hk].
Qed.

Lemma rdp_const_blind (fuel : nat) : blind (rdp_const fuel).
Proof.
  unfold rdp_const. apply blind_pop. intros t.
  destruct (negb (token_type_eqb (type t) TOK_NUMBER)).
  - apply blind_xerror.
  - destruct (literal t); [apply blind_ret|apply blind_fault].
Qed.

Lemma rdp_primary_exp_blind (fuel : nat) (e : M rdp_t node_t) :
  blind e -> blind (rdp_primary_exp fuel e).
Proof.
  intros He. unfold rdp_primary_exp. apply blind_peek. intros t Ht.
  destruct (token_type_eqb (type t) TOK_LPAREN).
  - left. eexists. split; [reflexivity|].
    apply blind_bind; [exact He|]. intros expr.
    apply blind_pop. intros rp.
    destruct (token_type_eqb (type rp) TOK_RPAREN);
      [apply blind_ret|apply blind_xerror].
  - right. apply rdp_const_blind.
Qed.

Lemma fold_level_loop_blind (fuel : nat) (ops : list token_type)
  (higher : M rdp_t node_t) :
  blind higher ->
  forall n left, blind (fold_level_loop fuel ops higher n left).
Proof.
  intros Hh. induction n as [|n IH]; intros left.
  - intros c1 c2 o c1' R H Hf. simpl in H. unfold out_of_fuel in H.
    injection H as <- _. congruence.
  - simpl fold_level_loop. apply blind_peek. intros t Ht.
    destruct (is_operator ops (type t)).
    + left. eexists. split; [reflexivity|].
      apply blind_bind; [exact Hh|]. intros right. apply IH.
    + right. apply blind_ret.
Qed.

Lemma fold_level_blind (fuel : nat) (ops : list token_type)
  (higher : M rdp_t node_t) :
  blind higher -> blind (fold_level fuel ops higher).
Proof.
  intros Hh. unfold fold_level. apply blind_bind; [exact Hh|].
  intros left. apply fold_level_loop_blind. exact Hh.
Qed.

Lemma rdp_ior_exp_blind (fuel : nat) (e : M rdp_t node_t) :
  blind e -> blind (rdp_ior_exp fuel e).
Proof.
  intros He.
  pose proof (rdp_primary_exp_blind fuel e He) as H0.
  eapply blind_ext; [apply rdp_ior_exp_fold|]. apply fold_level_blind.
  eapply blind_ext; [apply rdp_xor_exp_fold|]. apply fold_level_blind.
  eapply blind_ext; [apply rdp_and_exp_fold|]. apply fold_level_blind.
  eapply blind_ext; [apply rdp_additive_exp_fold|]. apply fold_level_blind.
  eapply blind_ext; [apply rdp_mult_exp_fold|]. apply fold_level_blind.
  exact H0.
Qed.

Lemma rdp_expression_blind : forall fuel, blind (rdp_expression fuel).
Proof.
  induction fuel as [|fuel IH].
  - intros c1 c2 o c1' R H Hf. simpl in H. unfold out_of_fuel in H.
    injection H as <- _. congruence.
  - simpl rdp_expression. apply rdp_ior_exp_blind. exact IH.
Qed.

Lemma parse_tokens_without_blanks (toks : list token_t) :
  terminated toks ->
  fst (parse_tokens (without_blanks toks)) = fst (parse_tokens toks).
Proof.
  intros Hwf.
  pose proof (rdp_generate_ast_post (parse_fuel toks)
                (rdp_init toks (List.length toks))) as Hp.
  pose proof (terminated_in_bounds toks (List.length toks) Hwf) as Hin.
  fold (parse_tokens toks) in Hp.
  destruct (parse_tokens toks) as [o c1'] eqn:E.
  assert (Hf : o <> OutOfFuel).
  { apply (post_fuel _ _ _ _ Hp). unfold remaining, parse_fuel. simpl. lia. }
  assert (Hb : o <> Fault OutOfBounds).
  { apply (post_safe _ _ _ _ Hp). exact Hin. }
  unfold parse_tokens, rdp_generate_ast in E.
  destruct (rdp_expression_blind (parse_fuel toks)
              (rdp_init toks (List.length toks))
              (rdp_init (without_blanks toks)
                 (List.length (without_blanks toks)))
              o c1' eq_refl E Hf Hb) as (c2' & E2 & _).
  rewrite (parse_tokens_fuel (without_blanks toks) (parse_fuel toks)).
  - unfold rdp_generate_ast. rewrite E2. reflexivity.
  - unfold rdp_generate_ast. rewrite E2. exact Hf.
Qed.

(** X2.  The parser does not see blanks: a well formed token sequence and
    the same sequence with its blanks taken out are parsed to the same
    tree, or fail in the same check. *)
Theorem blanks_are_not_seen :
  forall toks,
    well_formed_sequence toks = true ->
    fst (parse_tokens (without_blanks toks)) = fst (parse_tokens toks).
Proof.
  intros toks Hwf. apply parse_tokens_without_blanks.
  apply well_formed_terminated. exact Hwf.
Qed.

Lemma blanks_are_not_seen_witness :
  fst (parse_tokens
         (without_blanks
            [lex_mkspecial TOK_SPACE; number_token "1";
             lex_mkspecial TOK_SPACE; lex_mkspecial TOK_SPACE;
             lex_mkkw TOK_PLUS; number_token "2"; lex_mkspecial TOK_SPACE;
             lex_mkspecial TOK_EOF])) =
  fst (parse_tokens
         [lex_mkspecial TOK_SPACE; number_token "1";
          lex_mkspecial TOK_SPACE; lex_mkspecial TOK_SPACE;
          lex_mkkw TOK_PLUS; number_token "2"; lex_mkspecial TOK_SPACE;
          lex_mkspecial TOK_EOF]).
Proof.
  apply (blanks_are_not_seen
           [lex_mkspecial TOK_SPACE; number_token "1";
            lex_mkspecial TOK_SPACE; lex_mkspecial TOK_SPACE;
            lex_mkkw TOK_PLUS; number_token "2"; lex_mkspecial TOK_SPACE;
            lex_mkspecial TOK_EOF]).
  reflexivity.
Defined.

(** ** Tokens behind the expression *)








(** ** Precedence of the five levels *)

Lemma levels_nth (i : nat) (ops : list token_type) :
  nth_error levels i = Some ops ->
  (i = 0 /\ ops = mult_operators) \/ (i = 1 /\ ops = additive_operators) \/
  (i = 2 /\ ops = and_operators) \/ (i = 3 /\ ops = xor_operators) \/
  (i = 4 /\ ops = ior_operators).
Proof.
  destruct i as [|[|[|[|[|i]]]]]; simpl; intros H;
    try (injection H as <-; tauto).
  destruct i; discriminate H.
Qed.

(** X3.  Of two operators of different levels the one of the level called
    first (later in [levels]) binds weaker, whichever is written first: the
    levels are, from the tightest, [* / %], [+ -], [&], [^] and [|].  Tokens
    and trees are written field by field, with the constructors of
    [token_t] and [node_t]. *)
Theorem lower_level_binds_weaker :
  forall i j hi lo q p a b c,
    i < j ->
    nth_error levels i = Some hi -> nth_error levels j = Some lo ->
    In q hi -> In p lo ->
    fst (parse_tokens
           [mk_token TOK_NUMBER true (Some a); mk_token p false None;
            mk_token TOK_NUMBER true (Some b); mk_token q false None;
            mk_token TOK_NUMBER true (Some c); mk_token TOK_EOF false None])
    = Done (node_binary p false
              (node_value TOK_NUMBER true (strtol a))
              (node_binary q false
                 (node_value TOK_NUMBER true (strtol b))
                 (node_value TOK_NUMBER true (strtol c)))) /\
    fst (parse_tokens
           [mk_token TOK_NUMBER true (Some a); mk_token q false None;
            mk_token TOK_NUMBER true (Some b); mk_token p false None;
            mk_token TOK_NUMBER true (Some c); mk_token TOK_EOF false None])
    = Done (node_binary p false
              (node_binary q false
                 (node_value TOK_NUMBER true (strtol a))
                 (node_value TOK_NUMBER true (strtol b)))
              (node_value TOK_NUMBER true (strtol c))).
Proof.
  intros i j hi lo q p a b c Hij Hi Hj Hq Hp.
  apply levels_nth in Hi. apply levels_nth in Hj.
  repeat match goal with
         | H : _ \/ _ |- _ => destruct H
         | H : _ /\ _ |- _ => destruct H
         end; subst; try lia;
    simpl in Hq, Hp;
    repeat match goal with
           | H : _ \/ _ |- _ => destruct H
           | H : False |- _ => destruct H
           end; subst; split; reflexivity.
Qed.

Lemma lower_level_binds_weaker_witness :
  fst (parse_tokens
         [mk_token TOK_NUMBER true (Some "6"%string);
          mk_token TOK_BWOR false None;
          mk_token TOK_NUMBER true (Some "5"%string);
          mk_token TOK_BWAND false None;
          mk_token TOK_NUMBER true (Some "4"%string);
          mk_token TOK_EOF false None]) =
  Done (node_binary TOK_BWOR false
          (node_value TOK_NUMBER true 6)
          (node_binary TOK_BWAND false
             (node_value TOK_NUMBER true 5)
             (node_value TOK_NUMBER true 4))) /\
  fst (parse_tokens
         [mk_token TOK_NUMBER true (Some "6"%string);
          mk_token TOK_BWAND false None;
          mk_token TOK_NUMBER true (Some "5"%string);
          mk_token TOK_BWOR false None;
          mk_token TOK_NUMBER true (Some "4"%string);
          mk_token TOK_EOF false None]) =
  Done (node_binary TOK_BWOR false
          (node_binary TOK_BWAND false
             (node_value TOK_NUMBER true 6)
             (node_value TOK_NUMBER true 5))
          (node_value TOK_NUMBER true 4)).
Proof.
  apply (lower_level_binds_weaker 2 4 and_operators ior_operators
           TOK_BWAND TOK_BWOR "6"%string "5"%string "4"%string);
    [lia|reflexivity|reflexivity|simpl; auto|simpl; auto].
Defined.

(** ** Where a parse begins and where it stops *)

Lemma rdp_consume_blanks_skip :
  forall blanks fuel c t rest,
    List.length blanks < fuel ->
    Forall (fun b => type b = TOK_SPACE) blanks ->
    type t <> TOK_SPACE ->
    view c = blanks ++ t :: rest ->
    exists c', rdp_consume_blanks fuel c = (Done tt, c') /\
               view c' = t :: rest.
Proof.
  induction blanks as [|b blanks IH]; intros fuel c t rest Hf Hb Ht Hv.
  - destruct (view_cons _ _ _ Hv) as [Hn _]. exists c. split; [|exact Hv].
    apply (rdp_consume_blanks_stay fuel c t); [simpl in Hf; lia|exact Hn|].
    exact Ht.
  - destruct fuel as [|fuel]; [simpl in Hf; lia|].
    inversion Hb as [|? ? Hb1 Hb2]; subst.
    simpl in Hv. destruct (view_cons _ _ _ Hv) as [Hn Hv'].
    destruct (IH fuel (consumed c) t rest ltac:(simpl in Hf; lia) Hb2 Ht Hv')
      as (c' & E & Hc').
    exists c'. split; [|exact Hc'].
    simpl rdp_consume_blanks. unfold bind, rdp_peek. rewrite Hn, Hb1.
    exact E.
Qed.

Lemma fold_level_failed (fuel : nat) (ops : list token_type)
  (higher : M rdp_t node_t) (c c' : rdp_t) (e : parse_error) :
  higher c = (Failed e, c') ->
  fold_level fuel ops higher c = (Failed e, c').
Proof. intros H. unfold fold_level, bind. rewrite H. reflexivity. Qed.

Lemma rdp_ior_exp_failed (fuel : nat) (ex : M rdp_t node_t) (c c' : rdp_t)
  (e : parse_error) :
  rdp_primary_exp fuel ex c = (Failed e, c') ->
  rdp_ior_exp fuel ex c = (Failed e, c').
Proof.
  intros H.
  rewrite rdp_ior_exp_fold. apply fold_level_failed.
  rewrite rdp_xor_exp_fold. apply fold_level_failed.
  rewrite rdp_and_exp_fold. apply fold_level_failed.
  rewrite rdp_additive_exp_fold. apply fold_level_failed.
  rewrite rdp_mult_exp_fold. apply fold_level_failed.
  exact H.
Qed.

(** X4.  A token sequence whose first token after the blanks is neither a
    number nor an opening parenthesis is rejected in the check of
    [rdp_const]: the empty input, which begins with the end of input token,
    and an input that begins with an operator. *)
Theorem parse_rejects_a_bad_start :
  forall blanks t rest,
    Forall (fun b => type b = TOK_SPACE) blanks ->
    type t <> TOK_SPACE -> type t <> TOK_NUMBER -> type t <> TOK_LPAREN ->
    fst (parse_tokens (blanks ++ t :: rest)) =
    Failed (UnexpectedToken TOK_NUMBER (type t) "Invalid symbol encountered").
Proof.
  intros blanks t rest Hb Hs Hn Hl.
  unfold parse_tokens, rdp_generate_ast, parse_fuel.
  set (toks := blanks ++ t :: rest).
  replace (List.length toks + 2) with (S (List.length toks + 1)) by lia.
  cbn [rdp_expression].
  set (fuel := List.length toks + 1).
  set (c := rdp_init toks (List.length toks)).
  assert (Hf : List.length blanks < fuel).
  { unfold fuel, toks. rewrite length_app. lia. }
  destruct (rdp_consume_blanks_skip blanks fuel c t rest Hf Hb Hs eq_refl)
    as (c' & E & Hv).
  destruct (view_cons _ _ _ Hv) as [Hc' _].
  rewrite (rdp_ior_exp_failed fuel (rdp_expression fuel) c (consumed c')
             (UnexpectedToken TOK_NUMBER (type t)
                "Invalid symbol encountered")); [reflexivity|].
  unfold rdp_primary_exp, bind. rewrite E.
  unfold rdp_peek at 1. rewrite Hc'.
  replace (token_type_eqb (type t) TOK_LPAREN) with false.
  2:{ symmetry. destruct (token_type_eqb (type t) TOK_LPAREN) eqn:El;
        [|reflexivity]. apply token_type_eqb_eq in El. contradiction. }
  unfold rdp_const, bind.
  rewrite (rdp_consume_blanks_stay fuel c' t); [|lia|exact Hc'|exact Hs].
  unfold rdp_pop, bind, rdp_peek, rdp_consume, ret. rewrite Hc'.
  replace (token_type_eqb (type t) TOK_NUMBER) with false.
  2:{ symmetry. destruct (token_type_eqb (type t) TOK_NUMBER) eqn:El;
        [|reflexivity]. apply token_type_eqb_eq in El. contradiction. }
  reflexivity.
Qed.

Lemma parse_rejects_a_bad_start_witness :
  fst (parse_tokens
         ([lex_mkspecial TOK_SPACE] ++ lex_mkkw TOK_MINUS ::
            [number_token "1"; lex_mkspecial TOK_EOF])) =
  Failed (UnexpectedToken TOK_NUMBER TOK_MINUS "Invalid symbol encountered").
Proof.
  apply (parse_rejects_a_bad_start [lex_mkspecial TOK_SPACE]
           (lex_mkkw TOK_MINUS) [number_token "1"; lex_mkspecial TOK_EOF]);
    [repeat constructor|discriminate|discriminate|discriminate].
Defined.

Lemma tree_shape_nonempty (n : node_t) : inorder n <> [].
Proof.
  destruct n; simpl; try discriminate.
  destruct (inorder n1); discriminate.
Qed.

(** X5.  A parse that succeeds has consumed at least one token and stops on
    a token of the sequence that is neither a blank nor one of the eight
    operators: no operator is left behind a tree. *)
Theorem parse_stops_behind_the_expression :
  forall toks root ctx',
    parse_tokens toks = (Done root, ctx') ->
    1 <= position ctx' /\
    exists t,
      nth_error toks (position ctx') = Some t /\
      type t <> TOK_SPACE /\
      ~ In (type t) binary_operators.
Proof.
  intros toks root ctx' H.
  destruct (parse_tokens_stop toks root ctx' H) as (_ & t & Hn & Hk).
  split.
  - pose proof (tree_shape_nonempty root) as Hne.
    destruct (position ctx') as [|p] eqn:Ep; [|lia].
    exfalso. apply Hne.
    unfold parse_tokens, rdp_generate_ast in H.
    destruct (rdp_expression_yields _ _ _ _ H) as (used & Hv & Hs).
    pose proof (parse_tokens_stop toks root ctx') as Hstop.
    rewrite <- Hs.
    assert (Hu : used = []).
    { destruct (Hstop H) as (Ht & _).
      unfold view in Hv. rewrite Ht, Ep in Hv. simpl in Hv.
      destruct used as [|u used]; [reflexivity|].
      apply (f_equal (@List.length token_t)) in Hv.
      rewrite length_app in Hv. simpl in Hv. lia. }
    rewrite Hu. reflexivity.
  - exists t. split; [exact Hn|].
    unfold peek_kind in Hk.
    destruct (token_type_eqb (type t) TOK_SPACE) eqn:Es.
    + apply token_type_eqb_eq in Es. cbn [orb] in Hk. congruence.
    + cbn [orb] in Hk.
      destruct (is_operator binary_operators (type t)) eqn:Eo.
      * rewrite Hk in Eo. discriminate Eo.
      * split.
        -- intros E. apply token_type_eqb_eq in E. congruence.
        -- intros Hin. apply is_operator_In in Hin. congruence.
Qed.

Lemma parse_stops_behind_the_expression_witness :
  1 <= 3 /\
  exists t,
    nth_error [number_token "1"; lex_mkkw TOK_PLUS; number_token "2";
               lex_mkkw TOK_LT; number_token "3"; lex_mkspecial TOK_EOF] 3
    = Some t /\
    type t <> TOK_SPACE /\ ~ In (type t) binary_operators.
Proof.
  apply (parse_stops_behind_the_expression
           [number_token "1"; lex_mkkw TOK_PLUS; number_token "2";
            lex_mkkw TOK_LT; number_token "3"; lex_mkspecial TOK_EOF]
           (Binary TOK_PLUS (Leaf 1) (Leaf 2))
           (mk_rdp [number_token "1"; lex_mkkw TOK_PLUS; number_token "2";
                    lex_mkkw TOK_LT; number_token "3";
                    lex_mkspecial TOK_EOF] 3 6)).
  reflexivity.
Defined.

(** ** Numbers and identifiers *)

Lemma seven_bits (a : ascii) :
  (ch a < 128)%Z -> byte_of (to_char (ch a)) = a.
Proof.
  intros H. pose proof (ch_range a) as Hr. unfold to_char.
  rewrite Z.mod_small by lia.
  replace (ch a + 128 - 128)%Z with (ch a) by lia. apply byte_of_ch.
Qed.

Lemma isdigit_bits (a : ascii) :
  isdigit (ch a) = true -> (ch a < 128)%Z /\ isspace (ch a) = false.
Proof.
  unfold isdigit, isspace, in_range. intros H.
  apply andb_prop in H. destruct H as [H1 H2].
  apply Z.leb_le in H1, H2.
  change (ch "0") with 48%Z in H1. change (ch "9") with 57%Z in H2.
  split; [lia|].
  destruct (Z.eqb_spec (ch a) 32); [lia|].
  destruct (Z.leb_spec 9 (ch a)); [|reflexivity].
  destruct (Z.leb_spec (ch a) 13); [lia|reflexivity].
Qed.

Lemma isalpha_bits (a : ascii) :
  ident_start (ch a) = true ->
  (ch a < 128)%Z /\ isspace (ch a) = false /\ isdigit (ch a) = false.
Proof.
  unfold ident_start, isalpha, isdigit, isspace, in_range. intros H.
  change (ch "a") with 97%Z in H. change (ch "z") with 122%Z in H.
  change (ch "A") with 65%Z in H. change (ch "Z") with 90%Z in H.
  change (ch "_") with 95%Z in H.
  change (ch "0") with 48%Z. change (ch "9") with 57%Z.
  assert (Hr : (65 <= ch a <= 122)%Z).
  { repeat match type of H with
           | (_ || _)%bool = true =>
               apply orb_prop in H; destruct H as [H|H]
           end;
      try (apply andb_prop in H; destruct H as [H1 H2];
           apply Z.leb_le in H1, H2; lia).
    apply Z.eqb_eq in H. lia. }
  split; [lia|]. split.
  - destruct (Z.eqb_spec (ch a) 32); [lia|].
    destruct (Z.leb_spec 9 (ch a)); [|reflexivity].
    destruct (Z.leb_spec (ch a) 13); [lia|reflexivity].
  - destruct (Z.leb_spec 48 (ch a)); [|reflexivity].
    destruct (Z.leb_spec (ch a) 57); [lia|reflexivity].
Qed.

Lemma stops_ends (p : Z -> bool) (rest : list ascii) :
  stops p rest -> ends p rest /\ pushed_back rest = rest.
Proof.
  destruct rest as [|c rest]; simpl; [auto|]. intros [Hp H].
  split; [exact Hp|].
  destruct (Z.eqb_spec (ch c) 255); [contradiction|reflexivity].
Qed.

Lemma lex_chnumber_loop_ends :
  forall ds fuel number rest,
    Forall (fun a => isdigit (ch a) = true) ds ->
    ends isdigit rest ->
    List.length ds < fuel ->
    lex_chnumber_loop fuel number (FILE_BACKED (ds ++ rest)) =
    (Done (number ++ ds), FILE_BACKED (pushed_back rest)).
Proof.
  induction ds as [|a ds IH]; intros fuel number rest Hd Hs Hf;
    (destruct fuel as [|fuel]; [simpl in Hf; lia|]).
  - simpl app. rewrite app_nil_r. simpl lex_chnumber_loop. unfold bind at 1.
    destruct rest as [|c rest]; [reflexivity|].
    rewrite lex_getc_file_cons. pose proof (ch_range c) as Hr.
    destruct (Z.eqb_spec (ch c) EOF) as [E|_]; [unfold EOF in E; lia|].
    simpl in Hs. rewrite Hs. cbn [negb]. unfold bind.
    rewrite lex_ungetc_file_ch. reflexivity.
  - inversion Hd as [|? ? Ha Hd']; subst.
    simpl app. simpl lex_chnumber_loop. unfold bind at 1.
    rewrite lex_getc_file_cons. pose proof (ch_range a) as Hr.
    destruct (Z.eqb_spec (ch a) EOF) as [E|_]; [unfold EOF in E; lia|].
    rewrite Ha. cbn [negb].
    rewrite IH by (assumption || (simpl in Hf; lia)).
    unfold vec_char_push.
    rewrite (seven_bits a (proj1 (isdigit_bits a Ha))), <- app_assoc.
    reflexivity.
Qed.

Lemma lex_chident_loop_ends :
  forall ls fuel identifier rest,
    Forall (fun a => isalpha (ch a) = true) ls ->
    ends isalpha rest ->
    List.length ls < fuel ->
    lex_chident_loop fuel identifier (FILE_BACKED (ls ++ rest)) =
    (Done (identifier ++ ls), FILE_BACKED (pushed_back rest)).
Proof.
  induction ls as [|a ls IH]; intros fuel identifier rest Hd Hs Hf;
    (destruct fuel as [|fuel]; [simpl in Hf; lia|]).
  - simpl app. rewrite app_nil_r. simpl lex_chident_loop. unfold bind at 1.
    destruct rest as [|c rest]; [reflexivity|].
    rewrite lex_getc_file_cons. pose proof (ch_range c) as Hr.
    destruct (Z.eqb_spec (ch c) EOF) as [E|_]; [unfold EOF in E; lia|].
    simpl in Hs. rewrite Hs. cbn [negb orb]. unfold bind.
    rewrite lex_ungetc_file_ch. reflexivity.
  - inversion Hd as [|? ? Ha Hd']; subst.
    simpl app. simpl lex_chident_loop. unfold bind at 1.
    rewrite lex_getc_file_cons. pose proof (ch_range a) as Hr.
    destruct (Z.eqb_spec (ch a) EOF) as [E|_]; [unfold EOF in E; lia|].
    assert (Hi : ident_start (ch a) = true).
    { unfold ident_start. rewrite Ha. reflexivity. }
    destruct (isalpha_bits a Hi) as (H7 & _ & _).
    rewrite Ha. cbn [negb orb].
    destruct (Z.eqb_spec (ch a) (ch "_")) as [E|_].
    { exfalso. rewrite E in Ha. discriminate Ha. }
    rewrite IH by (assumption || (simpl in Hf; lia)).
    unfold vec_char_push. rewrite (seven_bits a H7), <- app_assoc.
    reflexivity.
Qed.

(** The tests of [lex_dispatch] that come before the one that holds. *)
Ltac earlier_cases a H :=
  repeat match goal with
         | |- context [(ch a =? ?x)%Z] =>
             destruct (Z.eqb_spec (ch a) x) as [?E|_];
             [exfalso; rewrite E in H; vm_compute in H; discriminate H|]
         end.

Lemma lex_token_number_ends (fuel : nat) (d : ascii)
  (ds rest : list ascii) :
  isdigit (ch d) = true ->
  Forall (fun a => isdigit (ch a) = true) ds ->
  ends isdigit rest ->
  List.length ds < fuel ->
  lex_token fuel (FILE_BACKED (d :: ds ++ rest)) =
  (Done (Some (mk_token TOK_NUMBER true
                 (Some (string_of_list_ascii (d :: ds))))),
   FILE_BACKED (pushed_back rest)).
Proof.
  intros Hd Hds Hs Hf. destruct (isdigit_bits d Hd) as [H7 Hsp].
  rewrite lex_token_file_nonspace;
    [|exact Hsp|apply Z.eqb_neq; lia].
  rewrite lex_switch_file_cons. unfold lex_dispatch.
  earlier_cases d Hd.
  change (in_range (ch "0") (ch "9") (ch d)) with (isdigit (ch d)).
  rewrite Hd. unfold lex_chnumber, bind.
  rewrite (lex_chnumber_loop_ends ds fuel _ rest Hds Hs Hf).
  unfold ret, vec_char_push, vec_char_init, vec_char_data.
  rewrite (seven_bits d H7). reflexivity.
Qed.

Lemma lex_token_ident_ends (fuel : nat) (a : ascii) (ls rest : list ascii) :
  ident_start (ch a) = true ->
  Forall (fun b => isalpha (ch b) = true) ls ->
  ends isalpha rest ->
  List.length ls < fuel ->
  lex_token fuel (FILE_BACKED (a :: ls ++ rest)) =
  (Done (Some (mk_token TOK_IDENT true
                 (Some (string_of_list_ascii (a :: ls))))),
   FILE_BACKED (pushed_back rest)).
Proof.
  intros Ha Hls Hs Hf. destruct (isalpha_bits a Ha) as (H7 & Hsp & Hd).
  rewrite lex_token_file_nonspace;
    [|exact Hsp|apply Z.eqb_neq; lia].
  rewrite lex_switch_file_cons. unfold lex_dispatch.
  repeat match goal with
         | |- context [(ch a =? ?x)%Z] =>
             lazymatch x with
             | ch "_" => fail
             | _ =>
                 destruct (Z.eqb_spec (ch a) x) as [?E|_];
                 [exfalso; rewrite E in Ha; vm_compute in Ha;
                  discriminate Ha|]
             end
         end.
  change (in_range (ch "0") (ch "9") (ch a)) with (isdigit (ch a)).
  rewrite Hd.
  change (in_range (ch "a") (ch "z") (ch a)
          || in_range (ch "A") (ch "Z") (ch a)
          || (ch a =? ch "_")%Z) with (ident_start (ch a)).
  rewrite Ha. unfold lex_chident, bind.
  rewrite (lex_chident_loop_ends ls fuel _ rest Hls Hs Hf).
  unfold ret, vec_char_push, vec_char_init, vec_char_data.
  rewrite (seven_bits a H7). reflexivity.
Qed.

(** When the character that ends the run is not the byte 255, it is the
    first one of what remains. *)
Lemma lex_token_number (fuel : nat) (d : ascii) (ds rest : list ascii) :
  isdigit (ch d) = true ->
  Forall (fun a => isdigit (ch a) = true) ds ->
  stops isdigit rest ->
  List.length ds < fuel ->
  lex_token fuel (FILE_BACKED (d :: ds ++ rest)) =
  (Done (Some (lex_mknumber TOK_NUMBER (string_of_list_ascii (d :: ds)))),
   FILE_BACKED rest).
Proof.
  intros Hd Hds Hs Hf. destruct (stops_ends _ _ Hs) as [He Hp].
  rewrite (lex_token_number_ends fuel d ds rest Hd Hds He Hf), Hp.
  reflexivity.
Qed.

Lemma lex_token_ident (fuel : nat) (a : ascii) (ls rest : list ascii) :
  ident_start (ch a) = true ->
  Forall (fun b => isalpha (ch b) = true) ls ->
  stops isalpha rest ->
  List.length ls < fuel ->
  lex_token fuel (FILE_BACKED (a :: ls ++ rest)) =
  (Done (Some (lex_mkident TOK_IDENT (string_of_list_ascii (a :: ls)))),
   FILE_BACKED rest).
Proof.
  intros Ha Hls Hs Hf. destruct (stops_ends _ _ Hs) as [He Hp].
  rewrite (lex_token_ident_ends fuel a ls rest Ha Hls He Hf), Hp.
  reflexivity.
Qed.

(** X6.  A number token is a longest run of decimal digits: the call that
    finds a digit returns the token of kind [TOK_NUMBER] whose text is the
    digits up to the first character that is none, and hands that
    character back to the file.  The next call begins with it, unless it
    is the byte 255, which a file does not take back: what the file holds
    then is [pushed_back rest]. *)
Theorem number_is_the_longest_run_of_digits :
  forall fuel d ds rest,
    isdigit (ch d) = true ->
    Forall (fun a => isdigit (ch a) = true) ds ->
    ends isdigit rest ->
    List.length ds < fuel ->
    lex_token fuel (FILE_BACKED (d :: ds ++ rest)) =
    (Done (Some (mk_token TOK_NUMBER true
                   (Some (string_of_list_ascii (d :: ds))))),
     FILE_BACKED (pushed_back rest)) /\
    (stops isdigit rest -> pushed_back rest = rest).
Proof.
  intros fuel d ds rest Hd Hds Hs Hf.
  split; [apply lex_token_number_ends; assumption|].
  intros H. apply (stops_ends _ _ H).
Qed.

Lemma number_is_the_longest_run_of_digits_witness :
  lex_token 3 (file_of "120+3") =
  (Done (Some (mk_token TOK_NUMBER true (Some "120"%string))),
   file_of "+3") /\
  lex_token 3 (FILE_BACKED ["1"; "2"; "255"; "3"]%char) =
  (Done (Some (mk_token TOK_NUMBER true (Some "12"%string))),
   FILE_BACKED ["3"]%char).
Proof.
  split.
  - apply (proj1 (number_is_the_longest_run_of_digits 3 "1"%char
                    ["2"; "0"]%char ["+"; "3"]%char eq_refl
                    ltac:(repeat constructor) eq_refl
                    ltac:(simpl; lia))).
  - apply (proj1 (number_is_the_longest_run_of_digits 3 "1"%char
                    ["2"]%char ["255"; "3"]%char eq_refl
                    ltac:(repeat constructor) eq_refl
                    ltac:(simpl; lia))).
Defined.

(** X7.  An identifier is a letter or an underscore followed by the longest
    run of letters: the token is of kind [TOK_IDENT] and its text is these
    characters.  A digit or an underscore behind the first character ends
    the token and is handed back to the file, so that [ab_c] begins with
    the identifier [ab]; the next call begins with that character, unless
    it is the byte 255, which a file does not take back
    ([pushed_back rest]). *)
Theorem identifier_is_a_run_of_letters :
  forall fuel a ls rest,
    ident_start (ch a) = true ->
    Forall (fun b => isalpha (ch b) = true) ls ->
    ends isalpha rest ->
    List.length ls < fuel ->
    lex_token fuel (FILE_BACKED (a :: ls ++ rest)) =
    (Done (Some (mk_token TOK_IDENT true
                   (Some (string_of_list_ascii (a :: ls))))),
     FILE_BACKED (pushed_back rest)) /\
    (stops isalpha rest -> pushed_back rest = rest).
Proof.
  intros fuel a ls rest Ha Hls Hs Hf.
  split; [apply lex_token_ident_ends; assumption|].
  intros H. apply (stops_ends _ _ H).
Qed.

Lemma identifier_is_a_run_of_letters_witness :
  lex_token 2 (file_of "ab_c") =
  (Done (Some (mk_token TOK_IDENT true (Some "ab"%string))),
   file_of "_c") /\
  lex_token 2 (FILE_BACKED ["_"; "b"; "255"; "c"]%char) =
  (Done (Some (mk_token TOK_IDENT true (Some "_b"%string))),
   FILE_BACKED ["c"]%char).
Proof.
  split.
  - apply (proj1 (identifier_is_a_run_of_letters 2 "a"%char ["b"]%char
                    ["_"; "c"]%char eq_refl ltac:(repeat constructor)
                    eq_refl ltac:(simpl; lia))).
  - apply (proj1 (identifier_is_a_run_of_letters 2 "_"%char ["b"]%char
                    ["255"; "c"]%char eq_refl ltac:(repeat constructor)
                    eq_refl ltac:(simpl; lia))).
Defined.

(** ** Decimal literals *)

Lemma strtol_digits_acc (d : Decimal.uint) (acc : positive) :
  strtol_digits (list_ascii_of_string (NilEmpty.string_of_uint d))
    (Z.pos acc) =
  Z.pos (Pos.of_uint_acc d acc).
Proof.
  revert acc. induction d as [|d IH|d IH|d IH|d IH|d IH|d IH|d IH|d IH|d IH|d IH];
    intros acc; [reflexivity|..];
    cbn [NilEmpty.string_of_uint list_ascii_of_string strtol_digits
         Pos.of_uint_acc];
    match goal with
    | |- context [isdigit (ch ?a)] =>
        change (isdigit (ch a)) with true; cbv beta iota;
        let v := eval vm_compute in (ch a - ch "0")%Z in
        change (ch a - ch "0")%Z with v
    end;
    rewrite <- IH; f_equal; lia.
Qed.

Lemma strtol_digits_uint (d : Decimal.uint) :
  strtol_digits (list_ascii_of_string (NilEmpty.string_of_uint d)) 0 =
  Z.of_N (Pos.of_uint d).
Proof.
  induction d as [|d IH|d IH|d IH|d IH|d IH|d IH|d IH|d IH|d IH|d IH];
    [reflexivity|exact IH|..];
    cbn [NilEmpty.string_of_uint list_ascii_of_string strtol_digits
         Pos.of_uint];
    match goal with
    | |- context [isdigit (ch ?a)] =>
        change (isdigit (ch a)) with true; cbv beta iota;
        let v := eval vm_compute in (10 * 0 + (ch a - ch "0"))%Z in
        change (10 * 0 + (ch a - ch "0"))%Z with v
    end;
    apply strtol_digits_acc.
Qed.

Lemma uint_digits (d : Decimal.uint) :
  Forall (fun a => isdigit (ch a) = true)
    (list_ascii_of_string (NilEmpty.string_of_uint d)).
Proof.
  induction d; simpl; constructor; (reflexivity || assumption).
Qed.

Lemma strtol_of_digits (a : ascii) (s : string) :
  isdigit (ch a) = true ->
  strtol (String a s) =
  Z.min LONG_MAX (strtol_digits (a :: list_ascii_of_string s) 0).
Proof.
  intros H.
  destruct a as [[] [] [] [] [] [] [] []];
    vm_compute in H; try discriminate H; reflexivity.
Qed.

Lemma to_uint_digits (n : N) :
  exists a s, NilEmpty.string_of_uint (N.to_uint n) = String a s /\
              isdigit (ch a) = true.
Proof.
  pose proof (uint_digits (N.to_uint n)) as H.
  destruct (NilEmpty.string_of_uint (N.to_uint n)) as [|a s] eqn:E.
  - exfalso. destruct n as [|p]; [discriminate E|].
    simpl in E. apply (DecimalPos.Unsigned.to_uint_nonnil p).
    destruct (Pos.to_uint p); try discriminate E. reflexivity.
  - simpl in H. inversion H; subst. eauto.
Qed.

(** X8.  A number written in decimal digits is read as its value: the text
    is lexed to one number token that carries the digits, followed by the
    end of input token, and parsed to the terminal node of kind
    [TOK_NUMBER] that carries the value, or [LONG_MAX] when the value is
    larger, as [strtol] returns it. *)
Theorem decimal_literal_is_read_as_its_value :
  forall n : N,
    lex_all (file_of (NilEmpty.string_of_uint (N.to_uint n))) =
    Done (Some [mk_token TOK_NUMBER true
                  (Some (NilEmpty.string_of_uint (N.to_uint n)));
                mk_token TOK_EOF false None]) /\
    interpret (file_of (NilEmpty.string_of_uint (N.to_uint n))) =
    Done (Some (node_value TOK_NUMBER true (Z.min LONG_MAX (Z.of_N n)))).
Proof.
  intros n.
  destruct (to_uint_digits n) as (a & s & E & Ha).
  pose proof (uint_digits (N.to_uint n)) as Hd.
  pose proof (strtol_digits_uint (N.to_uint n)) as Hv.
  rewrite E in Hd, Hv. simpl in Hd. inversion Hd as [|? ? _ Hs]; subst.
  change (Pos.of_uint (N.to_uint n)) with (N.of_uint (N.to_uint n)) in Hv.
  rewrite DecimalN.Unsigned.of_to in Hv.
  rewrite E.
  assert (Hl : lex_all (file_of (String a s)) =
               Done (Some [number_token (String a s);
                           lex_mkspecial TOK_EOF])).
  { unfold lex_all, file_of, lex_init_file, line_fuel.
    cbn [lex_remaining list_ascii_of_string List.length].
    replace (S (List.length (list_ascii_of_string s)) + 2)
      with (S (S (S (List.length (list_ascii_of_string s))))) by lia.
    cbn [lex_line]. unfold bind.
    pose proof (lex_token_number
                  (S (S (List.length (list_ascii_of_string s)))) a
                  (list_ascii_of_string s) [] Ha Hs I ltac:(lia)) as Et.
    rewrite app_nil_r in Et. rewrite Et.
    cbn [string_of_list_ascii].
    rewrite string_of_list_ascii_of_string.
    reflexivity. }
  split; [exact Hl|]. unfold interpret. rewrite Hl.
  change (fst (parse_tokens [number_token (String a s);
                             lex_mkspecial TOK_EOF]))
    with (@Done node_t (Leaf (strtol (String a s)))).
  cbn [list_ascii_of_string] in Hv.
  rewrite (strtol_of_digits a s Ha), Hv. reflexivity.
Qed.

(** ** The front end on a file: no fault, no negative number *)

Lemma isdigit_byte (c : Z) :
  isdigit c = true -> isdigit (ch (byte_of (to_char c))) = true.
Proof.
  intros Hc. replace (ch (byte_of (to_char c))) with c; [exact Hc|].
  unfold isdigit, in_range in Hc. apply andb_prop in Hc.
  destruct Hc as [H1 H2]. apply Z.leb_le in H1, H2.
  change (ch "0") with 48%Z in H1. change (ch "9") with 57%Z in H2.
  unfold to_char, byte_of, ch.
  rewrite (Z.mod_small (c + 128)) by lia.
  replace (c + 128 - 128)%Z with c by lia.
  rewrite Z.mod_small by lia.
  rewrite N_ascii_embedding; [lia|].
  apply N2Z.inj_lt. rewrite Z2N.id by lia. simpl. lia.
Qed.

Lemma lex_chnumber_loop_digits :
  forall fuel number ctx num ctx',
    number <> [] /\ Forall (fun a => isdigit (ch a) = true) number ->
    lex_chnumber_loop fuel number ctx = (Done num, ctx') ->
    num <> [] /\ Forall (fun a => isdigit (ch a) = true) num.
Proof.
  induction fuel as [|fuel IH]; intros number ctx num ctx' Hn H;
    [discriminate H|].
  revert H. simpl lex_chnumber_loop. unfold bind at 1.
  destruct (lex_getc ctx) as [[c| | |] ctx1]; try discriminate.
  destruct (c =? EOF)%Z.
  - unfold ret. intros H. injection H as <- _. exact Hn.
  - destruct (isdigit c) eqn:Hc; cbn [negb].
    + apply IH. unfold vec_char_push. destruct Hn as [Hne Hn]. split.
      * destruct number; [contradiction|discriminate].
      * apply Forall_app. split; [exact Hn|].
        constructor; [apply isdigit_byte; exact Hc|constructor].
    + unfold bind. destruct (lex_ungetc c ctx1) as [[[]| | |] ctx2];
        try discriminate.
      unfold ret. intros H. injection H as <- _. exact Hn.
Qed.

Lemma lex_chnumber_ok (fuel : nat) (c : Z) (ctx ctx' : lex_t) (t : token_t) :
  isdigit c = true ->
  lex_chnumber fuel c ctx = (Done (Some t), ctx') -> token_ok t.
Proof.
  intros Hc. unfold lex_chnumber, bind.
  destruct (lex_chnumber_loop fuel (vec_char_push vec_char_init c) ctx)
    as [[num| | |] ctx1] eqn:E; try discriminate.
  unfold ret. intros H. injection H as <- _. intros _.
  exists (vec_char_data num). split; [reflexivity|].
  assert (H0 : vec_char_push vec_char_init c <> [] /\
               Forall (fun a => isdigit (ch a) = true)
                 (vec_char_push vec_char_init c)).
  { split; [discriminate|].
    constructor; [apply isdigit_byte; exact Hc|constructor]. }
  destruct (lex_chnumber_loop_digits _ _ _ _ _ H0 E) as [Hne Hd].
  unfold digits, vec_char_data. rewrite list_ascii_of_string_of_list_ascii.
  split; [|exact Hd].
  destruct num; [contradiction|discriminate].
Qed.

(** The functions that return operator tokens only. *)
Ltac operator_only :=
  let ctx := fresh "ctx" in
  let t := fresh "t" in
  let ctx' := fresh "ctx'" in
  intros ctx t ctx'; unfold bind;
  destruct (lex_getc ctx) as [[?c| | |] ?ctx1]; try discriminate;
  repeat match goal with
         | |- context [if ?b then _ else _] => destruct b
         end;
  unfold bind;
  try match goal with
      | |- context [lex_ungetc ?c ?x] =>
          destruct (lex_ungetc c x) as [[[]| | |] ?ctx2]; try discriminate
      end;
  unfold ret; intros H;
  first [ discriminate H
        | injection H as <- _; intros H; discriminate H ].

Lemma lex_chnot_ok :
  forall ctx t ctx', lex_chnot ctx = (Done (Some t), ctx') -> token_ok t.
Proof. unfold lex_chnot. operator_only. Qed.

Lemma lex_cheq_ok :
  forall ctx t ctx', lex_cheq ctx = (Done (Some t), ctx') -> token_ok t.
Proof. unfold lex_cheq. operator_only. Qed.

Lemma lex_chor_ok :
  forall ctx t ctx', lex_chor ctx = (Done (Some t), ctx') -> token_ok t.
Proof. unfold lex_chor. operator_only. Qed.

Lemma lex_chand_ok :
  forall ctx t ctx', lex_chand ctx = (Done (Some t), ctx') -> token_ok t.
Proof. unfold lex_chand. operator_only. Qed.

Lemma lex_chlbr_ok :
  forall ctx t ctx', lex_chlbr ctx = (Done (Some t), ctx') -> token_ok t.
Proof. unfold lex_chlbr. operator_only. Qed.

Lemma lex_chrbr_ok :
  forall ctx t ctx', lex_chrbr ctx = (Done (Some t), ctx') -> token_ok t.
Proof. unfold lex_chrbr. operator_only. Qed.

Lemma lex_chident_ok (fuel : nat) (c : Z) (ctx ctx' : lex_t) (t : token_t) :
  lex_chident fuel c ctx = (Done (Some t), ctx') -> token_ok t.
Proof.
  unfold lex_chident, bind.
  destruct (lex_chident_loop fuel (vec_char_push vec_char_init c) ctx)
    as [[ident| | |] ctx1]; try discriminate.
  unfold ret. intros H. injection H as <- _. intros H. discriminate H.
Qed.

Lemma lex_dispatch_ok (fuel : nat) (c : Z) (ctx ctx' : lex_t) (t : token_t) :
  lex_dispatch fuel c ctx = (Done (Some t), ctx') -> token_ok t.
Proof.
  unfold lex_dispatch.
  repeat match goal with
         | |- (if ?b then _ else _) _ = _ -> _ => destruct b eqn:?
         end;
    try (unfold ret; intros H; injection H as <- _; intros H;
         discriminate H);
    first [ apply lex_chnot_ok | apply lex_cheq_ok | apply lex_chor_ok
          | apply lex_chand_ok | apply lex_chlbr_ok | apply lex_chrbr_ok
          | apply lex_chident_ok
          | apply lex_chnumber_ok; assumption ].
Qed.

Lemma lex_token_ok (fuel : nat) (ctx ctx' : lex_t) (t : token_t) :
  lex_token fuel ctx = (Done (Some t), ctx') -> token_ok t.
Proof.
  rewrite lex_token_switch. unfold bind.
  destruct (lex_skip_space ctx) as [[[]| | |] ctx1]; try discriminate.
  - unfold ret. intros H. injection H as <- _. intros H. discriminate H.
  - unfold lex_switch, bind.
    destruct (lex_getc ctx1) as [[c| | |] ctx2]; try discriminate.
    apply lex_dispatch_ok.
Qed.

Lemma lex_line_ok :
  forall n acc ctx toks ctx',
    Forall token_ok acc ->
    lex_line n acc ctx = (Done (Some toks), ctx') ->
    Forall token_ok toks.
Proof.
  induction n as [|n IH]; intros acc ctx toks ctx' Ha H; [discriminate H|].
  revert H. simpl lex_line. unfold bind.
  destruct (lex_token n ctx) as [[[t|]| | |] ctx1] eqn:E; try discriminate.
  assert (Ha' : Forall token_ok (vec_token_push acc t)).
  { unfold vec_token_push. apply Forall_app. split; [exact Ha|].
    constructor; [exact (lex_token_ok _ _ _ _ E)|constructor]. }
  destruct (negb (token_type_eqb (type t) TOK_EOF)).
  - apply IH. exact Ha'.
  - unfold ret. intros H. injection H as <- _. exact Ha'.
Qed.

Lemma strtol_digits_nonneg :
  forall l acc, (0 <= acc)%Z -> (0 <= strtol_digits l acc)%Z.
Proof.
  induction l as [|a l IH]; intros acc Ha; cbn [strtol_digits];
    [exact Ha|].
  destruct (isdigit (ch a)) eqn:Hd; [|exact Ha].
  apply IH. unfold isdigit, in_range in Hd. apply andb_prop in Hd.
  destruct Hd as [H1 _]. apply Z.leb_le in H1.
  change (ch "0") with 48%Z in *. lia.
Qed.

Lemma strtol_bounds (s : string) :
  digits s -> (0 <= strtol s <= LONG_MAX)%Z.
Proof.
  intros [Hne Hd]. destruct s as [|a s]; [contradiction|].
  simpl in Hd. inversion Hd as [|? ? Ha _]; subst.
  rewrite (strtol_of_digits a s Ha).
  pose proof (strtol_digits_nonneg (a :: list_ascii_of_string s) 0
                (Z.le_refl 0)) as H0.
  unfold LONG_MAX in *. lia.
Qed.

Lemma initialised_ret (A : Type) (W : A -> Prop) (a : A) :
  W a -> initialised W (ret a).
Proof.
  intros Ha c Hc. unfold ret. simpl. split; [discriminate|].
  split; [exact Hc|]. intros a' E. injection E as <-. exact Ha.
Qed.

Lemma initialised_bind (A B : Type) (WA : A -> Prop) (WB : B -> Prop)
  (m : M rdp_t A) (k : A -> M rdp_t B) :
  initialised WA m -> (forall a, WA a -> initialised WB (k a)) ->
  initialised WB (bind m k).
Proof.
  intros Hm Hk c Hc. destruct (Hm c Hc) as (Hu & Ht & Ha).
  unfold bind. destruct (m c) as [[a|e|f|] c1]; simpl in *.
  - apply (Hk a (Ha a eq_refl) c1 Ht).
  - split; [discriminate|]. split; [exact Ht|]. discriminate.
  - split; [intros E; apply Hu; congruence|].
    split; [exact Ht|]. discriminate.
  - split; [discriminate|]. split; [exact Ht|]. discriminate.
Qed.

Lemma initialised_stop (A : Type) (W : A -> Prop) (f : M rdp_t A) :
  (forall c, exists o, f c = (o, c) /\ o <> Fault Uninitialised /\
                       forall a, o <> Done a) ->
  initialised W f.
Proof.
  intros H c Hc. destruct (H c) as (o & E & Hu & Hd). rewrite E. simpl.
  split; [exact Hu|]. split; [exact Hc|]. intros a Ha.
  destruct (Hd a Ha).
Qed.

Lemma initialised_peek : initialised token_ok rdp_peek.
Proof.
  intros c Hc. unfold rdp_peek.
  destruct (nth_error (tokens c) (position c)) as [t|] eqn:E; simpl.
  - split; [discriminate|]. split; [exact Hc|].
    intros a Ha. injection Ha as <-.
    apply nth_error_In in E. rewrite Forall_forall in Hc. auto.
  - split; [discriminate|]. split; [exact Hc|]. discriminate.
Qed.

Lemma initialised_consume : initialised (fun _ => True) rdp_consume.
Proof.
  intros c Hc. unfold rdp_consume. simpl.
  split; [discriminate|]. split; [exact Hc|]. auto.
Qed.

Lemma initialised_pop : initialised token_ok rdp_pop.
Proof.
  unfold rdp_pop.
  eapply initialised_bind; [apply initialised_peek|]. intros t Ht.
  eapply initialised_bind; [apply initialised_consume|]. intros _ _.
  apply initialised_ret. exact Ht.
Qed.

Lemma initialised_blanks :
  forall fuel, initialised (fun _ => True) (rdp_consume_blanks fuel).
Proof.
  induction fuel as [|fuel IH].
  - apply initialised_stop. intros c. exists OutOfFuel.
    repeat split; discriminate.
  - simpl. eapply initialised_bind; [apply initialised_peek|].
    intros t _. destruct (token_type_eqb (type t) TOK_SPACE).
    + eapply initialised_bind; [apply initialised_consume|].
      intros _ _. exact IH.
    + apply initialised_ret. exact I.
Qed.

Lemma initialised_xerror (A : Type) (W : A -> Prop)
  (expected found : token_type) (msg : string) :
  initialised W (@xerror A expected found msg).
Proof.
  apply initialised_stop. intros c. eexists. split; [reflexivity|].
  split; discriminate.
Qed.

Lemma rdp_const_initialised (fuel : nat) :
  initialised bounded (rdp_const fuel).
Proof.
  unfold rdp_const.
  eapply initialised_bind; [apply initialised_blanks|]. intros _ _.
  eapply initialised_bind; [apply initialised_pop|]. intros t Ht.
  destruct (token_type_eqb (type t) TOK_NUMBER) eqn:E; cbn [negb].
  - apply token_type_eqb_eq in E. destruct (Ht E) as (s & -> & Hs).
    apply initialised_ret. simpl. apply strtol_bounds. exact Hs.
  - apply initialised_xerror.
Qed.

Lemma rdp_primary_exp_initialised (fuel : nat) (e : M rdp_t node_t) :
  initialised bounded e -> initialised bounded (rdp_primary_exp fuel e).
Proof.
  intros He. unfold rdp_primary_exp.
  eapply initialised_bind; [apply initialised_blanks|]. intros _ _.
  eapply initialised_bind; [apply initialised_peek|]. intros lp _.
  destruct (token_type_eqb (type lp) TOK_LPAREN).
  - eapply initialised_bind; [apply initialised_consume|]. intros _ _.
    eapply initialised_bind; [exact He|]. intros expr Hexpr.
    eapply initialised_bind; [apply initialised_blanks|]. intros _ _.
    eapply initialised_bind; [apply initialised_pop|]. intros rp _.
    destruct (token_type_eqb (type rp) TOK_RPAREN).
    + apply initialised_ret. exact Hexpr.
    + apply initialised_xerror.
  - apply rdp_const_initialised.
Qed.

Lemma fold_level_loop_initialised (fuel : nat) (ops : list token_type)
  (higher : M rdp_t node_t) :
  initialised bounded higher ->
  forall n left,
    bounded left ->
    initialised bounded (fold_level_loop fuel ops higher n left).
Proof.
  intros Hh. induction n as [|n IH]; intros left Hl.
  - apply initialised_stop. intros c. exists OutOfFuel.
    repeat split; discriminate.
  - simpl. eapply initialised_bind; [apply initialised_blanks|].
    intros _ _.
    eapply initialised_bind; [apply initialised_peek|]. intros op _.
    destruct (is_operator ops (type op)).
    + eapply initialised_bind; [apply initialised_consume|]. intros _ _.
      eapply initialised_bind; [exact Hh|]. intros right Hr.
      apply IH. simpl. auto.
    + apply initialised_ret. exact Hl.
Qed.

Lemma fold_level_initialised (fuel : nat) (ops : list token_type)
  (higher : M rdp_t node_t) :
  initialised bounded higher ->
  initialised bounded (fold_level fuel ops higher).
Proof.
  intros Hh. unfold fold_level.
  eapply initialised_bind; [exact Hh|]. intros left Hl.
  apply fold_level_loop_initialised; assumption.
Qed.

Lemma initialised_ext (A : Type) (W : A -> Prop) (f g : M rdp_t A) :
  (forall c, f c = g c) -> initialised W g -> initialised W f.
Proof. intros E H c Hc. rewrite E. exact (H c Hc). Qed.

Lemma rdp_ior_exp_initialised (fuel : nat) (e : M rdp_t node_t) :
  initialised bounded e -> initialised bounded (rdp_ior_exp fuel e).
Proof.
  intros He.
  pose proof (rdp_primary_exp_initialised fuel e He) as H0.
  eapply initialised_ext; [apply rdp_ior_exp_fold|].
  apply fold_level_initialised.
  eapply initialised_ext; [apply rdp_xor_exp_fold|].
  apply fold_level_initialised.
  eapply initialised_ext; [apply rdp_and_exp_fold|].
  apply fold_level_initialised.
  eapply initialised_ext; [apply rdp_additive_exp_fold|].
  apply fold_level_initialised.
  eapply initialised_ext; [apply rdp_mult_exp_fold|].
  apply fold_level_initialised.
  exact H0.
Qed.

Lemma rdp_expression_initialised :
  forall fuel, initialised bounded (rdp_expression fuel).
Proof.
  induction fuel as [|fuel IH].
  - apply initialised_stop. intros c. exists OutOfFuel.
    repeat split; discriminate.
  - simpl. apply rdp_ior_exp_initialised. exact IH.
Qed.

Lemma lex_all_ok (ctx : lex_t) (toks : list token_t) :
  lex_all ctx = Done (Some toks) -> Forall token_ok toks.
Proof.
  unfold lex_all. intros H.
  destruct (lex_line (line_fuel ctx) [] ctx) as [o ctx'] eqn:E.
  simpl in H. subst o.
  exact (lex_line_ok _ _ _ _ _ (Forall_nil _) E).
Qed.

(** X9.  On a file the front end neither reads outside an array nor reads
    a field that was never assigned, and it comes to an end: for every
    content the round of the interpreter ends with a tree made of leaves
    and of the eight operators, with the null token of an exclamation
    mark, or in one of the two checks of the parser. *)
Theorem front_end_is_safe_on_files :
  forall bytes,
    match interpret (lex_init_file bytes) with
    | Done (Some root) => ast_shape root = true
    | Done None => In "!"%char bytes
    | Failed e =>
        exists expected found msg,
          e = UnexpectedToken expected found msg /\
          found <> expected /\
          (expected = TOK_NUMBER \/ expected = TOK_RPAREN)
    | Fault _ => False
    | OutOfFuel => False
    end.
Proof.
  intros bytes. unfold interpret.
  destruct (lex_all_file bytes) as (r & E & Hr).
  pose proof (lex_all_ok (lex_init_file bytes)) as Hok.
  rewrite E in *. destruct r as [toks|]; [|exact Hr].
  destruct Hr as [Hwf _]. specialize (Hok toks eq_refl).
  pose proof (rdp_generate_ast_post (parse_fuel toks)
                (rdp_init toks (List.length toks))) as Hp.
  pose proof (terminated_in_bounds toks (List.length toks)
                (well_formed_terminated toks Hwf)) as Hin.
  pose proof (rdp_expression_initialised (parse_fuel toks)
                (rdp_init toks (List.length toks)) Hok) as (Hu & _ & _).
  fold (rdp_generate_ast (parse_fuel toks)) in Hu.
  fold (parse_tokens toks) in Hp, Hu.
  destruct (parse_tokens toks) as [[root|e|f|] c'] eqn:Ep; simpl in *.
  - destruct (post_value _ _ _ _ Hp root eq_refl) as [Hs _]. exact Hs.
  - destruct (post_failed _ _ _ _ Hp e eq_refl)
      as (p & t & expected & msg & -> & _ & _ & Hne & Hex).
    exists expected, (type t), msg. auto.
  - destruct f.
    + apply (post_safe _ _ _ _ Hp Hin). reflexivity.
    + apply Hu. reflexivity.
  - apply (post_fuel _ _ _ _ Hp); [|reflexivity].
    unfold remaining, parse_fuel. simpl. lia.
Qed.

(** X10.  No tree holds a negative number: whatever the source, every
    leaf of a tree made from the tokens of the lexer carries a value
    between [0] and [LONG_MAX]. *)
Theorem leaves_are_not_negative :
  forall ctx root,
    interpret ctx = Done (Some root) -> bounded root.
Proof.
  intros ctx root. unfold interpret.
  destruct (lex_all ctx) as [[toks|]| | |] eqn:E; try discriminate.
  pose proof (lex_all_ok ctx toks E) as Hok.
  pose proof (rdp_expression_initialised (parse_fuel toks)
                (rdp_init toks (List.length toks)) Hok) as (_ & _ & Hb).
  fold (rdp_generate_ast (parse_fuel toks)) in Hb.
  fold (parse_tokens toks) in Hb.
  destruct (fst (parse_tokens toks)) as [r| | |]; try discriminate.
  intros H. injection H as <-. apply Hb. reflexivity.
Qed.

Lemma leaves_are_not_negative_witness :
  bounded (Binary TOK_MINUS (Leaf 0) (Leaf LONG_MAX)).
Proof.
  apply (leaves_are_not_negative (file_of "0-99999999999999999999")).
  reflexivity.
Defined.

(** ** The token loop of main.c *)

Lemma main_tokens_goes_on :
  forall calls fuel bytes acc,
    ~ In "!"%char bytes -> List.length bytes < fuel ->
    exists fd', main_tokens calls fuel acc (FILE_BACKED bytes) =
                (OutOfFuel, FILE_BACKED fd').
Proof.
  induction calls as [|calls IH]; intros fuel bytes acc Hn Hf.
  - exists bytes. reflexivity.
  - simpl main_tokens. unfold bind. destruct bytes as [|a fd].
    + rewrite lex_token_file_nil. apply IH; assumption.
    + destruct (lex_token_file a fd fuel ltac:(simpl in Hf; lia))
        as (tok & fd' & E & (pre & Hp & _) & Hnull).
      rewrite E. destruct tok as [t|].
      * apply IH.
        -- intros Hin. apply Hn. rewrite Hp. apply in_or_app. auto.
        -- rewrite Hp, length_app in Hf. lia.
      * destruct (Hn (Hnull eq_refl)).
Qed.

(** X11.  The token loop of main.c ends only when [lex_token] returns the
    null pointer, and at the end of a file [lex_token] returns an end of
    input token at every call: on a file without an exclamation mark the
    loop has not ended after any number of calls, although every single
    call returns. *)
Theorem main_loop_does_not_end :
  forall bytes fuel,
    ~ In "!"%char bytes -> List.length bytes < fuel ->
    (forall calls acc,
       exists fd', main_tokens calls fuel acc (FILE_BACKED bytes) =
                   (OutOfFuel, FILE_BACKED fd')) /\
    (forall fd, List.length fd <= List.length bytes ->
                fst (lex_token fuel (FILE_BACKED fd)) <> OutOfFuel) /\
    lex_token fuel (FILE_BACKED []) =
    (Done (Some (lex_mkspecial TOK_EOF)), FILE_BACKED []).
Proof.
  intros bytes fuel Hn Hf. split; [|split].
  - intros calls acc. apply main_tokens_goes_on; assumption.
  - intros fd Hl. destruct fd as [|a fd].
    + rewrite lex_token_file_nil. discriminate.
    + destruct (lex_token_file a fd fuel ltac:(simpl in Hl; lia))
        as (tok & fd' & E & _). rewrite E. discriminate.
  - apply lex_token_file_nil.
Qed.

Lemma main_loop_does_not_end_witness :
  (forall calls acc,
     exists fd', main_tokens calls 4 acc (file_of "1+2") =
                 (OutOfFuel, FILE_BACKED fd')) /\
  (forall fd, List.length fd <= 3 ->
              fst (lex_token 4 (FILE_BACKED fd)) <> OutOfFuel) /\
  lex_token 4 (FILE_BACKED []) =
  (Done (Some (lex_mkspecial TOK_EOF)), FILE_BACKED []).
Proof.
  apply (main_loop_does_not_end (list_ascii_of_string "1+2") 4);
    [|simpl; lia].
  simpl. intros [H|[H|[H|[]]]]; discriminate H.
Defined.

(** ** A string in an array of its own size *)

Lemma lex_getc_buffer_end (pre : list ascii) :
  lex_getc (in_buffer pre [] 0) = (Fault OutOfBounds, in_buffer pre [] 0).
Proof.
  unfold lex_getc, in_buffer.
  destruct (Z.ltb_spec (Z.of_nat (List.length pre)) 0) as [L|_]; [lia|].
  rewrite Nat2Z.id. cbn [app repeat]. rewrite app_nil_r.
  replace (nth_error pre (List.length pre)) with (@None ascii);
    [reflexivity|].
  symmetry. apply nth_error_None. lia.
Qed.

Lemma lex_token_buffer_end (fuel : nat) (pre : list ascii) (k : nat) :
  k <= 1 ->
  fst (lex_token fuel (in_buffer pre [] k)) = Fault OutOfBounds.
Proof.
  intros Hk. rewrite lex_token_switch. unfold lex_skip_space, bind.
  destruct k as [|[|k]]; [| |lia].
  - rewrite lex_getc_buffer_end. reflexivity.
  - rewrite lex_getc_buffer_nil. closed_conditions. unfold ret.
    unfold lex_switch, bind. rewrite lex_getc_buffer_end. reflexivity.
Qed.

Lemma lex_line_buffer_end :
  forall n s acc n' toks st pre k,
    in_alphabet s ->
    List.length s + 1 <= n -> List.length s + 2 <= n' ->
    k = 1 \/ (k = 0 /\ s = []) ->
    lex_line n acc (FILE_BACKED s) = (Done (Some toks), st) ->
    fst (lex_line n' acc (in_buffer pre s k)) = Fault OutOfBounds.
Proof.
  induction n as [|n IH]; intros s acc n' toks st pre k Ha Hn Hn' Hk H;
    [lia|].
  destruct n' as [|n']; [lia|].
  destruct s as [|a s1].
  - simpl lex_line. unfold bind.
    pose proof (lex_token_buffer_end n' pre k ltac:(lia)) as E.
    destruct (lex_token n' (in_buffer pre [] k)) as [o st']. simpl in E.
    subst o. reflexivity.
  - destruct Hk as [->|[_ Hk]]; [|discriminate Hk].
    simpl in Hn, Hn'. revert H. simpl lex_line. unfold bind.
    destruct (lex_token_file a s1 n)
      as (tok & r & E & (pre0 & Hp & Hl) & _); [lia|].
    rewrite E. destruct tok as [t|]; [|discriminate].
    destruct (lex_token_buffer a s1 n n' (Some t) r pre 0 Ha ltac:(lia) E)
      as (pre' & k' & E' & Hs).
    destruct (lex_token_append a s1 [] n n t r Ha ltac:(lia) E) as [Ht _].
    rewrite E'.
    replace (token_type_eqb (type t) TOK_EOF) with false.
    2:{ symmetry. destruct (token_type_eqb (type t) TOK_EOF) eqn:Et;
          [|reflexivity]. apply token_type_eqb_eq in Et. congruence. }
    cbn [negb]. intros H.
    assert (Hr : in_alphabet r).
    { unfold in_alphabet in *. rewrite Hp in Ha.
      apply Forall_app in Ha. tauto. }
    assert (Hlen : List.length r < List.length (a :: s1)).
    { rewrite Hp, length_app. lia. }
    simpl in Hlen.
    eapply IH; [exact Hr|lia|lia| |exact H].
    destruct Hs as [->|[-> Hs]]; [left; reflexivity|right; split; [lia|]].
    reflexivity.
Qed.

(** X12.  The string backing never lexes a string to its end inside the
    string: when the array ends with the terminator, a text that the lexer
    turns into tokens from a file makes it read the byte behind the
    terminator. *)
Theorem string_is_read_behind_its_terminator :
  forall text toks,
    in_alphabet (list_ascii_of_string text) ->
    lex_all (file_of text) = Done (Some toks) ->
    lex_all (lex_init_string (list_ascii_of_string text ++ [zero])) =
    Fault OutOfBounds.
Proof.
  intros text toks Ha H.
  unfold lex_all, file_of, lex_init_file, line_fuel in H.
  cbn [lex_remaining] in H.
  destruct (lex_line (List.length (list_ascii_of_string text) + 2) []
              (FILE_BACKED (list_ascii_of_string text))) as [o st] eqn:E.
  simpl in H. subst o.
  unfold lex_all, lex_init_string.
  change (STRING_BACKED (list_ascii_of_string text ++ [zero]) 0)
    with (in_buffer [] (list_ascii_of_string text) 1).
  eapply lex_line_buffer_end; [exact Ha| | | |exact E]; try lia.
  unfold line_fuel, in_buffer, lex_remaining.
  cbn [app List.length Z.of_nat Z.to_nat repeat].
  rewrite length_app. simpl. lia.
Qed.

Lemma string_is_read_behind_its_terminator_witness :
  lex_all (lex_init_string (list_ascii_of_string "(1+2)*3 " ++ [zero])) =
  Fault OutOfBounds.
Proof.
  apply (string_is_read_behind_its_terminator "(1+2)*3 "
           [lex_mkkw TOK_LPAREN; number_token "1"; lex_mkkw TOK_PLUS;
            number_token "2"; lex_mkkw TOK_RPAREN; lex_mkkw TOK_MULTIPLY;
            number_token "3"; lex_mkspecial TOK_SPACE;
            lex_mkspecial TOK_EOF]);
    [repeat constructor|reflexivity].
Defined.

(** ** A character without a case ends the input *)

Ltac foreign_facts Hc :=
  let H255 := fresh "H255" in
  destruct Hc as [Hc H255];
  apply Z.eqb_neq in H255;
  unfold lexer_alphabet in Hc; cbv zeta in Hc;
  repeat (apply orb_false_elim in Hc;
          let H := fresh "Hc" in destruct Hc as [Hc H]);
  match goal with
  | H1 : (?x =? 32)%Z = false, H2 : in_range 9 13 ?x = false |- _ =>
      assert (isspace x = false) by (unfold isspace; rewrite H1, H2;
                                     reflexivity)
  end.

Ltac use_facts :=
  repeat match goal with
         | H : ?b = false |- context [?b] => rewrite H
         end.

Lemma lex_ungetc_foreign (c : ascii) (fd : list ascii) :
  foreign c ->
  lex_ungetc (ch c) (FILE_BACKED fd) = (Done tt, FILE_BACKED (c :: fd)).
Proof.
  intros [_ H]. rewrite lex_ungetc_file_ch.
  destruct (Z.eqb_spec (ch c) 255); [contradiction|reflexivity].
Qed.

Lemma foreign_not_EOF (c : ascii) : (ch c =? EOF)%Z = false.
Proof.
  pose proof (ch_range c). apply Z.eqb_neq. unfold EOF. lia.
Qed.

Ltac cut_done :=
  eexists; split; [reflexivity|];
  first [ intros _; reflexivity
        | let Hn := fresh "Hn" in
          intros Hn; exfalso; apply Hn; reflexivity ].

Ltac second_char_cut :=
  let c := fresh "c" in
  let t' := fresh "t'" in
  let s1 := fresh "s1" in
  let tok := fresh "tok" in
  let r := fresh "r" in
  let Hc := fresh "Hc" in
  let Ha := fresh "Ha" in
  let H := fresh "H" in
  let b := fresh "b" in
  let Hb := fresh "Hb" in
  let Hs := fresh "Hs" in
  intros c t' s1 tok r Hc Ha H;
  pose proof (lex_ungetc_foreign c t' Hc) as Hu;
  pose proof (foreign_not_EOF c) as He;
  destruct s1 as [|b s1];
  [ cbv in H; injection H as <- <-;
    foreign_facts Hc;
    unfold bind; rewrite app_nil_l, lex_getc_file_cons; use_facts;
    unfold bind; rewrite ?Hu; unfold ret; cut_done
  | inversion Ha as [|? ? Hb Hs]; subst;
    revert H; rewrite <- app_comm_cons; unfold bind;
    rewrite !lex_getc_file_cons;
    repeat (match goal with
            | |- context [(ch b =? ?x)%Z] => destruct (ch b =? x)%Z
            end);
    unfold bind; rewrite ?(lex_ungetc_alphabet b _ Hb); unfold ret;
    intros H; injection H as <- <-; cut_done ].

Lemma lex_chnot_cut :
  forall c t' s1 tok r,
    foreign c -> in_alphabet s1 ->
    lex_chnot (FILE_BACKED s1) = (Done tok, FILE_BACKED r) ->
    exists r',
      lex_chnot (FILE_BACKED (s1 ++ c :: t')) = (Done tok, FILE_BACKED r') /\
      (tok <> None -> r' = r ++ c :: t').
Proof. unfold lex_chnot. second_char_cut. Qed.

Lemma lex_cheq_cut :
  forall c t' s1 tok r,
    foreign c -> in_alphabet s1 ->
    lex_cheq (FILE_BACKED s1) = (Done tok, FILE_BACKED r) ->
    exists r',
      lex_cheq (FILE_BACKED (s1 ++ c :: t')) = (Done tok, FILE_BACKED r') /\
      (tok <> None -> r' = r ++ c :: t').
Proof. unfold lex_cheq. second_char_cut. Qed.

Lemma lex_chand_cut :
  forall c t' s1 tok r,
    foreign c -> in_alphabet s1 ->
    lex_chand (FILE_BACKED s1) = (Done tok, FILE_BACKED r) ->
    exists r',
      lex_chand (FILE_BACKED (s1 ++ c :: t')) = (Done tok, FILE_BACKED r') /\
      (tok <> None -> r' = r ++ c :: t').
Proof. unfold lex_chand. second_char_cut. Qed.

Lemma lex_chor_cut :
  forall c t' s1 tok r,
    foreign c -> in_alphabet s1 ->
    lex_chor (FILE_BACKED s1) = (Done tok, FILE_BACKED r) ->
    exists r',
      lex_chor (FILE_BACKED (s1 ++ c :: t')) = (Done tok, FILE_BACKED r') /\
      (tok <> None -> r' = r ++ c :: t').
Proof. unfold lex_chor. second_char_cut. Qed.

Lemma lex_chlbr_cut :
  forall c t' s1 tok r,
    foreign c -> in_alphabet s1 ->
    lex_chlbr (FILE_BACKED s1) = (Done tok, FILE_BACKED r) ->
    exists r',
      lex_chlbr (FILE_BACKED (s1 ++ c :: t')) = (Done tok, FILE_BACKED r') /\
      (tok <> None -> r' = r ++ c :: t').
Proof. unfold lex_chlbr. second_char_cut. Qed.

Lemma lex_chrbr_cut :
  forall c t' s1 tok r,
    foreign c -> in_alphabet s1 ->
    lex_chrbr (FILE_BACKED s1) = (Done tok, FILE_BACKED r) ->
    exists r',
      lex_chrbr (FILE_BACKED (s1 ++ c :: t')) = (Done tok, FILE_BACKED r') /\
      (tok <> None -> r' = r ++ c :: t').
Proof. unfold lex_chrbr. second_char_cut. Qed.

Lemma lex_chnumber_loop_cut :
  forall c t' s1 fuel fuel' number num r,
    foreign c -> in_alphabet s1 -> List.length s1 < fuel' ->
    lex_chnumber_loop fuel number (FILE_BACKED s1) =
    (Done num, FILE_BACKED r) ->
    lex_chnumber_loop fuel' number (FILE_BACKED (s1 ++ c :: t')) =
    (Done num, FILE_BACKED (r ++ c :: t')).
Proof.
  intros c t' s1. induction s1 as [|b s1 IH];
    intros fuel fuel' number num r Hc Ha Hf H;
    (destruct fuel as [|fuel]; [discriminate H|]);
    (destruct fuel' as [|fuel']; [simpl in Hf; lia|]).
  - cbv in H. injection H as <- <-.
    pose proof (lex_ungetc_foreign c t' Hc) as Hu.
    pose proof (foreign_not_EOF c) as He.
    foreign_facts Hc.
    simpl app. simpl lex_chnumber_loop. unfold bind at 1.
    rewrite lex_getc_file_cons, He.
    change (isdigit (ch c)) with (in_range (ch "0") (ch "9") (ch c)).
    use_facts. cbn [negb]. unfold bind. rewrite Hu. reflexivity.
  - inversion Ha as [|? ? Hb Hs]; subst.
    revert H. rewrite <- app_comm_cons. simpl lex_chnumber_loop.
    unfold bind at 1 3. rewrite !lex_getc_file_cons.
    destruct (ch b =? EOF)%Z.
    + unfold ret. intros H. injection H as <- <-. reflexivity.
    + destruct (isdigit (ch b)); cbn [negb].
      * apply IH; [exact Hc|exact Hs|simpl in Hf; lia].
      * unfold bind. rewrite !(lex_ungetc_alphabet b _ Hb). unfold ret.
        intros H. injection H as <- <-. reflexivity.
Qed.

Lemma lex_chident_loop_cut :
  forall c t' s1 fuel fuel' identifier ident r,
    foreign c -> in_alphabet s1 -> List.length s1 < fuel' ->
    lex_chident_loop fuel identifier (FILE_BACKED s1) =
    (Done ident, FILE_BACKED r) ->
    lex_chident_loop fuel' identifier (FILE_BACKED (s1 ++ c :: t')) =
    (Done ident, FILE_BACKED (r ++ c :: t')).
Proof.
  intros c t' s1. induction s1 as [|b s1 IH];
    intros fuel fuel' identifier ident r Hc Ha Hf H;
    (destruct fuel as [|fuel]; [discriminate H|]);
    (destruct fuel' as [|fuel']; [simpl in Hf; lia|]).
  - cbv in H. injection H as <- <-.
    pose proof (lex_ungetc_foreign c t' Hc) as Hu.
    pose proof (foreign_not_EOF c) as He.
    foreign_facts Hc.
    simpl app. simpl lex_chident_loop. unfold bind at 1.
    rewrite lex_getc_file_cons, He.
    unfold isalpha. use_facts. cbn [negb orb]. unfold bind. rewrite Hu.
    reflexivity.
  - inversion Ha as [|? ? Hb Hs]; subst.
    revert H. rewrite <- app_comm_cons. simpl lex_chident_loop.
    unfold bind at 1 3. rewrite !lex_getc_file_cons.
    destruct (ch b =? EOF)%Z.
    + unfold ret. intros H. injection H as <- <-. reflexivity.
    + destruct (negb (isalpha (ch b)) || (ch b =? ch "_")%Z).
      * unfold bind. rewrite !(lex_ungetc_alphabet b _ Hb). unfold ret.
        intros H. injection H as <- <-. reflexivity.
      * apply IH; [exact Hc|exact Hs|simpl in Hf; lia].
Qed.

Lemma lex_chnumber_cut (c : ascii) (t' s1 : list ascii) (fuel fuel' : nat)
  (v : Z) (tok : option token_t) (r : list ascii) :
  foreign c -> in_alphabet s1 -> List.length s1 < fuel' ->
  lex_chnumber fuel v (FILE_BACKED s1) = (Done tok, FILE_BACKED r) ->
  exists r',
    lex_chnumber fuel' v (FILE_BACKED (s1 ++ c :: t')) =
    (Done tok, FILE_BACKED r') /\
    (tok <> None -> r' = r ++ c :: t').
Proof.
  intros Hc Ha Hf H. unfold lex_chnumber, bind in *.
  destruct (lex_chnumber_loop fuel (vec_char_push vec_char_init v)
              (FILE_BACKED s1)) as [[num| | |] st] eqn:E; try discriminate H.
  unfold ret in H. injection H as <- ->.
  rewrite (lex_chnumber_loop_cut c t' s1 fuel fuel' _ num r Hc Ha Hf E).
  eexists. split; [reflexivity|auto].
Qed.

Lemma lex_chident_cut (c : ascii) (t' s1 : list ascii) (fuel fuel' : nat)
  (v : Z) (tok : option token_t) (r : list ascii) :
  foreign c -> in_alphabet s1 -> List.length s1 < fuel' ->
  lex_chident fuel v (FILE_BACKED s1) = (Done tok, FILE_BACKED r) ->
  exists r',
    lex_chident fuel' v (FILE_BACKED (s1 ++ c :: t')) =
    (Done tok, FILE_BACKED r') /\
    (tok <> None -> r' = r ++ c :: t').
Proof.
  intros Hc Ha Hf H. unfold lex_chident, bind in *.
  destruct (lex_chident_loop fuel (vec_char_push vec_char_init v)
              (FILE_BACKED s1)) as [[num| | |] st] eqn:E; try discriminate H.
  unfold ret in H. injection H as <- ->.
  rewrite (lex_chident_loop_cut c t' s1 fuel fuel' _ num r Hc Ha Hf E).
  eexists. split; [reflexivity|auto].
Qed.

Ltac cut_branch Hc Hs Hf :=
  let H := fresh "H" in
  intros H;
  first [ injection H as <- <-; cut_done
        | apply lex_chnot_cut; assumption
        | apply lex_cheq_cut; assumption
        | apply lex_chand_cut; assumption
        | apply lex_chor_cut; assumption
        | apply lex_chlbr_cut; assumption
        | apply lex_chrbr_cut; assumption
        | eapply lex_chnumber_cut; [exact Hc|exact Hs|exact Hf|exact H]
        | eapply lex_chident_cut; [exact Hc|exact Hs|exact Hf|exact H] ].

Lemma lex_switch_cut (c a : ascii) (s1 t' : list ascii) (fuel fuel' : nat)
  (tok : option token_t) (r : list ascii) :
  foreign c ->
  lexer_alphabet a = true -> isspace (ch a) = false ->
  in_alphabet s1 -> List.length s1 < fuel' ->
  lex_switch fuel (FILE_BACKED (a :: s1)) = (Done tok, FILE_BACKED r) ->
  exists r',
    lex_switch fuel' (FILE_BACKED (a :: s1 ++ c :: t')) =
    (Done tok, FILE_BACKED r') /\
    (tok <> None -> r' = r ++ c :: t').
Proof.
  intros Hc Ha Hsp Hs Hf H. revert H.
  unfold lexer_alphabet in Ha. cbv zeta in Ha. rewrite Hsp in Ha.
  rewrite !lex_switch_file_cons. unfold lex_dispatch.
  repeat (match goal with
          | |- (if (?x || ?y || ?z)%bool then _ else _) _ = _ -> _ =>
              destruct x eqn:?; [|destruct y eqn:?; [|destruct z eqn:?]];
              cbn [orb]
          | |- (if ?c then _ else _) _ = _ -> _ => destruct c eqn:?
          end;
          try solve [cut_branch Hc Hs Hf | discriminate Ha]).
Qed.

Lemma lex_token_foreign (fuel : nat) (c : ascii) (fd : list ascii) :
  foreign c ->
  lex_token fuel (FILE_BACKED (c :: fd)) =
  (Done (Some (lex_mkspecial TOK_EOF)), FILE_BACKED fd).
Proof.
  intros Hc. pose proof (foreign_not_EOF c) as He.
  pose proof (lex_ungetc_foreign c fd Hc) as Hu.
  foreign_facts Hc.
  rewrite lex_token_switch. unfold lex_skip_space, bind.
  rewrite lex_getc_file_cons, He. use_facts. unfold bind. rewrite Hu.
  unfold ret. rewrite lex_switch_file_cons. unfold lex_dispatch.
  use_facts. cbn [orb]. use_facts.
  destruct (ch c =? EOF)%Z; reflexivity.
Qed.

Lemma lex_token_cut (c a : ascii) (s1 t' : list ascii) (fuel fuel' : nat)
  (tok : option token_t) (r : list ascii) :
  foreign c -> in_alphabet (a :: s1) -> List.length s1 < fuel' ->
  lex_token fuel (FILE_BACKED (a :: s1)) = (Done tok, FILE_BACKED r) ->
  exists r',
    lex_token fuel' (FILE_BACKED ((a :: s1) ++ c :: t')) =
    (Done tok, FILE_BACKED r') /\
    (tok <> None -> r' = r ++ c :: t').
Proof.
  intros Hc Ha Hf H. inversion Ha as [|? ? Hb Hs]; subst.
  rewrite <- app_comm_cons.
  destruct (isspace (ch a)) eqn:Hsp.
  - rewrite lex_token_file_space in * by exact Hsp.
    injection H as <- <-. cut_done.
  - rewrite lex_token_file_nonspace in *
      by (exact Hsp || apply alphabet_not_255; exact Hb).
    apply lex_switch_cut with (fuel := fuel); assumption.
Qed.

Lemma lex_line_cut :
  forall n c t' s acc n' res st,
    foreign c -> in_alphabet s ->
    List.length s + 1 <= n -> List.length s + 2 <= n' ->
    lex_line n acc (FILE_BACKED s) = (Done res, st) ->
    fst (lex_line n' acc (FILE_BACKED (s ++ c :: t'))) = Done res.
Proof.
  induction n as [|n IH]; intros c t' s acc n' res st Hc Ha Hn Hn' H; [lia|].
  destruct n' as [|n']; [lia|].
  destruct s as [|a s1].
  - cbn in H. injection H as <- _.
    simpl app. simpl lex_line. unfold bind.
    rewrite (lex_token_foreign n' c t' Hc). reflexivity.
  - simpl in Hn, Hn'. revert H. simpl lex_line. unfold bind.
    destruct (lex_token_file a s1 n)
      as (tok & r & E & (pre & Hp & Hk) & _); [lia|].
    rewrite E.
    destruct (lex_token_cut c a s1 t' n n' tok r Hc Ha ltac:(lia) E)
      as (r' & E' & Hr').
    rewrite <- app_comm_cons in E'.
    rewrite E'. destruct tok as [t|].
    + rewrite (Hr' ltac:(discriminate)).
      destruct (negb (token_type_eqb (type t) TOK_EOF)).
      * intros H.
        assert (Hr : in_alphabet r).
        { unfold in_alphabet in *. rewrite Hp in Ha.
          apply Forall_app in Ha. tauto. }
        assert (Hl : List.length r < List.length (a :: s1)).
        { rewrite Hp, length_app. lia. }
        simpl in Hl.
        eapply IH; [exact Hc|exact Hr|lia|lia|exact H].
      * unfold ret. intros H. injection H as <- _. reflexivity.
    + unfold ret. intros H. injection H as <- _. reflexivity.
Qed.

(** X13.  A character for which [lex_token] has no case is turned into an
    end of input token, at which the loop of the interpreter stops: the
    text before such a character is lexed and parsed as if the input
    ended there, and what follows the character is never read. *)
Theorem foreign_character_ends_the_input :
  forall text c rest,
    in_alphabet text -> foreign c ->
    lex_all (lex_init_file (text ++ c :: rest)) =
    lex_all (lex_init_file text) /\
    interpret (lex_init_file (text ++ c :: rest)) =
    interpret (lex_init_file text).
Proof.
  intros text c rest Ha Hc.
  assert (E : lex_all (lex_init_file (text ++ c :: rest)) =
              lex_all (lex_init_file text)).
  { destruct (lex_all_file text) as (r & Er & _). rewrite Er.
    unfold lex_all, lex_init_file, line_fuel in *.
    cbn [lex_remaining] in *.
    destruct (lex_line (List.length text + 2) [] (FILE_BACKED text))
      as [o st] eqn:El. simpl in Er. subst o.
    eapply lex_line_cut; [exact Hc|exact Ha| | |exact El].
    - lia.
    - rewrite length_app. simpl. lia. }
  split; [exact E|]. unfold interpret. rewrite E. reflexivity.
Qed.

Lemma foreign_character_ends_the_input_witness :
  lex_all (file_of "1+2#+4") = lex_all (file_of "1+2") /\
  interpret (file_of "1+2#+4") = interpret (file_of "1+2").
Proof.
  apply (foreign_character_ends_the_input
           (list_ascii_of_string "1+2") "#"%char
           (list_ascii_of_string "+4")).
  - repeat constructor.
  - split; [reflexivity|discriminate].
Defined.

(** ** What lies behind the terminator is lexed too *)

Lemma in_tail_snoc (pre : list ascii) (a : ascii) (fd tail : list ascii) :
  STRING_BACKED (pre ++ (a :: fd) ++ tail)
    (Z.of_nat (List.length pre) + 1) =
  in_tail (pre ++ [a]) fd tail.
Proof.
  unfold in_tail. rewrite <- app_assoc, length_app. simpl.
  f_equal. lia.
Qed.

Lemma lex_getc_tail_cons (pre : list ascii) (a : ascii)
  (fd tail : list ascii) :
  lexer_alphabet a = true ->
  lex_getc (in_tail pre (a :: fd) tail) =
  (Done (ch a), in_tail (pre ++ [a]) fd tail).
Proof.
  intros H. destruct (alphabet_char a H) as [Hc Hz].
  unfold lex_getc, in_tail at 1.
  destruct (Z.ltb_spec (Z.of_nat (List.length pre)) 0) as [L|_]; [lia|].
  rewrite Nat2Z.id, nth_error_app2, Nat.sub_diag by lia.
  cbn [app nth_error]. rewrite Hc.
  destruct (Z.eqb_spec (ch a) 0) as [E|_]; [contradiction|].
  f_equal. apply in_tail_snoc.
Qed.

Lemma lex_ungetc_tail (c : Z) (pre : list ascii) (a : ascii)
  (fd tail : list ascii) :
  lex_ungetc c (in_tail (pre ++ [a]) fd tail) =
  (Done tt, in_tail pre (a :: fd) tail).
Proof.
  rewrite <- in_tail_snoc. unfold lex_ungetc, in_tail.
  f_equal. f_equal. lia.
Qed.

Lemma blank_ended_suffix (pre r : list ascii) :
  blank_ended (pre ++ r) -> r = [] \/ blank_ended r.
Proof.
  induction pre as [|a pre IH]; simpl; [auto|].
  destruct (pre ++ r) as [|b l] eqn:E.
  - destruct pre; [|discriminate E]. simpl in E. subst. auto.
  - exact IH.
Qed.

Lemma blank_is_no_digit (b : ascii) :
  isspace (ch b) = true ->
  isdigit (ch b) = false /\ isalpha (ch b) = false.
Proof.
  unfold isspace, isdigit, isalpha, in_range. intros H.
  change (ch "0") with 48%Z. change (ch "9") with 57%Z.
  change (ch "a") with 97%Z. change (ch "z") with 122%Z.
  change (ch "A") with 65%Z. change (ch "Z") with 90%Z.
  assert (Hr : (ch b <= 32)%Z).
  { apply orb_prop in H. destruct H as [H|H].
    - apply Z.eqb_eq in H. lia.
    - apply andb_prop in H. destruct H as [_ H]. apply Z.leb_le in H. lia. }
  split.
  - destruct (Z.leb_spec 48 (ch b)); [lia|reflexivity].
  - destruct (Z.leb_spec 97 (ch b)); [lia|].
    destruct (Z.leb_spec 65 (ch b)); [lia|reflexivity].
Qed.

Ltac tail_done := eexists; reflexivity.

Ltac second_char_tail :=
  let b := fresh "b" in
  let s := fresh "s" in
  let tail := fresh "tail" in
  let tok := fresh "tok" in
  let r := fresh "r" in
  let pre := fresh "pre" in
  let Ha := fresh "Ha" in
  let H := fresh "H" in
  let Hb := fresh "Hb" in
  let Hs := fresh "Hs" in
  intros b s tail tok r pre Ha H;
  inversion Ha as [|? ? Hb Hs]; subst;
  revert H; unfold bind;
  rewrite lex_getc_file_cons, (lex_getc_tail_cons _ _ _ _ Hb);
  repeat (match goal with
          | |- context [(ch b =? ?x)%Z] => destruct (ch b =? x)%Z
          end);
  unfold bind;
  rewrite ?(lex_ungetc_alphabet b _ Hb), ?lex_ungetc_tail; unfold ret;
  intros H; injection H as <- <-; tail_done.

Lemma lex_chnot_tail :
  forall b s tail tok r pre,
    in_alphabet (b :: s) ->
    lex_chnot (FILE_BACKED (b :: s)) = (Done tok, FILE_BACKED r) ->
    exists pre',
      lex_chnot (in_tail pre (b :: s) tail) = (Done tok, in_tail pre' r tail).
Proof. unfold lex_chnot. second_char_tail. Qed.

Lemma lex_cheq_tail :
  forall b s tail tok r pre,
    in_alphabet (b :: s) ->
    lex_cheq (FILE_BACKED (b :: s)) = (Done tok, FILE_BACKED r) ->
    exists pre',
      lex_cheq (in_tail pre (b :: s) tail) = (Done tok, in_tail pre' r tail).
Proof. unfold lex_cheq. second_char_tail. Qed.

Lemma lex_chand_tail :
  forall b s tail tok r pre,
    in_alphabet (b :: s) ->
    lex_chand (FILE_BACKED (b :: s)) = (Done tok, FILE_BACKED r) ->
    exists pre',
      lex_chand (in_tail pre (b :: s) tail) = (Done tok, in_tail pre' r tail).
Proof. unfold lex_chand. second_char_tail. Qed.

Lemma lex_chor_tail :
  forall b s tail tok r pre,
    in_alphabet (b :: s) ->
    lex_chor (FILE_BACKED (b :: s)) = (Done tok, FILE_BACKED r) ->
    exists pre',
      lex_chor (in_tail pre (b :: s) tail) = (Done tok, in_tail pre' r tail).
Proof. unfold lex_chor. second_char_tail. Qed.

Lemma lex_chlbr_tail :
  forall b s tail tok r pre,
    in_alphabet (b :: s) ->
    lex_chlbr (FILE_BACKED (b :: s)) = (Done tok, FILE_BACKED r) ->
    exists pre',
      lex_chlbr (in_tail pre (b :: s) tail) = (Done tok, in_tail pre' r tail).
Proof. unfold lex_chlbr. second_char_tail. Qed.

Lemma lex_chrbr_tail :
  forall b s tail tok r pre,
    in_alphabet (b :: s) ->
    lex_chrbr (FILE_BACKED (b :: s)) = (Done tok, FILE_BACKED r) ->
    exists pre',
      lex_chrbr (in_tail pre (b :: s) tail) = (Done tok, in_tail pre' r tail).
Proof. unfold lex_chrbr. second_char_tail. Qed.

Lemma lex_chnumber_loop_tail :
  forall s1 tail fuel fuel' number num r pre,
    in_alphabet s1 -> blank_ended s1 -> List.length s1 < fuel' ->
    lex_chnumber_loop fuel number (FILE_BACKED s1) =
    (Done num, FILE_BACKED r) ->
    exists pre',
      lex_chnumber_loop fuel' number (in_tail pre s1 tail) =
      (Done num, in_tail pre' r tail).
Proof.
  induction s1 as [|b s1 IH]; intros tail fuel fuel' number num r pre
                                     Ha Hb Hf H; [destruct Hb|].
  destruct fuel as [|fuel]; [discriminate H|].
  destruct fuel' as [|fuel']; [simpl in Hf; lia|].
  inversion Ha as [|? ? Hab Hs]; subst.
  revert H. simpl lex_chnumber_loop. unfold bind at 1 3.
  rewrite lex_getc_file_cons, (lex_getc_tail_cons _ _ _ _ Hab).
  destruct (ch b =? EOF)%Z.
  - unfold ret. intros H. injection H as <- <-. tail_done.
  - destruct (isdigit (ch b)) eqn:Hd; cbn [negb].
    + destruct s1 as [|b' s1].
      * simpl in Hb. destruct (blank_is_no_digit b Hb) as [Hn _].
        congruence.
      * apply IH; [exact Hs|exact Hb|simpl in Hf; simpl; lia].
    + unfold bind.
      rewrite (lex_ungetc_alphabet b _ Hab), lex_ungetc_tail. unfold ret.
      intros H. injection H as <- <-. tail_done.
Qed.

Lemma lex_chident_loop_tail :
  forall s1 tail fuel fuel' identifier ident r pre,
    in_alphabet s1 -> blank_ended s1 -> List.length s1 < fuel' ->
    lex_chident_loop fuel identifier (FILE_BACKED s1) =
    (Done ident, FILE_BACKED r) ->
    exists pre',
      lex_chident_loop fuel' identifier (in_tail pre s1 tail) =
      (Done ident, in_tail pre' r tail).
Proof.
  induction s1 as [|b s1 IH]; intros tail fuel fuel' identifier ident r pre
                                     Ha Hb Hf H; [destruct Hb|].
  destruct fuel as [|fuel]; [discriminate H|].
  destruct fuel' as [|fuel']; [simpl in Hf; lia|].
  inversion Ha as [|? ? Hab Hs]; subst.
  revert H. simpl lex_chident_loop. unfold bind at 1 3.
  rewrite lex_getc_file_cons, (lex_getc_tail_cons _ _ _ _ Hab).
  destruct (ch b =? EOF)%Z.
  - unfold ret. intros H. injection H as <- <-. tail_done.
  - destruct (isalpha (ch b)) eqn:Hd; cbn [negb orb].
    + destruct (ch b =? ch "_")%Z.
      * unfold bind.
        rewrite (lex_ungetc_alphabet b _ Hab), lex_ungetc_tail. unfold ret.
        intros H. injection H as <- <-. tail_done.
      * destruct s1 as [|b' s1].
        -- simpl in Hb. destruct (blank_is_no_digit b Hb) as [_ Hn].
           congruence.
        -- apply IH; [exact Hs|exact Hb|simpl in Hf; simpl; lia].
    + unfold bind.
      rewrite (lex_ungetc_alphabet b _ Hab), lex_ungetc_tail. unfold ret.
      intros H. injection H as <- <-. tail_done.
Qed.

Lemma lex_chnumber_tail (s1 tail : list ascii) (fuel fuel' : nat) (c : Z)
  (tok : option token_t) (r pre : list ascii) :
  in_alphabet s1 -> blank_ended s1 -> List.length s1 < fuel' ->
  lex_chnumber fuel c (FILE_BACKED s1) = (Done tok, FILE_BACKED r) ->
  exists pre',
    lex_chnumber fuel' c (in_tail pre s1 tail) =
    (Done tok, in_tail pre' r tail).
Proof.
  intros Ha Hb Hf H. unfold lex_chnumber, bind in *.
  destruct (lex_chnumber_loop fuel (vec_char_push vec_char_init c)
              (FILE_BACKED s1)) as [[num| | |] st] eqn:E; try discriminate H.
  unfold ret in H. injection H as <- ->.
  destruct (lex_chnumber_loop_tail s1 tail fuel fuel' _ num r pre
              Ha Hb Hf E) as (pre' & E').
  rewrite E'. exists pre'. reflexivity.
Qed.

Lemma lex_chident_tail (s1 tail : list ascii) (fuel fuel' : nat) (c : Z)
  (tok : option token_t) (r pre : list ascii) :
  in_alphabet s1 -> blank_ended s1 -> List.length s1 < fuel' ->
  lex_chident fuel c (FILE_BACKED s1) = (Done tok, FILE_BACKED r) ->
  exists pre',
    lex_chident fuel' c (in_tail pre s1 tail) =
    (Done tok, in_tail pre' r tail).
Proof.
  intros Ha Hb Hf H. unfold lex_chident, bind in *.
  destruct (lex_chident_loop fuel (vec_char_push vec_char_init c)
              (FILE_BACKED s1)) as [[num| | |] st] eqn:E; try discriminate H.
  unfold ret in H. injection H as <- ->.
  destruct (lex_chident_loop_tail s1 tail fuel fuel' _ num r pre
              Ha Hb Hf E) as (pre' & E').
  rewrite E'. exists pre'. reflexivity.
Qed.

Ltac tail_branch Hs Hb Hf :=
  let H := fresh "H" in
  intros H;
  first [ injection H as <- <-; tail_done
        | apply lex_chnot_tail; assumption
        | apply lex_cheq_tail; assumption
        | apply lex_chand_tail; assumption
        | apply lex_chor_tail; assumption
        | apply lex_chlbr_tail; assumption
        | apply lex_chrbr_tail; assumption
        | eapply lex_chnumber_tail; [exact Hs|exact Hb|exact Hf|exact H]
        | eapply lex_chident_tail; [exact Hs|exact Hb|exact Hf|exact H] ].

Lemma lex_switch_tail (a b : ascii) (s tail : list ascii) (fuel fuel' : nat)
  (tok : option token_t) (r pre : list ascii) :
  lexer_alphabet a = true -> isspace (ch a) = false ->
  in_alphabet (b :: s) -> blank_ended (b :: s) ->
  List.length (b :: s) < fuel' ->
  lex_switch fuel (FILE_BACKED (a :: b :: s)) = (Done tok, FILE_BACKED r) ->
  exists pre',
    lex_switch fuel' (in_tail pre (a :: b :: s) tail) =
    (Done tok, in_tail pre' r tail).
Proof.
  intros Ha Hsp Hs Hb Hf H. revert H.
  unfold lex_switch at 2. unfold bind.
  rewrite (lex_getc_tail_cons _ _ _ _ Ha).
  unfold lexer_alphabet in Ha. cbv zeta in Ha. rewrite Hsp in Ha.
  rewrite !lex_switch_file_cons. unfold lex_dispatch.
  repeat (match goal with
          | |- (if (?x || ?y || ?z)%bool then _ else _) _ = _ -> _ =>
              destruct x eqn:?; [|destruct y eqn:?; [|destruct z eqn:?]];
              cbn [orb]
          | |- (if ?c then _ else _) _ = _ -> _ => destruct c eqn:?
          end;
          try solve [tail_branch Hs Hb Hf | discriminate Ha]).
Qed.

Lemma lex_token_tail_space (fuel : nat) (a : ascii)
  (pre fd tail : list ascii) :
  lexer_alphabet a = true -> isspace (ch a) = true ->
  lex_token fuel (in_tail pre (a :: fd) tail) =
  (Done (Some (lex_mkspecial TOK_SPACE)), in_tail (pre ++ [a]) fd tail).
Proof.
  intros Ha Hs. rewrite lex_token_switch. unfold lex_skip_space, bind.
  rewrite (lex_getc_tail_cons _ _ _ _ Ha).
  pose proof (ch_range a) as Hr.
  destruct (Z.eqb_spec (ch a) EOF) as [E|_]; [unfold EOF in E; lia|].
  rewrite Hs. reflexivity.
Qed.

Lemma lex_token_tail_nonspace (fuel : nat) (a : ascii)
  (pre fd tail : list ascii) :
  lexer_alphabet a = true -> isspace (ch a) = false ->
  lex_token fuel (in_tail pre (a :: fd) tail) =
  lex_switch fuel (in_tail pre (a :: fd) tail).
Proof.
  intros Ha Hs. rewrite lex_token_switch. unfold lex_skip_space, bind.
  rewrite (lex_getc_tail_cons _ _ _ _ Ha).
  pose proof (ch_range a) as Hr.
  destruct (Z.eqb_spec (ch a) EOF) as [E|_]; [unfold EOF in E; lia|].
  rewrite Hs. unfold bind. rewrite lex_ungetc_tail. reflexivity.
Qed.

Lemma lex_token_tail (a : ascii) (s1 tail : list ascii) (fuel fuel' : nat)
  (tok : option token_t) (r pre : list ascii) :
  in_alphabet (a :: s1) -> blank_ended (a :: s1) ->
  List.length s1 < fuel' ->
  lex_token fuel (FILE_BACKED (a :: s1)) = (Done tok, FILE_BACKED r) ->
  exists pre',
    lex_token fuel' (in_tail pre (a :: s1) tail) =
    (Done tok, in_tail pre' r tail).
Proof.
  intros Ha Hb Hf H. inversion Ha as [|? ? Hab Hs]; subst.
  destruct (isspace (ch a)) eqn:Hsp.
  - rewrite lex_token_file_space in H by exact Hsp.
    rewrite lex_token_tail_space by assumption.
    injection H as <- <-. tail_done.
  - rewrite lex_token_file_nonspace in H
      by (exact Hsp || apply alphabet_not_255; exact Hab).
    rewrite lex_token_tail_nonspace by assumption.
    destruct s1 as [|b s].
    + simpl in Hb. congruence.
    + apply lex_switch_tail with (fuel := fuel); assumption.
Qed.

(** The call at the terminator reads it as the end of the input in
    [lex_skip_space], and then reads the byte behind it. *)
Lemma lex_token_terminator (fuel : nat) (pre : list ascii) (c : ascii)
  (stale : list ascii) (pad : nat) :
  lexer_alphabet c = true -> isspace (ch c) = false ->
  lex_token fuel
    (in_tail pre [] (zero :: (c :: stale) ++ repeat zero pad)) =
  lex_token fuel (in_buffer (pre ++ [zero]) (c :: stale) pad).
Proof.
  intros Hc Hs.
  rewrite (lex_token_buffer_nonspace fuel c _ _ _ Hc Hs).
  rewrite lex_token_switch. unfold lex_skip_space, bind at 1 2.
  assert (E : lex_getc
                (in_tail pre [] (zero :: (c :: stale) ++ repeat zero pad)) =
              (Done EOF, in_buffer (pre ++ [zero]) (c :: stale) pad)).
  { unfold lex_getc, in_tail.
    destruct (Z.ltb_spec (Z.of_nat (List.length pre)) 0) as [L|_]; [lia|].
    rewrite Nat2Z.id, nth_error_app2, Nat.sub_diag by lia.
    cbn [app nth_error].
    change (to_char (ch zero) =? 0)%Z with true. cbv beta iota.
    f_equal. unfold in_buffer. rewrite <- app_assoc, length_app.
    simpl. f_equal. lia. }
  rewrite E. reflexivity.
Qed.

Lemma lex_line_acc :
  forall n acc0 acc ctx toks st,
    lex_line n acc0 ctx = (Done (Some toks), st) ->
    lex_line n (acc ++ acc0) ctx = (Done (Some (acc ++ toks)), st).
Proof.
  induction n as [|n IH]; intros acc0 acc ctx toks st H; [discriminate H|].
  revert H. simpl lex_line. unfold bind.
  destruct (lex_token n ctx) as [[[t|]| | |] ctx1]; try discriminate.
  unfold vec_token_push. rewrite <- app_assoc.
  destruct (negb (token_type_eqb (type t) TOK_EOF)).
  - apply IH.
  - unfold ret. intros H. injection H as <- <-. reflexivity.
Qed.

Lemma lex_line_tail :
  forall n s acc acc' n' toks st pre c stale pad toks2 st2,
    in_alphabet s -> s = [] \/ blank_ended s ->
    in_alphabet (c :: stale) -> isspace (ch c) = false -> 3 <= pad ->
    List.length s + 1 <= n ->
    List.length s + List.length (c :: stale) + 2 <= n' ->
    lex_line n acc (FILE_BACKED s) = (Done (Some toks), st) ->
    lex_line (List.length (c :: stale) + 2) [] (FILE_BACKED (c :: stale)) =
    (Done (Some toks2), st2) ->
    exists body,
      toks = acc ++ body ++ [lex_mkspecial TOK_EOF] /\
      fst (lex_line n' acc'
             (in_tail pre s (zero :: (c :: stale) ++ repeat zero pad))) =
      Done (Some (acc' ++ body ++ toks2)).
Proof.
  induction n as [|n IH];
    intros s acc acc' n' toks st pre c stale pad toks2 st2
           Ha Hb Hc Hsp Hpad Hn Hn' H H2; [lia|].
  destruct n' as [|n']; [lia|].
  destruct s as [|a s1].
  - cbn in H. injection H as <- _. exists []. split; [reflexivity|].
    cbn [lex_line]. unfold bind.
    inversion Hc as [|? ? Hcc _]; subst.
    rewrite (lex_token_terminator n' pre c stale pad Hcc Hsp).
    change (fst (lex_line (S n') acc'
                   (in_buffer (pre ++ [zero]) (c :: stale) pad)) =
            Done (Some (acc' ++ [] ++ toks2))).
    pose proof (lex_line_acc _ [] acc' _ _ _ H2) as H2'.
    rewrite app_nil_r in H2'.
    eapply lex_line_buffer; [exact Hc| | |exact Hpad|exact H2'].
    + lia.
    + simpl in Hn'. simpl. lia.
  - destruct Hb as [Hb|Hb]; [discriminate Hb|].
    simpl in Hn, Hn'. revert H. cbn [lex_line]. unfold bind.
    destruct (lex_token_file a s1 n)
      as (tok & r & E & (pre0 & Hp & Hl) & _); [lia|].
    rewrite E. destruct tok as [t|]; [|discriminate].
    destruct (lex_token_tail a s1 (zero :: (c :: stale) ++ repeat zero pad)
                n n' (Some t) r pre Ha Hb ltac:(lia) E) as (pre' & E').
    destruct (lex_token_append a s1 [] n n t r Ha ltac:(lia) E) as [Ht _].
    rewrite E'.
    replace (token_type_eqb (type t) TOK_EOF) with false.
    2:{ symmetry. destruct (token_type_eqb (type t) TOK_EOF) eqn:Et;
          [|reflexivity]. apply token_type_eqb_eq in Et. congruence. }
    cbn [negb]. intros H.
    assert (Hr : in_alphabet r).
    { unfold in_alphabet in *. rewrite Hp in Ha.
      apply Forall_app in Ha. tauto. }
    assert (Hlen : List.length r < List.length (a :: s1)).
    { rewrite Hp, length_app. lia. }
    simpl in Hlen.
    assert (Hbr : r = [] \/ blank_ended r).
    { apply (blank_ended_suffix pre0). rewrite <- Hp. exact Hb. }
    destruct (IH r (vec_token_push acc t) (vec_token_push acc' t) n' toks st
                pre' c stale pad toks2 st2 Hr Hbr Hc Hsp Hpad
                ltac:(lia) ltac:(simpl; lia) H H2) as (body & -> & Er).
    exists (t :: body). unfold vec_token_push in *.
    rewrite <- !app_assoc in *. split; [reflexivity|exact Er].
Qed.

(** A blank has no case in the switch of [lex_token]. *)
Lemma lex_dispatch_blank (fuel : nat) (x : Z) (st : lex_t) :
  isspace x = true ->
  lex_dispatch fuel x st = (Done (Some (lex_mkspecial TOK_EOF)), st).
Proof.
  unfold isspace, in_range. intros H.
  assert (Hx : (x = 32 \/ x = 9 \/ x = 10 \/ x = 11 \/ x = 12 \/ x = 13)%Z).
  { destruct (Z.eqb_spec x 32) as [E|_]; [auto|]. cbn [orb] in H.
    apply andb_prop in H. destruct H as [H1 H2].
    apply Z.leb_le in H1, H2. lia. }
  repeat match goal with
         | H : _ \/ _ |- _ => destruct H
         end; subst x; reflexivity.
Qed.

(** The call at the terminator when a blank lies behind it: the blank is
    read by the switch and ends the input. *)
Lemma lex_token_terminator_blank (fuel : nat) (pre : list ascii) (c : ascii)
  (rest : list ascii) :
  isspace (ch c) = true ->
  fst (lex_token fuel (in_tail pre [] (zero :: c :: rest))) =
  Done (Some (lex_mkspecial TOK_EOF)).
Proof.
  intros Hs. unfold in_tail. cbn [app].
  assert (H0 : (0 <= Z.of_nat (List.length pre))%Z) by lia.
  assert (N0 : nth_error (pre ++ zero :: c :: rest)
                 (Z.to_nat (Z.of_nat (List.length pre))) = Some zero).
  { rewrite Nat2Z.id, nth_error_app2, Nat.sub_diag by lia. reflexivity. }
  assert (N1 : nth_error (pre ++ zero :: c :: rest)
                 (Z.to_nat (Z.of_nat (List.length pre) + 1)) = Some c).
  { replace (Z.to_nat (Z.of_nat (List.length pre) + 1))
      with (S (List.length pre)) by lia.
    rewrite nth_error_app2 by lia.
    replace (S (List.length pre) - List.length pre) with 1 by lia.
    reflexivity. }
  rewrite lex_token_switch. unfold lex_skip_space, bind at 1 2.
  rewrite (lex_getc_string _ _ zero H0 N0).
  change (string_char zero =? EOF)%Z with true. cbv beta iota.
  unfold ret at 1. cbv beta iota. unfold lex_switch, bind.
  rewrite (lex_getc_string (pre ++ zero :: c :: rest)
             (Z.of_nat (List.length pre) + 1) c ltac:(lia) N1).
  assert (Ec : string_char c = ch c).
  { unfold string_char, to_char. pose proof (ch_range c) as Hr.
    assert (Hc : (9 <= ch c <= 32)%Z).
    { unfold isspace, in_range in Hs.
      destruct (Z.eqb_spec (ch c) 32) as [E|_]; [lia|]. cbn [orb] in Hs.
      apply andb_prop in Hs. destruct Hs as [H1 H2].
      apply Z.leb_le in H1, H2. lia. }
    rewrite Z.mod_small by lia.
    replace (ch c + 128 - 128)%Z with (ch c) by lia.
    destruct (Z.eqb_spec (ch c) 0); [lia|reflexivity]. }
  rewrite Ec, (lex_dispatch_blank fuel (ch c) _ Hs). reflexivity.
Qed.

Lemma lex_line_tail_blank :
  forall n s acc n' toks st pre c rest,
    in_alphabet s -> s = [] \/ blank_ended s ->
    isspace (ch c) = true ->
    List.length s + 1 <= n -> List.length s + 1 <= n' ->
    lex_line n acc (FILE_BACKED s) = (Done (Some toks), st) ->
    fst (lex_line n' acc (in_tail pre s (zero :: c :: rest))) =
    Done (Some toks).
Proof.
  induction n as [|n IH];
    intros s acc n' toks st pre c rest Ha Hb Hc Hn Hn' H; [lia|].
  destruct n' as [|n']; [lia|].
  destruct s as [|a s1].
  - cbn in H. injection H as <- _.
    cbn [lex_line]. unfold bind.
    pose proof (lex_token_terminator_blank n' pre c rest Hc) as E.
    destruct (lex_token n' (in_tail pre [] (zero :: c :: rest)))
      as [o st']. simpl in E. subst o. reflexivity.
  - destruct Hb as [Hb|Hb]; [discriminate Hb|].
    simpl in Hn, Hn'. revert H. cbn [lex_line]. unfold bind.
    destruct (lex_token_file a s1 n)
      as (tok & r & E & (pre0 & Hp & Hl) & _); [lia|].
    rewrite E. destruct tok as [t|]; [|discriminate].
    destruct (lex_token_tail a s1 (zero :: c :: rest)
                n n' (Some t) r pre Ha Hb ltac:(lia) E) as (pre' & E').
    destruct (lex_token_append a s1 [] n n t r Ha ltac:(lia) E) as [Ht _].
    rewrite E'.
    replace (token_type_eqb (type t) TOK_EOF) with false.
    2:{ symmetry. destruct (token_type_eqb (type t) TOK_EOF) eqn:Et;
          [|reflexivity]. apply token_type_eqb_eq in Et. congruence. }
    cbn [negb]. intros H.
    assert (Hr : in_alphabet r).
    { unfold in_alphabet in *. rewrite Hp in Ha.
      apply Forall_app in Ha. tauto. }
    assert (Hlen : List.length r < List.length (a :: s1)).
    { rewrite Hp, length_app. lia. }
    simpl in Hlen.
    assert (Hbr : r = [] \/ blank_ended r).
    { apply (blank_ended_suffix pre0). rewrite <- Hp. exact Hb. }
    apply (IH r (vec_token_push acc t) n' toks st pre' c rest Hr Hbr Hc
             ltac:(lia) ltac:(lia) H).
Qed.

(** X14.  The string backing does not stop at the terminator.  Take a line
    in the characters of the lexer that ends in a blank, as [fgets] leaves
    it, and which, read as a file, is lexed to the tokens [toks].  When its
    terminator is followed by stale bytes in the characters of the lexer,
    the first of which is no blank, and by at least three zero bytes, as in
    the buffer of the interpreter after a longer line, and the stale bytes
    read as a file are lexed to [toks2], then the lexer returns for the
    buffer the tokens of the line without their end of input token,
    followed by [toks2].  When the byte behind the terminator is a blank,
    the switch of [lex_token] reads it as the end of the input, and the
    tokens are those of the line. *)
Theorem bytes_behind_the_terminator_are_lexed :
  forall line toks,
    in_alphabet line -> blank_ended line ->
    lex_all (lex_init_file line) = Done (Some toks) ->
    (forall c stale pad toks2,
       in_alphabet (c :: stale) -> isspace (ch c) = false -> 3 <= pad ->
       lex_all (lex_init_file (c :: stale)) = Done (Some toks2) ->
       lex_all (lex_init_string
                  (line ++ zero :: (c :: stale) ++ repeat zero pad)) =
       Done (Some (removelast toks ++ toks2))) /\
    (forall c rest,
       isspace (ch c) = true ->
       lex_all (lex_init_string (line ++ zero :: c :: rest)) =
       Done (Some toks)).
Proof.
  intros line toks Ha Hb H1.
  unfold lex_all, lex_init_file, line_fuel in H1.
  cbn [lex_remaining] in H1.
  destruct (lex_line (List.length line + 2) [] (FILE_BACKED line))
    as [o1 st1] eqn:E1. simpl in H1. subst o1.
  split.
  - intros c stale pad toks2 Hc Hsp Hpad H2.
    unfold lex_all, lex_init_file, line_fuel in H2.
    cbn [lex_remaining] in H2.
    destruct (lex_line (List.length (c :: stale) + 2) []
                (FILE_BACKED (c :: stale))) as [o2 st2] eqn:E2.
    simpl in H2. subst o2.
    unfold lex_all, lex_init_string.
    change (STRING_BACKED
              (line ++ zero :: (c :: stale) ++ repeat zero pad) 0)
      with (in_tail [] line (zero :: (c :: stale) ++ repeat zero pad)).
    destruct (lex_line_tail (List.length line + 2) line [] []
                (line_fuel (in_tail [] line
                              (zero :: (c :: stale) ++ repeat zero pad)))
                toks st1 [] c stale pad toks2 st2 Ha (or_intror Hb) Hc Hsp
                Hpad ltac:(lia)) as (body & -> & E); [|exact E1|exact E2|].
    + unfold line_fuel, in_tail, lex_remaining.
      cbn [app List.length Z.of_nat Z.to_nat].
      rewrite !length_app. cbn [List.length]. rewrite !length_app.
      rewrite repeat_length. simpl. lia.
    + rewrite E. simpl app. rewrite removelast_last. reflexivity.
  - intros c rest Hc.
    unfold lex_all, lex_init_string.
    change (STRING_BACKED (line ++ zero :: c :: rest) 0)
      with (in_tail [] line (zero :: c :: rest)).
    apply (lex_line_tail_blank (List.length line + 2) line [] _ toks st1 []
             c rest Ha (or_intror Hb) Hc ltac:(lia)); [|exact E1].
    unfold line_fuel, in_tail, lex_remaining.
    cbn [app List.length Z.of_nat Z.to_nat].
    rewrite !length_app. cbn [List.length]. lia.
Qed.

Lemma bytes_behind_the_terminator_are_lexed_witness :
  lex_all (lex_init_string
             (["1"; "010"] ++ zero :: ["+"; "3"; "+"; "4"; "010"]
                ++ repeat zero 3)%char) =
  Done (Some (removelast
                [number_token "1"; lex_mkspecial TOK_SPACE;
                 lex_mkspecial TOK_EOF]
              ++ [lex_mkkw TOK_PLUS; number_token "3"; lex_mkkw TOK_PLUS;
                  number_token "4"; lex_mkspecial TOK_SPACE;
                  lex_mkspecial TOK_EOF])) /\
  lex_all (lex_init_string
             (["1"; "010"] ++ zero :: " " :: ["3"; "010"])%char) =
  Done (Some [number_token "1"; lex_mkspecial TOK_SPACE;
              lex_mkspecial TOK_EOF]).
Proof.
  pose proof (bytes_behind_the_terminator_are_lexed
                ["1"; "010"]%char
                [number_token "1"; lex_mkspecial TOK_SPACE;
                 lex_mkspecial TOK_EOF]
                ltac:(repeat constructor) eq_refl eq_refl) as [H1 H2].
  split.
  - apply (H1 "+"%char ["3"; "+"; "4"; "010"]%char 3);
      [repeat constructor|reflexivity|lia|reflexivity].
  - apply (H2 " "%char ["3"; "010"]%char). reflexivity.
Defined.

(** The second of two lines, [1+2+3+4] and then [1], typed at the
    interpreter: the buffer still holds the end of the first line behind
    the terminator of the second, and the tree is the one of [1+3+4]. *)
Lemma second_line_reads_the_first :
  interpret (lex_init_string
               (["1"; "010"] ++ zero :: ["+"; "3"; "+"; "4"; "010"]
                  ++ repeat zero 3)%char) =
  Done (Some (Binary TOK_PLUS (Binary TOK_PLUS (Leaf 1) (Leaf 3)) (Leaf 4))).
Proof. reflexivity. Qed.

(** ** Parentheses without their partner *)

Lemma rdp_primary_exp_unclosed (fuel : nat) (e : M rdp_t node_t)
  (c c1 : rdp_t) (lp t : token_t) (n : node_t) :
  1 <= fuel ->
  nth_error (tokens c) (position c) = Some lp ->
  type lp = TOK_LPAREN ->
  e (consumed c) = (Done n, c1) ->
  nth_error (tokens c1) (position c1) = Some t ->
  type t <> TOK_SPACE -> type t <> TOK_RPAREN ->
  rdp_primary_exp fuel e c =
  (Failed (UnexpectedToken TOK_RPAREN (type t) "Invalid symbol encountered"),
   consumed c1).
Proof.
  intros Hf Hn Hl He Hn1 Hs Hr.
  unfold rdp_primary_exp, bind.
  rewrite (rdp_consume_blanks_stay fuel c lp Hf Hn) by (rewrite Hl; discriminate).
  unfold rdp_peek at 1. rewrite Hn, Hl.
  change (token_type_eqb TOK_LPAREN TOK_LPAREN) with true. cbv beta iota.
  unfold rdp_consume at 1.
  change (mk_rdp (tokens c) (S (position c)) (length c)) with (consumed c).
  rewrite He.
  rewrite (rdp_consume_blanks_stay fuel c1 t Hf Hn1 Hs).
  unfold rdp_pop, bind, rdp_peek, rdp_consume, ret. rewrite Hn1.
  replace (token_type_eqb (type t) TOK_RPAREN) with false.
  2:{ symmetry. destruct (token_type_eqb (type t) TOK_RPAREN) eqn:E;
        [|reflexivity]. apply token_type_eqb_eq in E. contradiction. }
  reflexivity.
Qed.

Lemma parse_tokens_unclosed (ts : list token_t) (eof lp : token_t)
  (root : node_t) (ctx' : rdp_t) :
  parse_tokens (ts ++ [eof]) = (Done root, ctx') ->
  position ctx' = List.length ts ->
  type eof = TOK_EOF -> type lp = TOK_LPAREN ->
  fst (parse_tokens (lp :: ts ++ [eof])) =
  Failed (UnexpectedToken TOK_RPAREN TOK_EOF "Invalid symbol encountered").
Proof.
  intros E Hpos Teof Tlp.
  set (toks2 := lp :: ts ++ [eof]).
  set (c0 := rdp_init toks2 (List.length toks2)).
  assert (Hlen2 : List.length toks2 = List.length ts + 2).
  { unfold toks2. simpl. rewrite length_app. simpl. lia. }
  unfold parse_tokens, rdp_generate_ast in E.
  destruct (rdp_expression_local _ _ _ _ E) as (_ & _ & Hloc).
  simpl in Hloc. rewrite Nat.sub_0_r, Hpos in Hloc.
  assert (Hw : window (rdp_init (ts ++ [eof]) (List.length (ts ++ [eof])))
                 (consumed c0) (List.length ts)).
  { split; cbn [tokens position rdp_init consumed c0 Nat.add].
    - intros j Hj. destruct (nth_error ts j) as [t|] eqn:Ej.
      + exists t. rewrite nth_error_app1 by lia. split; [exact Ej|].
        unfold toks2. simpl. rewrite nth_error_app1 by lia. exact Ej.
      + apply nth_error_None in Ej. lia.
    - exists eof, eof. rewrite nth_error_app2, Nat.sub_diag by lia.
      split; [reflexivity|]. unfold toks2. simpl.
      rewrite nth_error_app2, Nat.sub_diag by lia.
      split; reflexivity. }
  specialize (Hloc _ Hw).
  assert (Hin : rdp_expression (List.length ts + 3) (consumed c0) =
                (Done root, advanced (consumed c0) (List.length ts))).
  { rewrite <- Hloc. apply rdp_expression_fuel.
    - rewrite Hloc. simpl. congruence.
    - unfold remaining, consumed, c0. simpl tokens. simpl position.
      rewrite Hlen2. lia. }
  unfold parse_tokens, rdp_generate_ast, parse_fuel. fold c0.
  rewrite Hlen2.
  replace (List.length ts + 2 + 2) with (S (List.length ts + 3)) by lia.
  change (rdp_expression (S (List.length ts + 3)) c0)
    with (rdp_ior_exp (List.length ts + 3)
            (rdp_expression (List.length ts + 3)) c0).
  rewrite (rdp_ior_exp_failed (List.length ts + 3) _ c0
             (consumed (advanced (consumed c0) (List.length ts)))
             (UnexpectedToken TOK_RPAREN TOK_EOF
                "Invalid symbol encountered")); [reflexivity|].
  rewrite <- Teof.
  apply rdp_primary_exp_unclosed with (lp := lp) (n := root);
    auto; try lia; try (rewrite Teof; discriminate).
  unfold advanced, consumed, c0, rdp_init, toks2.
  cbn [tokens position Nat.add nth_error].
  rewrite nth_error_app2, Nat.sub_diag by lia. reflexivity.
Qed.

(** X15.  A closing parenthesis is asked for only after an opening one has
    been read.  For every valid expression text [E] the text [(E] fails in
    the check for the closing parenthesis, which finds the end of input,
    while [E)] is accepted and parsed to the tree of [E]: the closing
    parenthesis is a token behind the expression like any other. *)
Theorem parenthesis_without_partner :
  forall E root,
    valid_expression E root ->
    interpret (file_of ("(" ++ E)) =
    Failed (UnexpectedToken TOK_RPAREN TOK_EOF "Invalid symbol encountered")
    /\
    interpret (file_of (E ++ ")")) = Done (Some root).
Proof.
  intros E root (Ha & toks & ctx' & Hl & Hp & Hc).
  unfold lex_all, file_of, lex_init_file, line_fuel in Hl.
  cbn [lex_remaining] in Hl.
  destruct (lex_line (List.length (list_ascii_of_string E) + 2) []
              (FILE_BACKED (list_ascii_of_string E))) as [o st] eqn:El.
  simpl in Hl. subst o.
  destruct (lex_line_append (List.length (list_ascii_of_string E) + 2)
              (list_ascii_of_string E) [] []
              (List.length (list_ascii_of_string E) + 3) toks st Ha
              ltac:(lia) ltac:(lia) El) as (body & Eb & Hb & Er).
  simpl app in Eb, Er. subst toks.
  assert (Hpos : position ctx' = List.length body).
  { rewrite length_app in Hc. simpl in Hc. lia. }
  split.
  - assert (Hlex : lex_all (file_of ("(" ++ E)) =
                   Done (Some (lex_mkkw TOK_LPAREN :: body ++
                                 [lex_mkspecial TOK_EOF]))).
    { unfold lex_all, file_of, lex_init_file, line_fuel.
      rewrite list_ascii_of_string_append.
      change (list_ascii_of_string "(") with ["("%char].
      cbn [lex_remaining app List.length].
      replace (S (List.length (list_ascii_of_string E)) + 2)
        with (S (List.length (list_ascii_of_string E) + 2)) by lia.
      cbn [lex_line]. unfold bind. rewrite lex_token_file_lparen.
      cbn [type lex_mkkw negb].
      change (token_type_eqb TOK_LPAREN TOK_EOF) with false.
      cbn [negb]. unfold vec_token_push at 1. cbn [app].
      pose proof (lex_line_acc _ [] [lex_mkkw TOK_LPAREN] _ _ _ El) as El'.
      cbn [app] in El'. rewrite El'. reflexivity. }
    unfold interpret. rewrite Hlex.
    rewrite (parse_tokens_unclosed body (lex_mkspecial TOK_EOF)
               (lex_mkkw TOK_LPAREN) root ctx' Hp Hpos eq_refl eq_refl).
    reflexivity.
  - assert (Hlex : lex_all (file_of (E ++ ")")) =
                   Done (Some (body ++ [lex_mkkw TOK_RPAREN;
                                        lex_mkspecial TOK_EOF]))).
    { unfold lex_all, file_of, lex_init_file, line_fuel.
      rewrite list_ascii_of_string_append.
      change (list_ascii_of_string ")") with (closing []).
      cbn [lex_remaining]. rewrite length_app. cbn [closing List.length].
      replace (List.length (list_ascii_of_string E) + 1 + 2)
        with (List.length (list_ascii_of_string E) + 3) by lia.
      rewrite Er. reflexivity. }
    unfold interpret. rewrite Hlex.
    rewrite (parse_tokens_window (body ++ [lex_mkspecial TOK_EOF])
               (body ++ [lex_mkkw TOK_RPAREN; lex_mkspecial TOK_EOF])
               root ctx' Hp); [reflexivity|].
    rewrite Hpos. split; cbn [tokens position rdp_init Nat.add].
    + intros j Hj. destruct (nth_error body j) as [t|] eqn:Ej.
      * exists t. rewrite !nth_error_app1 by lia. auto.
      * apply nth_error_None in Ej. lia.
    + exists (lex_mkspecial TOK_EOF), (lex_mkkw TOK_RPAREN).
      rewrite !nth_error_app2, Nat.sub_diag by lia.
      repeat split.
Qed.

Lemma parenthesis_without_partner_witness :
  interpret (file_of ("(" ++ "1+2*3")) =
  Failed (UnexpectedToken TOK_RPAREN TOK_EOF "Invalid symbol encountered")
  /\
  interpret (file_of ("1+2*3" ++ ")")) =
  Done (Some (Binary TOK_PLUS (Leaf 1)
                (Binary TOK_MULTIPLY (Leaf 2) (Leaf 3)))).
Proof.
  apply (parenthesis_without_partner "1+2*3"
           (Binary TOK_PLUS (Leaf 1)
              (Binary TOK_MULTIPLY (Leaf 2) (Leaf 3)))).
  split; [repeat constructor|].
  eexists _, _. split; [reflexivity|]. split; reflexivity.
Defined.

(** ** Every tree is the parse of its tokens *)

Lemma level_rule_fold (fuel : nat) (e : M rdp_t node_t) (k : nat)
  (ops : list token_type) :
  nth_error levels k = Some ops ->
  forall c,
    level_rule fuel e (S k) c =
    fold_level fuel ops (level_rule fuel e k) c.
Proof.
  intros H c. apply levels_nth in H.
  repeat match goal with
         | H : _ \/ _ |- _ => destruct H
         | H : _ /\ _ |- _ => destruct H
         end; subst; simpl level_rule.
  - apply rdp_mult_exp_fold.
  - apply rdp_additive_exp_fold.
  - apply rdp_and_exp_fold.
  - apply rdp_xor_exp_fold.
  - apply rdp_ior_exp_fold.
Qed.

(** A result passes unchanged through the levels whose operators the next
    token is not one of. *)
Lemma level_rule_lift (fuel : nat) (e : M rdp_t node_t) :
  1 <= fuel ->
  forall d i c n c1 t,
    i + d <= 5 ->
    level_rule fuel e i c = (Done n, c1) ->
    nth_error (tokens c1) (position c1) = Some t ->
    type t <> TOK_SPACE ->
    (forall j ops, i <= j -> j < i + d -> nth_error levels j = Some ops ->
                   ~ In (type t) ops) ->
    level_rule fuel e (i + d) c = (Done n, c1).
Proof.
  intros Hf. induction d as [|d IH]; intros i c n c1 t Hk H Hn Hs Hops.
  - rewrite Nat.add_0_r. exact H.
  - replace (i + S d) with (S (i + d)) by lia.
    destruct (nth_error levels (i + d)) as [ops|] eqn:El.
    2:{ apply nth_error_None in El. simpl in El. lia. }
    rewrite (level_rule_fold fuel e (i + d) ops El).
    eapply fold_level_stop; [exact Hf| |exact Hn|exact Hs|].
    + apply (IH i c n c1 t); auto; [lia|].
      intros j ops' H1 H2. apply Hops; [exact H1|lia].
    + apply is_operator_not_In. apply (Hops (i + d)); [lia|lia|exact El].
Qed.

Lemma operator_level (op : token_type) :
  In op binary_operators ->
  exists i ops,
    i < 5 /\ nth_error levels i = Some ops /\ In op ops /\
    forall j ops', j <> i -> nth_error levels j = Some ops' ->
                   ~ In op ops'.
Proof.
  intros H. simpl in H.
  repeat match goal with
         | H : _ \/ _ |- _ => destruct H
         | H : False |- _ => destruct H
         end; subst;
    [exists 4, ior_operators | exists 3, xor_operators
    |exists 2, and_operators | exists 1, additive_operators
    |exists 1, additive_operators | exists 0, mult_operators
    |exists 0, mult_operators | exists 0, mult_operators];
    (split; [lia|]); (split; [reflexivity|]); (split; [simpl; auto|]);
    intros j ops' Hj Hn; apply levels_nth in Hn;
    repeat match goal with
           | H : _ \/ _ |- _ => destruct H
           | H : _ /\ _ |- _ => destruct H
           end; subst; try congruence;
    simpl; intuition discriminate.
Qed.

Lemma stop_is_no_operator (t : token_t) :
  type t = TOK_RPAREN \/ type t = TOK_EOF ->
  type t <> TOK_SPACE /\
  forall j ops, nth_error levels j = Some ops -> ~ In (type t) ops.
Proof.
  intros H. split; [destruct H as [H|H]; rewrite H; discriminate|].
  intros j ops Hn Hin. apply levels_nth in Hn.
  repeat match goal with
         | H : _ \/ _ |- _ => destruct H
         | H : _ /\ _ |- _ => destruct H
         end; subst; simpl in Hin;
    repeat match goal with
           | H : _ \/ _ |- _ => destruct H
           | H : False |- _ => destruct H
           end; congruence.
Qed.

(** Two operands in parentheses around an operator. *)
Lemma rdp_ior_exp_binary (fuel : nat) (e : M rdp_t node_t) (op : token_type)
  (l r : node_t) (c cA cB : rdp_t) (rest restB : list token_t)
  (stop : token_t) :
  2 <= fuel -> In op binary_operators ->
  rdp_primary_exp fuel e c = (Done l, cA) ->
  view cA = lex_mkkw op :: rest ->
  rdp_primary_exp fuel e (consumed cA) = (Done r, cB) ->
  view cB = stop :: restB ->
  type stop = TOK_RPAREN \/ type stop = TOK_EOF ->
  rdp_ior_exp fuel e c = (Done (Binary op l r), cB).
Proof.
  intros Hf Hop Hl HvA Hr HvB Hstop.
  destruct (operator_level op Hop) as (i & ops & Hi & Hn & Hin & Hother).
  destruct (stop_is_no_operator stop Hstop) as [Hsp Hnone].
  destruct (view_cons _ _ _ HvA) as [HnA _].
  destruct (view_cons _ _ _ HvB) as [HnB _].
  assert (H1 : 1 <= fuel) by lia.
  assert (Hnsp : type (lex_mkkw op) <> TOK_SPACE).
  { cbn [type lex_mkkw]. intros E. rewrite E in Hop. simpl in Hop.
    intuition discriminate. }
  assert (HlA : level_rule fuel e i c = (Done l, cA)).
  { apply (level_rule_lift fuel e H1 i 0 c l cA (lex_mkkw op));
      [lia|exact Hl|exact HnA|exact Hnsp|].
    intros j ops' _ Hj Hnj. apply (Hother j ops'); [simpl in Hj; lia|].
    exact Hnj. }
  assert (HrB : level_rule fuel e i (consumed cA) = (Done r, cB)).
  { apply (level_rule_lift fuel e H1 i 0 (consumed cA) r cB stop);
      [lia|exact Hr|exact HnB|exact Hsp|].
    intros j ops' _ _ Hnj. exact (Hnone j ops' Hnj). }
  assert (Hlevel : level_rule fuel e (S i) c = (Done (Binary op l r), cB)).
  { rewrite (level_rule_fold fuel e i ops Hn).
    unfold fold_level, bind. rewrite HlA.
    destruct fuel as [|[|fuel]]; [lia|lia|].
    cbn [fold_level_loop]. unfold bind.
    rewrite (rdp_consume_blanks_stay (S (S fuel)) cA (lex_mkkw op) H1 HnA
               Hnsp).
    unfold rdp_peek at 1. rewrite HnA.
    cbn [type lex_mkkw]. rewrite (is_operator_In ops op Hin).
    unfold rdp_consume at 1.
    change (mk_rdp (tokens cA) (S (position cA)) (length cA))
      with (consumed cA).
    rewrite HrB.
    rewrite (rdp_consume_blanks_stay (S (S fuel)) cB stop H1 HnB Hsp).
    unfold rdp_peek at 1. rewrite HnB.
    rewrite (is_operator_not_In ops (type stop) (Hnone i ops Hn)).
    reflexivity. }
  assert (E5 : S i + (4 - i) = 5) by lia.
  change (rdp_ior_exp fuel e) with (level_rule fuel e 5).
  rewrite <- E5.
  apply (level_rule_lift fuel e H1 (4 - i) (S i) c _ cB stop);
    [lia|exact Hlevel|exact HnB|exact Hsp|].
  intros j ops' _ _ Hnj. exact (Hnone j ops' Hnj).
Qed.

Lemma rdp_ior_exp_number (fuel : nat) (e : M rdp_t node_t) (c : rdp_t)
  (s : string) (stop : token_t) (rest : list token_t) :
  1 <= fuel ->
  view c = number_token s :: stop :: rest ->
  type stop = TOK_RPAREN \/ type stop = TOK_EOF ->
  rdp_ior_exp fuel e c = (Done (Leaf (strtol s)), consumed c).
Proof.
  intros Hf Hv Hstop.
  destruct (stop_is_no_operator stop Hstop) as [Hsp Hnone].
  destruct (view_cons _ _ _ Hv) as [_ Hv1].
  destruct (view_cons _ _ _ Hv1) as [Hn1 _].
  change (rdp_ior_exp fuel e) with (level_rule fuel e (0 + 5)).
  apply (level_rule_lift fuel e Hf 5 0 c _ (consumed c) stop);
    [lia| |exact Hn1|exact Hsp|].
  - apply (rdp_primary_exp_number fuel e Hf c s stop rest Hv Hsp).
    reflexivity.
  - intros j ops' _ _ Hnj. exact (Hnone j ops' Hnj).
Qed.

Lemma strtol_decimal (value : Z) :
  (0 <= value <= LONG_MAX)%Z -> strtol (decimal value) = value.
Proof.
  intros Hv. unfold decimal.
  destruct (to_uint_digits (Z.to_N value)) as (a & s & E & Ha).
  pose proof (strtol_digits_uint (N.to_uint (Z.to_N value))) as Hd.
  rewrite E in *. cbn [list_ascii_of_string] in Hd.
  change (Pos.of_uint (N.to_uint (Z.to_N value)))
    with (N.of_uint (N.to_uint (Z.to_N value))) in Hd.
  rewrite DecimalN.Unsigned.of_to in Hd.
  rewrite (strtol_of_digits a s Ha), Hd, Z2N.id by lia. lia.
Qed.

Lemma rdp_expression_unparse :
  forall t fuel c stop rest,
    ast_shape t = true -> bounded t -> height t + 3 <= fuel ->
    view c = unparse t ++ stop :: rest ->
    type stop = TOK_RPAREN \/ type stop = TOK_EOF ->
    exists c',
      rdp_expression fuel c = (Done t, c') /\ view c' = stop :: rest.
Proof.
  induction t as [id is_term value|id is_term l IHl r IHr|id is_term o IHo];
    intros fuel c stop rest Hs Hb Hf Hv Hstop.
  - simpl in Hs. apply andb_prop in Hs. destruct Hs as [Hid Hterm].
    apply token_type_eqb_eq in Hid. subst id is_term.
    destruct fuel as [|fuel]; [simpl in Hf; lia|].
    simpl in Hv. exists (consumed c). split.
    + cbn [rdp_expression].
      rewrite (rdp_ior_exp_number fuel _ c (decimal value) stop rest
                 ltac:(simpl in Hf; lia) Hv Hstop).
      rewrite (strtol_decimal value Hb). reflexivity.
    + destruct (view_cons _ _ _ Hv) as [_ Hv1]. exact Hv1.
  - cbn [ast_shape] in Hs.
    apply andb_prop in Hs. destruct Hs as [Hs Hsr].
    apply andb_prop in Hs. destruct Hs as [Hs Hsl].
    apply andb_prop in Hs. destruct Hs as [Hop Hterm].
    destruct is_term; [discriminate Hterm|].
    assert (Hin : In id binary_operators).
    { apply existsb_exists in Hop. destruct Hop as (x & Hx & E).
      apply token_type_eqb_eq in E. subst x. exact Hx. }
    destruct Hb as [Hbl Hbr]. simpl in Hf.
    destruct fuel as [|fuel]; [lia|].
    cbn [unparse] in Hv. simpl app in Hv.
    rewrite <- app_assoc in Hv. simpl app in Hv.
    rewrite <- app_assoc in Hv. simpl app in Hv.
    (* the left operand, in its parentheses *)
    destruct (view_cons _ _ _ Hv) as [Hn0 Hv0].
    destruct (IHl fuel (consumed c) (lex_mkkw TOK_RPAREN) _
                Hsl Hbl ltac:(lia) Hv0 (or_introl eq_refl))
      as (c1 & E1 & Hv1).
    destruct (view_cons _ _ _ Hv1) as [Hn1 HvA].
    pose proof (rdp_primary_exp_paren fuel (rdp_expression fuel) c c1
                  (lex_mkkw TOK_LPAREN) (lex_mkkw TOK_RPAREN) l
                  ltac:(lia) Hn0 eq_refl E1 Hn1 eq_refl) as Hpl.
    (* the right operand, in its parentheses *)
    destruct (view_cons _ _ _ HvA) as [HnA Hv2].
    destruct (view_cons _ _ _ Hv2) as [Hn2 Hv3].
    destruct (IHr fuel (consumed (consumed (consumed c1)))
                (lex_mkkw TOK_RPAREN) _
                Hsr Hbr ltac:(lia) Hv3 (or_introl eq_refl))
      as (c2 & E2 & Hv4).
    destruct (view_cons _ _ _ Hv4) as [Hn4 HvB].
    pose proof (rdp_primary_exp_paren fuel (rdp_expression fuel)
                  (consumed (consumed c1)) c2
                  (lex_mkkw TOK_LPAREN) (lex_mkkw TOK_RPAREN) r
                  ltac:(lia) Hn2 eq_refl E2 Hn4 eq_refl) as Hpr.
    exists (consumed c2). split; [|exact HvB].
    cbn [rdp_expression].
    apply (rdp_ior_exp_binary fuel (rdp_expression fuel) id l r c
             (consumed c1) (consumed c2) _ rest stop
             ltac:(lia) Hin Hpl HvA Hpr HvB Hstop).
  - discriminate Hs.
Qed.

Lemma height_unparse (t : node_t) : height t < List.length (unparse t).
Proof.
  induction t as [id is_term value|id is_term l IHl r IHr|id is_term o IHo];
    simpl.
  - lia.
  - rewrite length_app. simpl. rewrite length_app. simpl. lia.
  - lia.
Qed.

Lemma parse_tokens_unparse (t : node_t) :
  ast_shape t = true -> bounded t ->
  fst (parse_tokens (unparse t ++ [lex_mkspecial TOK_EOF])) = Done t.
Proof.
  intros Hs Hb.
  pose proof (height_unparse t) as Hh.
  destruct (rdp_expression_unparse t
              (parse_fuel (unparse t ++ [lex_mkspecial TOK_EOF]))
              (rdp_init (unparse t ++ [lex_mkspecial TOK_EOF])
                 (List.length (unparse t ++ [lex_mkspecial TOK_EOF])))
              (lex_mkspecial TOK_EOF) [] Hs Hb)
    as (c' & E & _).
  - unfold parse_fuel. rewrite length_app. simpl. lia.
  - reflexivity.
  - right. reflexivity.
  - unfold parse_tokens, rdp_generate_ast. rewrite E. reflexivity.
Qed.

(** X16.  Every tree of the shape the parser builds, with leaves between
    [0] and [LONG_MAX], is the parse of a token sequence: of its own
    tokens, written from left to right with parentheses around every
    operand and the leaves in decimal digits.  The parser reaches every
    such tree, and parentheses override the levels. *)
Theorem every_tree_is_parsed_from_its_tokens :
  forall t,
    ast_shape t = true -> bounded t ->
    fst (parse_tokens (unparse t ++ [lex_mkspecial TOK_EOF])) = Done t.
Proof. exact parse_tokens_unparse. Qed.

Lemma every_tree_is_parsed_from_its_tokens_witness :
  fst (parse_tokens
         (unparse (Binary TOK_MULTIPLY
                     (Binary TOK_PLUS (Leaf 1) (Leaf 2)) (Leaf 30))
          ++ [lex_mkspecial TOK_EOF])) =
  Done (Binary TOK_MULTIPLY (Binary TOK_PLUS (Leaf 1) (Leaf 2)) (Leaf 30)).
Proof.
  apply (every_tree_is_parsed_from_its_tokens
           (Binary TOK_MULTIPLY (Binary TOK_PLUS (Leaf 1) (Leaf 2))
              (Leaf 30))).
  - reflexivity.
  - simpl. unfold LONG_MAX. lia.
Defined.

(** ** A tree written as text is read back *)

Lemma lex_token_file_rparen (fuel : nat) (fd : list ascii) :
  lex_token fuel (FILE_BACKED (")"%char :: fd)) =
  (Done (Some (lex_mkkw TOK_RPAREN)), FILE_BACKED fd).
Proof.
  rewrite lex_token_file_nonspace by reflexivity.
  rewrite lex_switch_file_cons. reflexivity.
Qed.

(** An operator in front of an opening parenthesis. *)
Lemma lex_token_file_operator (fuel : nat) (op : token_type)
  (fd : list ascii) :
  In op binary_operators ->
  lex_token fuel (FILE_BACKED (operator_char op :: "("%char :: fd)) =
  (Done (Some (lex_mkkw op)), FILE_BACKED ("("%char :: fd)).
Proof.
  intros H. simpl in H.
  repeat match goal with
         | H : _ \/ _ |- _ => destruct H
         | H : False |- _ => destruct H
         end; subst; cbn [operator_char];
    rewrite lex_token_file_nonspace by reflexivity;
    rewrite lex_switch_file_cons; reflexivity.
Qed.

Lemma lex_line_step (n : nat) (acc : list token_t) (ctx ctx' : lex_t)
  (t : token_t) :
  lex_token n ctx = (Done (Some t), ctx') ->
  type t <> TOK_EOF ->
  lex_line (S n) acc ctx = lex_line n (acc ++ [t]) ctx'.
Proof.
  intros E Ht. cbn [lex_line]. unfold bind. rewrite E.
  replace (token_type_eqb (type t) TOK_EOF) with false.
  - reflexivity.
  - symmetry. destruct (token_type_eqb (type t) TOK_EOF) eqn:Et;
      [|reflexivity]. apply token_type_eqb_eq in Et. contradiction.
Qed.

Lemma decimal_digits (value : Z) :
  exists d ds,
    list_ascii_of_string (decimal value) = d :: ds /\
    isdigit (ch d) = true /\
    Forall (fun a => isdigit (ch a) = true) ds.
Proof.
  unfold decimal.
  destruct (to_uint_digits (Z.to_N value)) as (a & s & E & Ha).
  pose proof (uint_digits (N.to_uint (Z.to_N value))) as H.
  rewrite E in *. simpl in H. inversion H; subst.
  exists a, (list_ascii_of_string s). auto.
Qed.

Lemma lex_line_text :
  forall t n acc rest,
    ast_shape t = true ->
    rest = [] \/ (exists rest', rest = ")"%char :: rest') ->
    List.length (text_of t ++ rest) + 1 <= n ->
    exists n',
      List.length rest + 1 <= n' /\
      lex_line n acc (FILE_BACKED (text_of t ++ rest)) =
      lex_line n' (acc ++ unparse t) (FILE_BACKED rest).
Proof.
  induction t as [id is_term value|id is_term l IHl r IHr|id is_term o IHo];
    intros n acc rest Hs Hrest Hn.
  - destruct (decimal_digits value) as (d & ds & E & Hd & Hds).
    cbn [text_of unparse] in *. rewrite E in *.
    rewrite <- app_comm_cons in *. cbn [List.length] in Hn.
    rewrite length_app in Hn.
    destruct n as [|n]; [lia|].
    assert (Hstop : stops isdigit rest).
    { destruct Hrest as [->|(rest' & ->)]; [exact I|].
      split; [reflexivity|discriminate]. }
    exists n. split; [lia|].
    rewrite (lex_line_step n acc _ _ _
               (lex_token_number n d ds rest Hd Hds Hstop ltac:(lia)))
      by discriminate.
    rewrite <- E, string_of_list_ascii_of_string. reflexivity.
  - cbn [ast_shape] in Hs.
    apply andb_prop in Hs. destruct Hs as [Hs Hsr].
    apply andb_prop in Hs. destruct Hs as [Hs Hsl].
    apply andb_prop in Hs. destruct Hs as [Hop _].
    assert (Hin : In id binary_operators).
    { apply existsb_exists in Hop. destruct Hop as (x & Hx & E).
      apply token_type_eqb_eq in E. subst x. exact Hx. }
    assert (Hne : type (lex_mkkw id) <> TOK_EOF).
    { cbn [type lex_mkkw]. intros E. rewrite E in Hin. simpl in Hin.
      intuition discriminate. }
    assert (Et : text_of (node_binary id is_term l r) ++ rest =
                 "("%char :: text_of l ++
                 ")"%char :: operator_char id :: "("%char ::
                 text_of r ++ ")"%char :: rest).
    { cbn [text_of]. rewrite <- app_comm_cons, <- app_assoc.
      do 3 rewrite <- app_comm_cons. rewrite <- app_assoc. reflexivity. }
    rewrite Et in *. cbn [List.length] in Hn.
    destruct n as [|n]; [lia|].
    rewrite (lex_line_step n acc _ _ _ (lex_token_file_lparen n _))
      by discriminate.
    destruct (IHl n (acc ++ [lex_mkkw TOK_LPAREN])
                (")"%char :: operator_char id :: "("%char ::
                 text_of r ++ ")"%char :: rest) Hsl
                (or_intror (ex_intro _ _ eq_refl)) ltac:(lia))
      as (n1 & Hn1 & E1).
    rewrite E1. cbn [List.length] in Hn1.
    destruct n1 as [|n1]; [lia|].
    rewrite (lex_line_step n1 _ _ _ _ (lex_token_file_rparen n1 _))
      by discriminate.
    destruct n1 as [|n1]; [lia|].
    rewrite (lex_line_step n1 _ _ _ _
               (lex_token_file_operator n1 id _ Hin)) by exact Hne.
    destruct n1 as [|n1]; [lia|].
    rewrite (lex_line_step n1 _ _ _ _ (lex_token_file_lparen n1 _))
      by discriminate.
    destruct (IHr n1
                (((((acc ++ [lex_mkkw TOK_LPAREN]) ++ unparse l)
                     ++ [lex_mkkw TOK_RPAREN]) ++ [lex_mkkw id])
                   ++ [lex_mkkw TOK_LPAREN])
                (")"%char :: rest) Hsr
                (or_intror (ex_intro _ _ eq_refl)) ltac:(lia))
      as (n2 & Hn2 & E2).
    rewrite E2. cbn [List.length] in Hn2.
    destruct n2 as [|n2]; [lia|].
    rewrite (lex_line_step n2 _ _ _ _ (lex_token_file_rparen n2 _))
      by discriminate.
    exists n2. split; [lia|].
    f_equal. cbn [unparse]. rewrite <- !app_assoc. reflexivity.
  - discriminate Hs.
Qed.

(** X17.  A tree written as text is read back: for every tree of the shape
    the parser builds, with leaves between [0] and [LONG_MAX], the text
    that writes the leaves in decimal digits and every operand in
    parentheses is lexed and parsed to that very tree. *)
Theorem text_of_a_tree_is_read_back :
  forall t,
    ast_shape t = true -> bounded t ->
    interpret (lex_init_file (text_of t)) = Done (Some t).
Proof.
  intros t Hs Hb.
  assert (Hl : lex_all (lex_init_file (text_of t)) =
               Done (Some (unparse t ++ [lex_mkspecial TOK_EOF]))).
  { unfold lex_all, lex_init_file, line_fuel. cbn [lex_remaining].
    destruct (lex_line_text t (List.length (text_of t) + 2) [] [] Hs
                (or_introl eq_refl)) as (n' & Hn' & E).
    { rewrite app_nil_r. lia. }
    rewrite app_nil_r in E. rewrite E. simpl app.
    destruct n' as [|k]; [simpl in Hn'; lia|].
    reflexivity. }
  unfold interpret. rewrite Hl.
  rewrite (parse_tokens_unparse t Hs Hb). reflexivity.
Qed.

Lemma text_of_a_tree_is_read_back_witness :
  interpret (file_of "((12)&(3))-(4)") =
  Done (Some (Binary TOK_MINUS (Binary TOK_BWAND (Leaf 12) (Leaf 3))
                (Leaf 4))).
Proof.
  apply (text_of_a_tree_is_read_back
           (Binary TOK_MINUS (Binary TOK_BWAND (Leaf 12) (Leaf 3))
              (Leaf 4))).
  - reflexivity.
  - simpl. unfold LONG_MAX. lia.
Defined.

(** ** Blanks are not joined *)



